(** * Red-black tree container of package [bst]: model and verification

    The Go code keeps its nodes on the heap and links them with [left],
    [right] and [parent] pointers.  The model below keeps that shape: nodes
    live in an arena (a finite map from addresses to node records), a pointer
    is an optional address ([None] is Go's [nil]), and every method is a
    computation that threads the arena together with the [root] and [len]
    fields of the tree.  A nil dereference is a [Panic]; loops take fuel.

    Values are modelled at [T := Z] with the usual order (one instance of
    [cmp.Ordered]); [len] is an unbounded integer, since a tree of 2^63 nodes
    does not fit any address space. *)

From stdpp Require Import gmap strings list sorting.
From Stdlib Require Import ZArith Lia.

Open Scope string_scope.
Open Scope list_scope.
Open Scope Z_scope.

(** ** Data model *)

Inductive color := black | red.

#[global] Instance color_eq_dec : EqDecision color.
Proof. solve_decision. Defined.

Definition addr := positive.
Definition ptr := option addr.

Record node := mkNode {
  left : ptr;
  right : ptr;
  parent : ptr;
  clr : color;
  value : Z;
}.

Record RBTree := mkRB {
  arena : gmap positive node;
  next : addr;
  root : ptr;
  len : Z;
}.

(** [NewRBTree]: an empty tree; the allocator starts at address 1. *)
Definition NewRBTree : RBTree :=
  {| arena := ∅; next := 1%positive; root := None; len := 0 |}.

(** Modelled from the spec: the error value [ErrValueDoesNotExist] is used by
    [Delete] but declared outside the given sources; the spec calls it
    NotFound, the only error kind of the container. *)
Inductive error := ErrValueDoesNotExist.

(** ** Computations: state, panics, fuel *)

Inductive fault :=
| NilDeref (e : string)     (* field access through the nil pointer [e] *)
| Dangling (a : addr)       (* address outside the arena; never arises in Go *)
| IndexOutOfRange (i : nat) (* slice index out of range *)
| NegativeLen.              (* make with a negative length *)

Inductive res (A : Type) :=
| Ok (a : A)
| Panic (f : fault)
| Timeout.
Arguments Ok {A} a.
Arguments Panic {A} f.
Arguments Timeout {A}.

Definition M (A : Type) := RBTree → res (A * RBTree).

Definition ret {A} (a : A) : M A := fun s => Ok (a, s).
Definition bind {A B} (m : M A) (k : A → M B) : M B := fun s =>
  match m s with
  | Ok (a, s') => k a s'
  | Panic f => Panic f
  | Timeout => Timeout
  end.
Definition panic {A} (f : fault) : M A := fun _ => Panic f.
Definition timeout {A} : M A := fun _ => Timeout.

Notation "x <- m ;; k" := (bind m (fun x => k))
  (at level 100, m at next level, right associativity, only parsing).
Notation "'exec' m ;; k" := (bind m (fun _ => k))
  (at level 100, m at next level, right associativity, only parsing).

Definition get_root : M ptr := fun s => Ok (root s, s).
Definition set_root (p : ptr) : M unit := fun s =>
  Ok (tt, {| arena := arena s; next := next s; root := p; len := len s |}).
Definition get_len : M Z := fun s => Ok (len s, s).
Definition set_len (n : Z) : M unit := fun s =>
  Ok (tt, {| arena := arena s; next := next s; root := root s; len := n |}).

(** Reading the node behind pointer [p]; [e] names the dereferenced
    expression and is reported when [p] is nil. *)
Definition load (e : string) (p : ptr) : M node := fun s =>
  match p with
  | None => Panic (NilDeref e)
  | Some a =>
      match arena s !! a with
      | Some n => Ok (n, s)
      | None => Panic (Dangling a)
      end
  end.

Definition write (a : addr) (n : node) : M unit := fun s =>
  Ok (tt, {| arena := <[a := n]> (arena s); next := next s;
             root := root s; len := len s |}).

(** [&node{...}]: a fresh cell. *)
Definition alloc (n : node) : M ptr := fun s =>
  Ok (Some (next s),
      {| arena := <[next s := n]> (arena s); next := Pos.succ (next s);
         root := root s; len := len s |}).

Definition with_left (x : ptr) (n : node) : node :=
  {| left := x; right := right n; parent := parent n; clr := clr n; value := value n |}.
Definition with_right (x : ptr) (n : node) : node :=
  {| left := left n; right := x; parent := parent n; clr := clr n; value := value n |}.
Definition with_parent (x : ptr) (n : node) : node :=
  {| left := left n; right := right n; parent := x; clr := clr n; value := value n |}.
Definition with_clr (c : color) (n : node) : node :=
  {| left := left n; right := right n; parent := parent n; clr := c; value := value n |}.

(** [p.f]: read a field. *)
Definition field {A} (e : string) (p : ptr) (f : node → A) : M A :=
  n <- load e p;; ret (f n).

(** [p.f = x]: update a field in place. *)
Definition assign (e : string) (p : ptr) (f : node → node) : M unit := fun s =>
  match p with
  | None => Panic (NilDeref e)
  | Some a =>
      match arena s !! a with
      | Some n => write a (f n) s
      | None => Panic (Dangling a)
      end
  end.

(** [nd.color()]: nil pointers are considered black. *)
Definition color_of (p : ptr) : M color :=
  match p with
  | None => ret black
  | Some _ => field "color receiver" p clr
  end.

(** ** The methods of [src/bst/rb.go] *)

Definition Len : M Z := get_len.

(** [replace(nd, sub)] *)
Definition replace (nd sub : ptr) : M unit :=
  p <- field "nd" nd parent;;
  exec (match p with
        | None => set_root sub
        | Some _ =>
            pl <- field "p" p left;;
            if decide (nd = pl) then assign "p" p (with_left sub)
            else assign "p" p (with_right sub)
        end);;
  match sub with
  | None => ret tt
  | Some _ => assign "sub" sub (with_parent p)
  end.

(** [rotateLeft(nd)] *)
Definition rotateLeft (nd : ptr) : M unit :=
  match nd with
  | None => ret tt
  | Some _ =>
      r <- field "nd" nd right;;
      match r with
      | None => ret tt
      | Some _ =>
          exec replace nd r;;
          exec assign "nd" nd (with_parent r);;
          rl <- field "r" r left;;
          exec assign "nd" nd (with_right rl);;
          ndr <- field "nd" nd right;;
          exec (match ndr with
                | None => ret tt
                | Some _ => assign "nd.right" ndr (with_parent nd)
                end);;
          assign "r" r (with_left nd)
      end
  end.

(** [rotateRight(nd)] *)
Definition rotateRight (nd : ptr) : M unit :=
  match nd with
  | None => ret tt
  | Some _ =>
      l <- field "nd" nd left;;
      match l with
      | None => ret tt
      | Some _ =>
          exec replace nd l;;
          exec assign "nd" nd (with_parent l);;
          lr <- field "l" l right;;
          exec assign "nd" nd (with_left lr);;
          ndl <- field "nd" nd left;;
          exec (match ndl with
                | None => ret tt
                | Some _ => assign "nd.left" ndl (with_parent nd)
                end);;
          assign "l" l (with_right nd)
      end
  end.

(** The two versions of the container ([src/bst/rb.go] and the earlier
    [src/unnamed/part_000]) have the same [fixInsert] and [Insert] text and
    differ in the rotations these call; the shared text is written once,
    over the rotations. *)
Section InsertOver.
Variables rotL rotR : ptr → M unit.

(** One pass through the body of the [for] loop of [fixInsert]; the result
    is the value of [nd] at the end of the pass. *)
Definition fixInsert_body (nd : ptr) : M ptr :=
  p <- field "nd" nd parent;;
  g <- field "p" p parent;;
  gl <- field "p.parent" g left;;
  if decide (p = gl) then
    psib <- field "p.parent" g right;;
    c <- color_of psib;;
    if decide (c = red) then
      exec assign "psib" psib (with_clr black);;
      exec assign "p" p (with_clr black);;
      g <- field "p" p parent;;
      exec assign "p.parent" g (with_clr red);;
      field "p" p parent
    else
      pr <- field "p" p right;;
      nd <- (if decide (nd = pr) then (exec rotL p;; ret p) else ret nd);;
      np <- field "nd" nd parent;;
      exec assign "nd.parent" np (with_clr black);;
      np <- field "nd" nd parent;;
      ng <- field "nd.parent" np parent;;
      exec assign "nd.parent.parent" ng (with_clr red);;
      np <- field "nd" nd parent;;
      ng <- field "nd.parent" np parent;;
      exec rotR ng;;
      ret nd
  else
    psib <- field "p.parent" g left;;
    c <- color_of psib;;
    if decide (c = red) then
      exec assign "psib" psib (with_clr black);;
      exec assign "p" p (with_clr black);;
      g <- field "p" p parent;;
      exec assign "p.parent" g (with_clr red);;
      field "p" p parent
    else
      pl <- field "p" p left;;
      nd <- (if decide (nd = pl) then (exec rotR p;; ret p) else ret nd);;
      np <- field "nd" nd parent;;
      exec assign "nd.parent" np (with_clr black);;
      np <- field "nd" nd parent;;
      ng <- field "nd.parent" np parent;;
      exec assign "nd.parent.parent" ng (with_clr red);;
      np <- field "nd" nd parent;;
      ng <- field "nd.parent" np parent;;
      exec rotL ng;;
      ret nd.

(** [for nd.parent.color() == red { ... }] *)
Fixpoint fixInsert_loop (fuel : nat) (nd : ptr) : M unit :=
  p <- field "nd" nd parent;;
  c <- color_of p;;
  if decide (c = red) then
    match fuel with
    | O => timeout
    | S fuel' => nd' <- fixInsert_body nd;; fixInsert_loop fuel' nd'
    end
  else ret tt.

Definition fixInsert_over (fuel : nat) (nd : ptr) : M unit :=
  c <- color_of nd;;
  if decide (c = red) then
    exec fixInsert_loop fuel nd;;
    r <- get_root;;
    assign "rb.root" r (with_clr black)
  else ret tt.

(** The descent [for nd != nil { p = nd; ... }] of [Insert]; returns [p]. *)
Fixpoint insert_descend (fuel : nat) (val : Z) (nd p : ptr) : M ptr :=
  match nd with
  | None => ret p
  | Some _ =>
      match fuel with
      | O => timeout
      | S fuel' =>
          v <- field "nd" nd value;;
          if val <=? v
          then (l <- field "nd" nd left;; insert_descend fuel' val l nd)
          else (r <- field "nd" nd right;; insert_descend fuel' val r nd)
      end
  end.

Definition Insert_over (fuel : nat) (val : Z) : M unit :=
  nd <- get_root;;
  p <- insert_descend fuel val nd None;;
  n <- get_len;;
  exec set_len (n + 1);;
  newNd <- alloc {| left := None; right := None; parent := None;
                   clr := black; value := val |};;
  match p with
  | None =>
      exec assign "newNd" newNd (with_clr black);;
      set_root newNd
  | Some _ =>
      exec assign "newNd" newNd (with_clr red);;
      exec assign "newNd" newNd (with_parent p);;
      pv <- field "p" p value;;
      exec (if val <=? pv then assign "p" p (with_left newNd)
            else assign "p" p (with_right newNd));;
      fixInsert_over fuel newNd
  end.
End InsertOver.

Definition fixInsert : nat → ptr → M unit := fixInsert_over rotateLeft rotateRight.
Definition Insert : nat → Z → M unit := Insert_over rotateLeft rotateRight.

(** [findNode(val)] *)
Fixpoint findNode_from (fuel : nat) (val : Z) (nd : ptr) : M ptr :=
  match nd with
  | None => ret None
  | Some _ =>
      match fuel with
      | O => timeout
      | S fuel' =>
          v <- field "nd" nd value;;
          if v =? val then ret nd
          else if v <? val then (r <- field "nd" nd right;; findNode_from fuel' val r)
          else (l <- field "nd" nd left;; findNode_from fuel' val l)
      end
  end.

Definition findNode (fuel : nat) (val : Z) : M ptr :=
  nd <- get_root;; findNode_from fuel val nd.

(** [Exists(val)] *)
Definition Exists (fuel : nat) (val : Z) : M bool :=
  nd <- findNode fuel val;;
  ret (if nd is Some _ then true else false).

(** [(nd).getMin()] *)
Fixpoint getMin (fuel : nat) (nd : ptr) : M ptr :=
  l <- field "nd" nd left;;
  match l with
  | None => ret nd
  | Some _ =>
      match fuel with
      | O => timeout
      | S fuel' => getMin fuel' l
      end
  end.

(** The body of the [for] loop of [fixDelete] is written in blocks.  With
    [nd] a left child and [sib] its sibling after the red-sibling step, the
    block below is the remainder of the branch (lines 363-380): recolour, or
    rotate and finish with [nd = rb.root].  The result is the value of [nd]
    at the end of the pass. *)
Definition fixDelete_left_rest (nd sib : ptr) : M ptr :=
  sl <- field "sib" sib left;;
  cl <- color_of sl;;
  both <- (if decide (cl = black) then
             sr <- field "sib" sib right;;
             cr <- color_of sr;;
             ret (bool_decide (cr = black))
           else ret false);;
  if both then
    exec assign "sib" sib (with_clr red);;
    field "nd" nd parent
  else
    sr <- field "sib" sib right;;
    cr <- color_of sr;;
    sib <- (if decide (cr = black) then
              sl <- field "sib" sib left;;
              exec assign "sib.left" sl (with_clr black);;
              exec assign "sib" sib (with_clr red);;
              exec rotateRight sib;;
              np <- field "nd" nd parent;;
              field "nd.parent" np right
            else ret sib);;
    np <- field "nd" nd parent;;
    pc <- field "nd.parent" np clr;;
    exec assign "sib" sib (with_clr pc);;
    np <- field "nd" nd parent;;
    exec assign "nd.parent" np (with_clr black);;
    sr <- field "sib" sib right;;
    exec assign "sib.right" sr (with_clr black);;
    np <- field "nd" nd parent;;
    exec rotateLeft np;;
    get_root.

(** The branch [if nd == nd.parent.left] (lines 350-380). *)
Definition fixDelete_left (nd : ptr) : M ptr :=
  np <- field "nd" nd parent;;
  sib <- field "nd.parent" np right;;
  c <- color_of sib;;
  sib <- (if decide (c = red) then
            exec assign "sib" sib (with_clr black);;
            np <- field "nd" nd parent;;
            exec assign "nd.parent" np (with_clr red);;
            np <- field "nd" nd parent;;
            exec rotateLeft np;;
            np <- field "nd" nd parent;;
            field "nd.parent" np right
          else ret sib);;
  fixDelete_left_rest nd sib.

(** The mirror block (lines 395-412); as in the source, the inner rotation
    is [rotateRight(sib)] here too. *)
Definition fixDelete_right_rest (nd sib : ptr) : M ptr :=
  sl <- field "sib" sib left;;
  cl <- color_of sl;;
  both <- (if decide (cl = black) then
             sr <- field "sib" sib right;;
             cr <- color_of sr;;
             ret (bool_decide (cr = black))
           else ret false);;
  if both then
    exec assign "sib" sib (with_clr red);;
    field "nd" nd parent
  else
    sl <- field "sib" sib left;;
    cl <- color_of sl;;
    sib <- (if decide (cl = black) then
              sr <- field "sib" sib right;;
              exec assign "sib.right" sr (with_clr black);;
              exec assign "sib" sib (with_clr red);;
              exec rotateRight sib;;
              np <- field "nd" nd parent;;
              field "nd.parent" np left
            else ret sib);;
    np <- field "nd" nd parent;;
    pc <- field "nd.parent" np clr;;
    exec assign "sib" sib (with_clr pc);;
    np <- field "nd" nd parent;;
    exec assign "nd.parent" np (with_clr black);;
    sl <- field "sib" sib left;;
    exec assign "sib.left" sl (with_clr black);;
    np <- field "nd" nd parent;;
    exec rotateRight np;;
    get_root.

(** The [else] branch (lines 382-412). *)
Definition fixDelete_right (nd : ptr) : M ptr :=
  np <- field "nd" nd parent;;
  sib <- field "nd.parent" np left;;
  c <- color_of sib;;
  sib <- (if decide (c = red) then
            exec assign "sib" sib (with_clr black);;
            np <- field "nd" nd parent;;
            exec assign "nd.parent" np (with_clr red);;
            np <- field "nd" nd parent;;
            exec rotateRight np;;
            np <- field "nd" nd parent;;
            field "nd.parent" np left
          else ret sib);;
  fixDelete_right_rest nd sib.

(** One pass through the body of the [for] loop of [fixDelete]. *)
Definition fixDelete_body (nd : ptr) : M ptr :=
  np <- field "nd" nd parent;;
  npl <- field "nd.parent" np left;;
  if decide (nd = npl) then fixDelete_left nd else fixDelete_right nd.

(** [for nd != rb.root && nd.color() == black { ... }] *)
Fixpoint fixDelete_loop (fuel : nat) (nd : ptr) : M unit :=
  r <- get_root;;
  c <- (if decide (nd = r) then ret red else color_of nd);;
  if decide (nd ≠ r ∧ c = black) then
    match fuel with
    | O => timeout
    | S fuel' => nd' <- fixDelete_body nd;; fixDelete_loop fuel' nd'
    end
  else ret tt.

(** [fixDelete(nd)] *)
Definition fixDelete (fuel : nat) (nd : ptr) : M unit :=
  exec fixDelete_loop fuel nd;;
  r <- get_root;;
  assign "rb.root" r (with_clr black).

(** The [if nd.left == nil / else if nd.right == nil / else] chain of
    [Delete]: unlink [nd] and return the colour that left its position
    together with the node to fix. *)
Definition splice (fuel : nat) (nd : ptr) (ogColor : color) (ndl ndr : ptr)
    : M (color * ptr) :=
  match ndl, ndr with
  | None, _ =>
      exec replace nd ndr;;
      ret (ogColor, ndr)
  | Some _, None =>
      exec replace nd ndl;;
      ret (ogColor, ndl)
  | Some _, Some _ =>
      sub <- getMin fuel ndr;;
      ogColor <- field "sub" sub clr;;
      ndToFix <- field "sub" sub right;;
      sp <- field "sub" sub parent;;
      exec (if decide (sp ≠ nd) then
              sr <- field "sub" sub right;;
              exec replace sub sr;;
              ndr <- field "nd" nd right;;
              exec assign "sub" sub (with_right ndr);;
              sr <- field "sub" sub right;;
              assign "sub.right" sr (with_parent sub)
            else ret tt);;
      exec replace nd sub;;
      ndl <- field "nd" nd left;;
      exec assign "sub" sub (with_left ndl);;
      sl <- field "sub" sub left;;
      exec (match sl with
            | None => ret tt
            | Some _ => assign "sub.left" sl (with_parent sub)
            end);;
      c <- field "nd" nd clr;;
      exec assign "sub" sub (with_clr c);;
      ret (ogColor, ndToFix)
  end.

(** [Delete(val)]; the result [None] is Go's nil error. *)
Definition Delete (fuel : nat) (val : Z) : M (option error) :=
  nd <- findNode fuel val;;
  match nd with
  | None => ret (Some ErrValueDoesNotExist)
  | Some _ =>
      n <- get_len;;
      exec set_len (n - 1);;
      ogColor <- field "nd" nd clr;;
      ndl <- field "nd" nd left;;
      ndr <- field "nd" nd right;;
      res <- splice fuel nd ogColor ndl ndr;;
      exec (if decide (res.1 = black) then fixDelete fuel res.2 else ret tt);;
      ret None
  end.

(** The inner loop [for pre.right != nil && pre.right != nd] of [GetValues];
    returns [pre]. *)
Fixpoint find_pre (fuel : nat) (nd pre : ptr) : M ptr :=
  pr <- field "pre" pre right;;
  if decide (pr ≠ None ∧ pr ≠ nd) then
    match fuel with
    | O => timeout
    | S fuel' => find_pre fuel' nd pr
    end
  else ret pre.

(** [values[i] = v] *)
Definition put (values : list Z) (i : nat) (v : Z) : M (list Z) :=
  if decide (i < length values)%nat then ret (<[i := v]> values)
  else panic (IndexOutOfRange i).

(** The Morris traversal loop [for nd != nil { ... }] of [GetValues]; [inner]
    is the fuel handed to each run of the inner loop. *)
Fixpoint morris (inner fuel : nat) (nd : ptr) (i : nat) (values : list Z) : M (list Z) :=
  match nd with
  | None => ret values
  | Some _ =>
      match fuel with
      | O => timeout
      | S fuel' =>
          l <- field "nd" nd left;;
          match l with
          | Some _ =>
              pre <- find_pre inner nd l;;
              pr <- field "pre" pre right;;
              match pr with
              | None =>
                  exec assign "pre" pre (with_right nd);;
                  l <- field "nd" nd left;;
                  morris inner fuel' l i values
              | Some _ =>
                  v <- field "nd" nd value;;
                  values <- put values i v;;
                  r <- field "nd" nd right;;
                  exec assign "pre" pre (with_right None);;
                  morris inner fuel' r (S i) values
              end
          | None =>
              v <- field "nd" nd value;;
              values <- put values i v;;
              r <- field "nd" nd right;;
              morris inner fuel' r (S i) values
          end
      end
  end.

(** [GetValues()] *)
Definition GetValues (fuel : nat) : M (list Z) :=
  n <- Len;;
  if decide (n < 0) then panic NegativeLen
  else
    nd <- get_root;;
    morris fuel fuel nd 0 (replicate (Z.to_nat n) 0).

(** ** The earlier version, [src/unnamed/part_000]

    Its rotations relink the parent themselves and force a promoted root
    black; [fixInsert] and [Insert] have the text of the current version. *)
Module Prev.

Definition rotateLeft (nd : ptr) : M unit :=
  match nd with
  | None => ret tt
  | Some _ =>
      r <- field "nd" nd right;;
      match r with
      | None => ret tt
      | Some _ =>
          p <- field "nd" nd parent;;
          exec assign "r" r (with_parent p);;
          exec (match p with
                | None =>
                    exec set_root r;;
                    rt <- get_root;;
                    assign "rb.root" rt (with_clr black)
                | Some _ =>
                    pl <- field "p" p left;;
                    if decide (nd = pl) then assign "p" p (with_left r)
                    else assign "p" p (with_right r)
                end);;
          exec assign "nd" nd (with_parent r);;
          rl <- field "r" r left;;
          exec assign "nd" nd (with_right rl);;
          ndr <- field "nd" nd right;;
          exec (match ndr with
                | None => ret tt
                | Some _ => assign "nd.right" ndr (with_parent nd)
                end);;
          assign "r" r (with_left nd)
      end
  end.

Definition rotateRight (nd : ptr) : M unit :=
  match nd with
  | None => ret tt
  | Some _ =>
      l <- field "nd" nd left;;
      match l with
      | None => ret tt
      | Some _ =>
          p <- field "nd" nd parent;;
          exec assign "l" l (with_parent p);;
          exec (match p with
                | None =>
                    exec set_root l;;
                    rt <- get_root;;
                    assign "rb.root" rt (with_clr black)
                | Some _ =>
                    pl <- field "p" p left;;
                    if decide (nd = pl) then assign "p" p (with_left l)
                    else assign "p" p (with_right l)
                end);;
          exec assign "nd" nd (with_parent l);;
          lr <- field "l" l right;;
          exec assign "nd" nd (with_left lr);;
          ndl <- field "nd" nd left;;
          exec (match ndl with
                | None => ret tt
                | Some _ => assign "nd.left" ndl (with_parent nd)
                end);;
          assign "l" l (with_right nd)
      end
  end.

Definition fixInsert : nat → ptr → M unit := fixInsert_over rotateLeft rotateRight.
Definition Insert : nat → Z → M unit := Insert_over rotateLeft rotateRight.

(** [Exists(val)] of the earlier version: a search loop of its own,
    [for nd != nil { if val == nd.value ... else if val > nd.value ... }]. *)
Fixpoint Exists_from (fuel : nat) (val : Z) (nd : ptr) : M bool :=
  match nd with
  | None => ret false
  | Some _ =>
      match fuel with
      | O => timeout
      | S fuel' =>
          v <- field "nd" nd value;;
          if val =? v then ret true
          else if val >? v then (r <- field "nd" nd right;; Exists_from fuel' val r)
          else (l <- field "nd" nd left;; Exists_from fuel' val l)
      end
  end.

Definition Exists (fuel : nat) (val : Z) : M bool :=
  nd <- get_root;; Exists_from fuel val nd.

End Prev.

(** ** Running the code on small inputs *)

Definition run {A} (m : M A) (s : RBTree) : res RBTree :=
  match m s with
  | Ok (_, s') => Ok s'
  | Panic f => Panic f
  | Timeout => Timeout
  end.

Definition inserts (ins : nat → Z → M unit) (fuel : nat) (vs : list Z) : M unit :=
  foldr (fun v k => exec ins fuel v;; k) (ret tt) vs.

(** ** Abstract trees and their representation in the arena

    A tree of the arena is described by a term that records, for each node,
    its address, colour and value; [rep h t p] says that arena [h] holds the
    nodes of [t] linked as [t] says, the root of [t] having parent [p]. *)

Inductive tree :=
| E
| T (a : addr) (c : color) (l : tree) (v : Z) (r : tree).

Definition root_of (t : tree) : ptr :=
  match t with E => None | T a _ _ _ _ => Some a end.

Definition color_of_tree (t : tree) : color :=
  match t with E => black | T _ c _ _ _ => c end.

Fixpoint inorder (t : tree) : list (addr * Z) :=
  match t with
  | E => []
  | T a _ l v r => inorder l ++ (a, v) :: inorder r
  end.

Definition addrs (t : tree) : list addr := (inorder t).*1.
Definition values (t : tree) : list Z := (inorder t).*2.

Fixpoint rep (h : gmap positive node) (t : tree) (p : ptr) : Prop :=
  match t with
  | E => True
  | T a c l v r =>
      h !! a = Some (mkNode (root_of l) (root_of r) p c v)
      ∧ rep h l (Some a) ∧ rep h r (Some a)
  end.

(** A one-hole context, innermost frame first: [FL a c v r] is the node [a]
    with the hole as left child, [FR a c l v] has the hole on the right. *)
Inductive frame :=
| FL (a : addr) (c : color) (v : Z) (r : tree)
| FR (a : addr) (c : color) (l : tree) (v : Z).

Definition plug1 (f : frame) (t : tree) : tree :=
  match f with
  | FL a c v r => T a c t v r
  | FR a c l v => T a c l v t
  end.

Fixpoint plug (ctx : list frame) (t : tree) : tree :=
  match ctx with
  | [] => t
  | f :: ctx' => plug ctx' (plug1 f t)
  end.

Definition frame_addr (f : frame) : addr :=
  match f with FL a _ _ _ | FR a _ _ _ => a end.

Definition ctx_parent (ctx : list frame) : ptr :=
  match ctx with [] => None | f :: _ => Some (frame_addr f) end.

(** In-order contents of a context to the left and to the right of its hole. *)
Fixpoint ctx_before (ctx : list frame) : list (addr * Z) :=
  match ctx with
  | [] => []
  | FL _ _ _ _ :: ctx' => ctx_before ctx'
  | FR a _ l v :: ctx' => ctx_before ctx' ++ inorder l ++ [(a, v)]
  end.

Fixpoint ctx_after (ctx : list frame) : list (addr * Z) :=
  match ctx with
  | [] => []
  | FL a _ v r :: ctx' => (a, v) :: inorder r ++ ctx_after ctx'
  | FR _ _ _ _ :: ctx' => ctx_after ctx'
  end.

Fixpoint rep_ctx (h : gmap positive node) (ctx : list frame) (hole : ptr) : Prop :=
  match ctx with
  | [] => True
  | FL a c v r :: ctx' =>
      h !! a = Some (mkNode hole (root_of r) (ctx_parent ctx') c v)
      ∧ rep h r (Some a) ∧ rep_ctx h ctx' (Some a)
  | FR a c l v :: ctx' =>
      h !! a = Some (mkNode (root_of l) hole (ctx_parent ctx') c v)
      ∧ rep h l (Some a) ∧ rep_ctx h ctx' (Some a)
  end.

Set Warnings "-clear-no-such-hyp".

Lemma inorder_plug ctx t :
  inorder (plug ctx t) = ctx_before ctx ++ inorder t ++ ctx_after ctx.
Proof.
  revert t. induction ctx as [|[a c v r|a c l v] ctx IH]; intros t; simpl.
  - by rewrite app_nil_r.
  - rewrite IH. simpl. by rewrite <- ?app_assoc.
  - rewrite IH. simpl. rewrite <- ?app_assoc. simpl. by rewrite <- ?app_assoc.
Qed.

Lemma root_of_plug ctx t :
  root_of (plug ctx t) = match last ctx with None => root_of t | Some f => Some (frame_addr f) end.
Proof.
  revert t. induction ctx as [|f ctx IH]; intros t; [done|].
  simpl plug. rewrite IH. destruct ctx as [|f' ctx]; simpl; [by destruct f|].
  destruct (last (f' :: ctx)) eqn:Hl; [done|]. by apply last_None in Hl.
Qed.

Lemma rep_plug h ctx t :
  rep h (plug ctx t) None ↔ rep h t (ctx_parent ctx) ∧ rep_ctx h ctx (root_of t).
Proof.
  revert t. induction ctx as [|[a c v r|a c l v] ctx IH]; intros t; simpl.
  - tauto.
  - rewrite IH. simpl. tauto.
  - rewrite IH. simpl. tauto.
Qed.

Lemma rep_insert h t p x n :
  x ∉ addrs t → rep h t p → rep (<[x := n]> h) t p.
Proof.
  revert p. induction t as [|a c l IHl v r IHr]; intros p; [done|].
  unfold addrs. simpl. rewrite fmap_app, fmap_cons. simpl. intros Hx (Ha & Hl & Hr).
  split_and!.
  - rewrite lookup_insert_ne; [done|]. set_solver.
  - apply IHl; [|done]. unfold addrs. set_solver.
  - apply IHr; [|done]. unfold addrs. set_solver.
Qed.

Definition ctx_addrs (ctx : list frame) : list addr :=
  (ctx_before ctx).*1 ++ (ctx_after ctx).*1.

Lemma rep_ctx_insert h ctx hole x n :
  x ∉ ctx_addrs ctx → rep_ctx h ctx hole → rep_ctx (<[x := n]> h) ctx hole.
Proof.
  revert hole. unfold ctx_addrs.
  induction ctx as [|[a c v r|a c l v] ctx IH]; intros hole; [done|..]; simpl;
    rewrite ?fmap_app, ?fmap_cons; simpl; intros Hx (Ha & Hs & Hc).
  - split_and!.
    + rewrite lookup_insert_ne; [done|]. set_solver.
    + apply rep_insert; [|done]. unfold addrs. set_solver.
    + apply IH; [|done]. set_solver.
  - split_and!.
    + rewrite lookup_insert_ne; [done|]. set_solver.
    + apply rep_insert; [|done]. unfold addrs. set_solver.
    + apply IH; [|done]. set_solver.
Qed.

(** ** Address bookkeeping *)

Lemma addrs_T a c l v r : addrs (T a c l v r) = addrs l ++ a :: addrs r.
Proof. unfold addrs. simpl. by rewrite fmap_app. Qed.

Lemma addrs_E : addrs E = [].
Proof. done. Qed.

Definition ctx_l (ctx : list frame) : list addr := (ctx_before ctx).*1.
Definition ctx_r (ctx : list frame) : list addr := (ctx_after ctx).*1.

Lemma addrs_plug ctx t : addrs (plug ctx t) = ctx_l ctx ++ addrs t ++ ctx_r ctx.
Proof. unfold addrs, ctx_l, ctx_r. by rewrite inorder_plug, !fmap_app. Qed.

Lemma ctx_l_nil : ctx_l [] = [].
Proof. done. Qed.
Lemma ctx_r_nil : ctx_r [] = [].
Proof. done. Qed.
Lemma ctx_l_FL a c v r ctx : ctx_l (FL a c v r :: ctx) = ctx_l ctx.
Proof. done. Qed.
Lemma ctx_l_FR a c l v ctx : ctx_l (FR a c l v :: ctx) = ctx_l ctx ++ addrs l ++ [a].
Proof. unfold ctx_l, addrs. simpl. by rewrite !fmap_app. Qed.
Lemma ctx_r_FL a c v r ctx : ctx_r (FL a c v r :: ctx) = a :: addrs r ++ ctx_r ctx.
Proof. unfold ctx_r, addrs. simpl. by rewrite !fmap_app. Qed.
Lemma ctx_r_FR a c l v ctx : ctx_r (FR a c l v :: ctx) = ctx_r ctx.
Proof. done. Qed.

Lemma ctx_l_app c1 c2 : ctx_l (c1 ++ c2) = ctx_l c2 ++ ctx_l c1.
Proof.
  induction c1 as [|[a c v r|a c l v] c1 IH].
  - by rewrite app_nil_r.
  - by rewrite <- app_comm_cons, !ctx_l_FL.
  - by rewrite <- app_comm_cons, !ctx_l_FR, IH, <- app_assoc.
Qed.

Lemma ctx_r_app c1 c2 : ctx_r (c1 ++ c2) = ctx_r c1 ++ ctx_r c2.
Proof.
  induction c1 as [|[a c v r|a c l v] c1 IH].
  - done.
  - rewrite <- app_comm_cons, !ctx_r_FL, IH. cbn [app]. by rewrite <- app_assoc.
  - by rewrite <- app_comm_cons, !ctx_r_FR.
Qed.

Lemma rep_ctx_frame h ctx hole x n :
  x ∉ ctx_l ctx → x ∉ ctx_r ctx → rep_ctx h ctx hole → rep_ctx (<[x := n]> h) ctx hole.
Proof.
  intros Hl Hr. apply rep_ctx_insert. unfold ctx_addrs. rewrite elem_of_app.
  intros [?|?]; [by apply Hl|by apply Hr].
Qed.

(** Disjointness of address lists, and the rules that break a [NoDup] fact
    into facts about single addresses and whole subtrees. *)
Definition disj (k l : list addr) : Prop := ∀ x, x ∈ k → x ∉ l.

Lemma NoDup_app_disj (k l : list addr) : NoDup (k ++ l) ↔ NoDup k ∧ NoDup l ∧ disj k l.
Proof. rewrite NoDup_app. unfold disj. tauto. Qed.
Lemma NoDup_cons_nin (a : addr) l : NoDup (a :: l) ↔ (a ∉ l) ∧ NoDup l.
Proof. apply NoDup_cons. Qed.
Lemma NoDup_nil_T : NoDup (@nil addr) ↔ True.
Proof. split; [done|]. intros _. apply NoDup_nil_2. Qed.
Lemma disj_app_l k1 k2 l : disj (k1 ++ k2) l ↔ disj k1 l ∧ disj k2 l.
Proof. unfold disj. setoid_rewrite elem_of_app. naive_solver. Qed.
Lemma disj_cons_l a k l : disj (a :: k) l ↔ (a ∉ l) ∧ disj k l.
Proof. unfold disj. setoid_rewrite elem_of_cons. naive_solver. Qed.
Lemma disj_nil_l l : disj [] l ↔ True.
Proof. unfold disj. setoid_rewrite elem_of_nil. naive_solver. Qed.
Lemma disj_app_r k l1 l2 : disj k (l1 ++ l2) ↔ disj k l1 ∧ disj k l2.
Proof. unfold disj. setoid_rewrite elem_of_app. naive_solver. Qed.
Lemma disj_cons_r k a l : disj k (a :: l) ↔ (a ∉ k) ∧ disj k l.
Proof. unfold disj. setoid_rewrite elem_of_cons. naive_solver. Qed.
Lemma disj_nil_r k : disj k [] ↔ True.
Proof. unfold disj. setoid_rewrite elem_of_nil. naive_solver. Qed.
Lemma nin_app (a : addr) k l : a ∉ (k ++ l) ↔ (a ∉ k) ∧ (a ∉ l).
Proof. rewrite elem_of_app. tauto. Qed.
Lemma nin_cons (a b : addr) l : a ∉ (b :: l) ↔ a ≠ b ∧ (a ∉ l).
Proof. rewrite elem_of_cons. tauto. Qed.
Lemma nin_nil (a : addr) : a ∉ @nil addr ↔ True.
Proof. rewrite elem_of_nil. tauto. Qed.
Lemma disj_sym k l : disj k l → disj l k.
Proof. unfold disj. naive_solver. Qed.

Ltac addrs_norm :=
  repeat (progress (rewrite ?addrs_plug, ?addrs_T, ?addrs_E, ?ctx_l_nil, ?ctx_r_nil,
    ?ctx_l_FL, ?ctx_l_FR, ?ctx_r_FL, ?ctx_r_FR, ?ctx_l_app, ?ctx_r_app)).
Ltac addrs_norm_in H :=
  repeat (progress (rewrite ?addrs_plug, ?addrs_T, ?addrs_E, ?ctx_l_nil, ?ctx_r_nil,
    ?ctx_l_FL, ?ctx_l_FR, ?ctx_r_FL, ?ctx_r_FR, ?ctx_l_app, ?ctx_r_app in H)).
Ltac nodup_open H :=
  lazymatch type of H with
  | NoDup (_ ++ _) =>
      let H1 := fresh "Hn" in let H2 := fresh "Hn" in let H3 := fresh "Hn" in
      apply NoDup_app_disj in H as (H1 & H2 & H3);
      nodup_open H1; nodup_open H2; nodup_open H3
  | NoDup (_ :: _) =>
      let H1 := fresh "Hn" in let H2 := fresh "Hn" in
      apply NoDup_cons_nin in H as (H1 & H2); nodup_open H1; nodup_open H2
  | NoDup [] => clear H
  | disj [] _ => clear H
  | disj _ [] => clear H
  | disj (_ ++ _) _ =>
      let H1 := fresh "Hn" in let H2 := fresh "Hn" in
      apply disj_app_l in H as (H1 & H2); nodup_open H1; nodup_open H2
  | disj (_ :: _) _ =>
      let H1 := fresh "Hn" in let H2 := fresh "Hn" in
      apply disj_cons_l in H as (H1 & H2); nodup_open H1; nodup_open H2
  | disj _ (_ ++ _) =>
      let H1 := fresh "Hn" in let H2 := fresh "Hn" in
      apply disj_app_r in H as (H1 & H2); nodup_open H1; nodup_open H2
  | disj _ (_ :: _) =>
      let H1 := fresh "Hn" in let H2 := fresh "Hn" in
      apply disj_cons_r in H as (H1 & H2); nodup_open H1; nodup_open H2
  | _ ∉ [] => clear H
  | _ ∉ (_ ++ _) =>
      let H1 := fresh "Hn" in let H2 := fresh "Hn" in
      apply nin_app in H as (H1 & H2); nodup_open H1; nodup_open H2
  | _ ∉ (_ :: _) =>
      let H1 := fresh "Hn" in let H2 := fresh "Hn" in
      apply nin_cons in H as (H1 & H2); nodup_open H1; nodup_open H2
  | _ => idtac
  end.

(** [open_nodup H]: turn [H : NoDup (addrs t)] into its atomic consequences. *)
Ltac open_nodup H :=
  addrs_norm_in H; nodup_open H.

(** The converse: prove a [NoDup], [disj] or [∉] goal from atomic facts. *)
Ltac nodup_close :=
  lazymatch goal with
  | |- NoDup (_ ++ _) => apply NoDup_app_disj; split_and!; nodup_close
  | |- NoDup (_ :: _) => apply NoDup_cons_nin; split; nodup_close
  | |- NoDup [] => apply NoDup_nil_2
  | |- disj [] _ => by apply disj_nil_l
  | |- disj _ [] => by apply disj_nil_r
  | |- disj (_ ++ _) _ => apply disj_app_l; split; nodup_close
  | |- disj (_ :: _) _ => apply disj_cons_l; split; nodup_close
  | |- disj _ (_ ++ _) => apply disj_app_r; split; nodup_close
  | |- disj _ (_ :: _) => apply disj_cons_r; split; nodup_close
  | |- _ ∉ [] => by apply nin_nil
  | |- _ ∉ (_ ++ _) => apply nin_app; split; nodup_close
  | |- _ ∉ (_ :: _) => apply nin_cons; split; nodup_close
  | |- _ =>
      first [ assumption | apply not_eq_sym; assumption | apply disj_sym; assumption
            | match goal with
              | H : disj ?k ?l, H' : ?x ∈ ?k |- ?x ∉ ?l => exact (H x H')
              end ]
  end.

Lemma root_of_ne a t : a ∉ addrs t → Some a ≠ root_of t.
Proof.
  destruct t as [|b c l v r]; [done|]. rewrite addrs_T, nin_app, nin_cons.
  intros (_ & Hne & _) [= ->]. done.
Qed.

Ltac solve_nin := addrs_norm; nodup_close.

Ltac solve_ne :=
  first [ assumption | apply not_eq_sym; assumption | discriminate
        | apply root_of_ne; solve_nin
        | apply not_eq_sym, root_of_ne; solve_nin
        | (intros [= ?]); first [contradiction | subst; contradiction | congruence ] ].

(** ** Stepping through computations *)

Lemma run_bind {A B} (m : M A) (k : A → M B) s :
  bind m k s = match m s with Ok (a, s') => k a s' | Panic f => Panic f | Timeout => Timeout end.
Proof. done. Qed.

Lemma run_assoc {A B C} (m : M A) (f : A → M B) (k : B → M C) s :
  bind (bind m f) k s = bind m (fun x => bind (f x) k) s.
Proof. unfold bind. by destruct (m s) as [[a s']| |]. Qed.

Lemma run_ret {A B} (x : A) (k : A → M B) s : bind (ret x) k s = k x s.
Proof. done. Qed.

Lemma run_field {A B} e a (f : node → A) (k : A → M B) s :
  bind (field e (Some a) f) k s =
  match arena s !! a with Some n => k (f n) s | None => Panic (Dangling a) end.
Proof. unfold field, load, ret, bind. simpl. by destruct (arena s !! a). Qed.

Lemma run_field_nil {A B} e (f : node → A) (k : A → M B) s :
  bind (field e None f) k s = Panic (NilDeref e).
Proof. done. Qed.

Lemma run_assign {B} e a g (k : unit → M B) s :
  bind (assign e (Some a) g) k s =
  match arena s !! a with
  | Some n => k tt (mkRB (<[a := g n]> (arena s)) (next s) (root s) (len s))
  | None => Panic (Dangling a)
  end.
Proof. unfold bind, assign, write. simpl. by destruct (arena s !! a). Qed.

Lemma run_assign_nil {B} e g (k : unit → M B) s :
  bind (assign e None g) k s = Panic (NilDeref e).
Proof. done. Qed.

Lemma run_color {B} a (k : color → M B) s :
  bind (color_of (Some a)) k s =
  match arena s !! a with Some n => k (clr n) s | None => Panic (Dangling a) end.
Proof. unfold color_of. apply run_field. Qed.

Lemma run_color_nil {B} (k : color → M B) s : bind (color_of None) k s = k black s.
Proof. done. Qed.

Lemma run_get_root {B} (k : ptr → M B) s : bind get_root k s = k (root s) s.
Proof. done. Qed.

Lemma run_set_root {B} p (k : unit → M B) s :
  bind (set_root p) k s = k tt (mkRB (arena s) (next s) p (len s)).
Proof. done. Qed.

Lemma run_get_len {B} (k : Z → M B) s : bind get_len k s = k (len s) s.
Proof. done. Qed.

Lemma run_set_len {B} n (k : unit → M B) s :
  bind (set_len n) k s = k tt (mkRB (arena s) (next s) (root s) n).
Proof. done. Qed.

(** The same steps at the end of a computation. *)
Lemma end_field {A} e a (f : node → A) s :
  field e (Some a) f s =
  match arena s !! a with Some n => Ok (f n, s) | None => Panic (Dangling a) end.
Proof. unfold field, load, ret, bind. simpl. by destruct (arena s !! a). Qed.

Lemma end_assign e a g s :
  assign e (Some a) g s =
  match arena s !! a with
  | Some n => Ok (tt, mkRB (<[a := g n]> (arena s)) (next s) (root s) (len s))
  | None => Panic (Dangling a)
  end.
Proof. done. Qed.

Lemma end_ret {A} (x : A) s : ret x s = Ok (x, s).
Proof. done. Qed.

Lemma end_get_root s : get_root s = Ok (root s, s).
Proof. done. Qed.

Lemma end_set_root p s : set_root p s = Ok (tt, mkRB (arena s) (next s) p (len s)).
Proof. done. Qed.

Ltac lookup_tac :=
  repeat first
    [ rewrite lookup_insert_eq
    | rewrite lookup_insert_ne by solve_ne
    | match goal with
      | H : ?h !! ?a = Some _ |- context [?h !! ?a] => rewrite H
      end ].

Ltac decide_tac :=
  repeat first
    [ rewrite decide_True by (first [reflexivity | assumption | solve_ne | congruence])
    | rewrite decide_False by
        (first [solve_ne | congruence
               | let H := fresh in intros H; apply H; reflexivity])
    | rewrite bool_decide_eq_true_2 by reflexivity
    | rewrite bool_decide_eq_false_2 by discriminate ].

Ltac mcbn :=
  unfold with_left, with_right, with_parent, with_clr;
  cbn [arena root next len left right parent clr value
       with_left with_right with_parent with_clr fst snd root_of color_of_tree
       plug plug1 ctx_parent frame_addr].

Ltac mstep :=
  first
    [ rewrite run_assoc
    | rewrite run_ret
    | rewrite run_field
    | rewrite run_field_nil
    | rewrite run_assign
    | rewrite run_assign_nil
    | rewrite run_color
    | rewrite run_color_nil
    | rewrite run_get_root
    | rewrite run_set_root
    | rewrite run_get_len
    | rewrite run_set_len
    | rewrite end_field
    | rewrite end_assign
    | rewrite end_ret
    | rewrite end_get_root
    | rewrite end_set_root ];
  mcbn; lookup_tac; decide_tac; mcbn.

Ltac mrun := mcbn; decide_tac; repeat mstep.

(** [open_rep H]: turn [H : rep h (plug ctx t) None] into the cells it
    describes. *)
Ltac open_rep H :=
  try apply rep_plug in H; cbn [rep rep_ctx plug plug1 ctx_parent frame_addr root_of] in H;
  destruct_and? H.

Ltac solve_rep :=
  repeat first
    [ exact I
    | assumption
    | match goal with
      | |- _ ∧ _ => split
      | |- rep _ (plug _ _) None => apply rep_plug
      | |- rep (<[_ := _]> _) ?t _ => is_var t; apply rep_insert; [solve_nin|]
      | |- rep_ctx (<[_ := _]> _) ?c _ => is_var c; apply rep_ctx_frame; [solve_nin|solve_nin|]
      | |- rep _ (T _ _ _ _ _) _ => cbn [rep root_of]
      | |- rep _ E _ => exact I
      | |- rep_ctx _ (_ :: _) _ => cbn [rep_ctx root_of ctx_parent frame_addr]
      | |- rep_ctx _ [] _ => exact I
      | |- _ !! _ = Some _ => lookup_tac; reflexivity
      end ].

(** ** Rotations on a tree of the arena *)

Lemma inorder_rot ctx a c l v b cb bl bv br :
  inorder (plug ctx (T b cb (T a c l v bl) bv br)) = inorder (plug ctx (T a c l v (T b cb bl bv br))).
Proof. rewrite !inorder_plug. simpl. by repeat (rewrite <- ?app_assoc; simpl). Qed.

Lemma root_of_plug_cons f ctx t t' : root_of (plug (f :: ctx) t) = root_of (plug (f :: ctx) t').
Proof. rewrite !root_of_plug. by destruct (last (f :: ctx)) eqn:Hl; [|apply last_None in Hl]. Qed.

Lemma root_of_plug_T ctx a c l v r c' l' v' r' :
  root_of (plug ctx (T a c l v r)) = root_of (plug ctx (T a c' l' v' r')).
Proof. rewrite !root_of_plug. by destruct (last ctx). Qed.

Lemma ok_eq {A} (x : A) h h' nx rt rt' ln :
  h = h' → rt = rt' → Ok (x, mkRB h nx rt ln) = Ok (x, mkRB h' nx rt' ln).
Proof. by intros -> ->. Qed.

Ltac finish_eq :=
  apply ok_eq; [reflexivity | first [reflexivity | apply root_of_plug_T]].

Lemma rotateLeft_spec h nx rt ln ctx a c l v b cb bl bv br :
  rep h (plug ctx (T a c l v (T b cb bl bv br))) None →
  NoDup (addrs (plug ctx (T a c l v (T b cb bl bv br)))) →
  rt = root_of (plug ctx (T a c l v (T b cb bl bv br))) →
  ∃ h', rotateLeft (Some a) (mkRB h nx rt ln)
        = Ok (tt, mkRB h' nx (root_of (plug ctx (T b cb (T a c l v bl) bv br))) ln)
      ∧ rep h' (plug ctx (T b cb (T a c l v bl) bv br)) None.
Proof.
  intros Hrep Hnd ->.
  destruct ctx as [|[pa pc pv pr|pa pc pl pv] ctx]; destruct bl as [|x xc xl xv xr];
  open_rep Hrep; open_nodup Hnd; eexists;
  (split; [unfold rotateLeft, replace; mrun; finish_eq|solve_rep]).
Qed.

Lemma inorder_rot_right ctx a c v r b cb bl bv br :
  inorder (plug ctx (T b cb bl bv (T a c br v r))) = inorder (plug ctx (T a c (T b cb bl bv br) v r)).
Proof. rewrite !inorder_plug. simpl. by repeat (rewrite <- ?app_assoc; simpl). Qed.

Lemma rotateRight_spec h nx rt ln ctx a c r v b cb bl bv br :
  rep h (plug ctx (T a c (T b cb bl bv br) v r)) None →
  NoDup (addrs (plug ctx (T a c (T b cb bl bv br) v r))) →
  rt = root_of (plug ctx (T a c (T b cb bl bv br) v r)) →
  ∃ h', rotateRight (Some a) (mkRB h nx rt ln)
        = Ok (tt, mkRB h' nx (root_of (plug ctx (T b cb bl bv (T a c br v r)))) ln)
      ∧ rep h' (plug ctx (T b cb bl bv (T a c br v r))) None.
Proof.
  intros Hrep Hnd ->.
  destruct ctx as [|[pa pc pv pr|pa pc pl pv] ctx]; destruct br as [|x xc xl xv xr];
  open_rep Hrep; open_nodup Hnd; eexists;
  (split; [unfold rotateRight, replace; mrun; finish_eq|solve_rep]).
Qed.

(** The rotations of the earlier version agree with the current ones
    whenever the rotated node has a parent or the promoted child is already
    black. *)
Ltac heap_eq :=
  apply ok_eq; [|reflexivity];
  apply map_eq; intros ?; rewrite !lookup_insert; repeat case_decide; congruence.

Lemma prev_rotateLeft_eq h nx rt ln ctx a c l v b cb bl bv br :
  rep h (plug ctx (T a c l v (T b cb bl bv br))) None →
  NoDup (addrs (plug ctx (T a c l v (T b cb bl bv br)))) →
  ctx ≠ [] ∨ cb = black →
  Prev.rotateLeft (Some a) (mkRB h nx rt ln) = rotateLeft (Some a) (mkRB h nx rt ln).
Proof.
  intros Hrep Hnd Hc.
  destruct ctx as [|[pa pc pv pr|pa pc pl pv] ctx]; destruct bl as [|x xc xl xv xr];
  open_rep Hrep; open_nodup Hnd;
  try (destruct Hc as [Hc|Hc]; [done|subst cb]);
  unfold Prev.rotateLeft, rotateLeft, replace; mrun; heap_eq.
Qed.

Lemma prev_rotateRight_eq h nx rt ln ctx a c r v b cb bl bv br :
  rep h (plug ctx (T a c (T b cb bl bv br) v r)) None →
  NoDup (addrs (plug ctx (T a c (T b cb bl bv br) v r))) →
  ctx ≠ [] ∨ cb = black →
  Prev.rotateRight (Some a) (mkRB h nx rt ln) = rotateRight (Some a) (mkRB h nx rt ln).
Proof.
  intros Hrep Hnd Hc.
  destruct ctx as [|[pa pc pv pr|pa pc pl pv] ctx]; destruct br as [|x xc xl xv xr];
  open_rep Hrep; open_nodup Hnd;
  try (destruct Hc as [Hc|Hc]; [done|subst cb]);
  unfold Prev.rotateRight, rotateRight, replace; mrun; heap_eq.
Qed.

(** ** Insert-fixup *)

Definition frame_color (f : frame) : color :=
  match f with FL _ c _ _ | FR _ c _ _ => c end.

(** The root of the whole tree is black unless the hole itself is at the
    root. *)
Definition ctx_root_black (ctx : list frame) : Prop :=
  match last ctx with Some f => frame_color f = black | None => True end.

(** Two runs agree and end in a state satisfying [P]. *)
Definition both {A} (r1 r2 : res (A * RBTree)) (P : A → RBTree → Prop) : Prop :=
  r1 = r2 ∧ match r2 with Ok (a, s') => P a s' | _ => False end.

Ltac solve_nodup := addrs_norm; nodup_close.

Ltac solve_root :=
  cbn [plug plug1]; first [reflexivity | apply root_of_plug_T].


(** The outcome of a run with [fuel]: a result satisfying [P], or a
    timeout that can only happen below [bound]; never a panic. *)
Definition outcome {A} (r : res (A * RBTree)) (fuel bound : nat)
    (P : A → RBTree → Prop) : Prop :=
  match r with
  | Ok (a, s') => P a s'
  | Panic _ => False
  | Timeout => (fuel < bound)%nat
  end.

Lemma NoDup_addrs_eq t t' : inorder t' = inorder t → NoDup (addrs t) → NoDup (addrs t').
Proof. unfold addrs. by intros ->. Qed.

Lemma ctx_root_black_tail f g ctx : ctx_root_black (f :: g :: ctx) → ctx_root_black ctx.
Proof.
  unfold ctx_root_black. destruct ctx as [|f' ctx]; [done|].
  by rewrite !last_cons_cons.
Qed.

Ltac solve_inorder :=
  rewrite !inorder_plug; cbn [inorder ctx_before ctx_after];
  repeat (rewrite <- ?app_assoc, ?app_nil_r; cbn [app]); reflexivity.

Section FixInsertProof.
Variables rotL rotR : ptr → M unit.
Hypothesis rotL_eq : ∀ h nx rt ln ctx a c l v b cb bl bv br,
  rep h (plug ctx (T a c l v (T b cb bl bv br))) None →
  NoDup (addrs (plug ctx (T a c l v (T b cb bl bv br)))) →
  ctx ≠ [] ∨ cb = black →
  rotL (Some a) (mkRB h nx rt ln) = rotateLeft (Some a) (mkRB h nx rt ln).
Hypothesis rotR_eq : ∀ h nx rt ln ctx a c r v b cb bl bv br,
  rep h (plug ctx (T a c (T b cb bl bv br) v r)) None →
  NoDup (addrs (plug ctx (T a c (T b cb bl bv br) v r))) →
  ctx ≠ [] ∨ cb = black →
  rotR (Some a) (mkRB h nx rt ln) = rotateRight (Some a) (mkRB h nx rt ln).

(** Run a call [rotL (Some a)] / [rotateLeft (Some a)] found at the head of
    both computations. *)
Ltac call_rotL ctx1 a c l v b cb bl bv br h1 Heq Hrep :=
  rewrite !run_bind;
  match goal with
  | |- context [rotateLeft (Some a) (mkRB ?H ?nx ?rt ?ln)] =>
      rewrite (rotL_eq H nx rt ln ctx1 a c l v b cb bl bv br);
      [ destruct (rotateLeft_spec H nx rt ln ctx1 a c l v b cb bl bv br)
          as (h1 & Heq & Hrep);
        [ | | | rewrite Heq ]
      | | | ]
  end.

Ltac call_rotR ctx1 a c r v b cb bl bv br h1 Heq Hrep :=
  rewrite !run_bind;
  match goal with
  | |- context [rotateRight (Some a) (mkRB ?H ?nx ?rt ?ln)] =>
      rewrite (rotR_eq H nx rt ln ctx1 a c r v b cb bl bv br);
      [ destruct (rotateRight_spec H nx rt ln ctx1 a c r v b cb bl bv br)
          as (h1 & Heq & Hrep);
        [ | | | rewrite Heq ]
      | | | ]
  end.

Ltac fin ctx' a' l' v' r' Hrep :=
  mrun; split; [reflexivity|];
  exists ctx', a', l', v', r'; cbn [arena];
  split_and!;
  [ reflexivity
  | f_equal; solve_root
  | first [exact Hrep | solve_rep]
  | solve_inorder
  | first [left; reflexivity | right; eexists; split; reflexivity] ].

Definition fix_post (nx : addr) (ln : Z) (ctx0 : list frame) (t0 : tree)
    (ctx : list frame) (nd' : ptr) (s' : RBTree) : Prop :=
  ∃ ctx' a' l' v' r',
    nd' = Some a' ∧
    s' = mkRB (arena s') nx (root_of (plug ctx' (T a' red l' v' r'))) ln ∧
    rep (arena s') (plug ctx' (T a' red l' v' r')) None ∧
    inorder (plug ctx' (T a' red l' v' r')) = inorder (plug ctx0 t0) ∧
    (ctx' = ctx ∨ ∃ f, ctx' = f :: ctx ∧ frame_color f = black).

Lemma fixInsert_body_spec h nx rt ln fp fg ctx a l v r :
  rep h (plug (fp :: fg :: ctx) (T a red l v r)) None →
  NoDup (addrs (plug (fp :: fg :: ctx) (T a red l v r))) →
  rt = root_of (plug (fp :: fg :: ctx) (T a red l v r)) →
  frame_color fp = red →
  both (fixInsert_body rotL rotR (Some a) (mkRB h nx rt ln))
       (fixInsert_body rotateLeft rotateRight (Some a) (mkRB h nx rt ln))
       (fix_post nx ln (fp :: fg :: ctx) (T a red l v r) ctx).
Proof.
  intros Hrep Hnd -> Hred.
  destruct fg as [g gc gv u|g gc u gv];
    destruct fp as [p pc pv pr|p pc pl pv]; simpl in Hred; subst pc;
    destruct u as [|ua [] ul uv ur]; open_nodup Hnd;
    open_rep Hrep; unfold both, fixInsert_body; mrun.
  (* p left of g, nd left of p *)
  - call_rotR ctx g red E gv p black (T a red l v r) pv pr h1 Heq1 Hrep1;
      [solve_rep|solve_nodup|solve_root| |solve_rep|solve_nodup|by right].
    fin (FL p black pv (T g red pr gv E) :: ctx) a l v r Hrep1.
  - call_rotR ctx g red (T ua black ul uv ur) gv p black (T a red l v r) pv pr h1 Heq1 Hrep1;
      [solve_rep|solve_nodup|solve_root| |solve_rep|solve_nodup|by right].
    fin (FL p black pv (T g red pr gv (T ua black ul uv ur)) :: ctx) a l v r Hrep1.
  - fin ctx g (T p black (T a red l v r) pv pr) gv (T ua black ul uv ur) I.
  (* p left of g, nd right of p *)
  - call_rotL (FL g gc gv E :: ctx) p red pl pv a red l v r h1 Heq1 Hrep1;
      [solve_rep|solve_nodup|solve_root| |solve_rep|solve_nodup|by left].
    open_rep Hrep1. mrun.
    call_rotR ctx g red E gv a black (T p red pl pv l) v r h2 Heq2 Hrep2;
      [solve_rep|solve_nodup|solve_root| |solve_rep|solve_nodup|by right].
    fin (FL a black v (T g red r gv E) :: ctx) p pl pv l Hrep2.
  - call_rotL (FL g gc gv (T ua black ul uv ur) :: ctx) p red pl pv a red l v r h1 Heq1 Hrep1;
      [solve_rep|solve_nodup|solve_root| |solve_rep|solve_nodup|by left].
    open_rep Hrep1. mrun.
    call_rotR ctx g red (T ua black ul uv ur) gv a black (T p red pl pv l) v r h2 Heq2 Hrep2;
      [solve_rep|solve_nodup|solve_root| |solve_rep|solve_nodup|by right].
    fin (FL a black v (T g red r gv (T ua black ul uv ur)) :: ctx) p pl pv l Hrep2.
  - fin ctx g (T p black pl pv (T a red l v r)) gv (T ua black ul uv ur) I.
  (* p right of g, nd left of p *)
  - call_rotR (FR g gc E gv :: ctx) p red pr pv a red l v r h1 Heq1 Hrep1;
      [solve_rep|solve_nodup|solve_root| |solve_rep|solve_nodup|by left].
    open_rep Hrep1. mrun.
    call_rotL ctx g red E gv a black l v (T p red r pv pr) h2 Heq2 Hrep2;
      [solve_rep|solve_nodup|solve_root| |solve_rep|solve_nodup|by right].
    fin (FR a black (T g red E gv l) v :: ctx) p r pv pr Hrep2.
  - call_rotR (FR g gc (T ua black ul uv ur) gv :: ctx) p red pr pv a red l v r h1 Heq1 Hrep1;
      [solve_rep|solve_nodup|solve_root| |solve_rep|solve_nodup|by left].
    open_rep Hrep1. mrun.
    call_rotL ctx g red (T ua black ul uv ur) gv a black l v (T p red r pv pr) h2 Heq2 Hrep2;
      [solve_rep|solve_nodup|solve_root| |solve_rep|solve_nodup|by right].
    fin (FR a black (T g red (T ua black ul uv ur) gv l) v :: ctx) p r pv pr Hrep2.
  - fin ctx g (T ua black ul uv ur) gv (T p black (T a red l v r) pv pr) I.
  (* p right of g, nd right of p *)
  - call_rotL ctx g red E gv p black pl pv (T a red l v r) h1 Heq1 Hrep1;
      [solve_rep|solve_nodup|solve_root| |solve_rep|solve_nodup|by right].
    fin (FR p black (T g red E gv pl) pv :: ctx) a l v r Hrep1.
  - call_rotL ctx g red (T ua black ul uv ur) gv p black pl pv (T a red l v r) h1 Heq1 Hrep1;
      [solve_rep|solve_nodup|solve_root| |solve_rep|solve_nodup|by right].
    fin (FR p black (T g red (T ua black ul uv ur) gv pl) pv :: ctx) a l v r Hrep1.
  - fin ctx g (T ua black ul uv ur) gv (T p black pl pv (T a red l v r)) I.
Qed.

Definition loop_post (nx : addr) (ln : Z) (t0 : tree) (_ : unit) (s' : RBTree) : Prop :=
  ∃ t', root_of t' ≠ None ∧
    s' = mkRB (arena s') nx (root_of t') ln ∧
    rep (arena s') t' None ∧ inorder t' = inorder t0.

Lemma fixInsert_loop_spec n : ∀ ctx a l v r h nx rt ln fuel,
  (length ctx ≤ n)%nat →
  rep h (plug ctx (T a red l v r)) None →
  NoDup (addrs (plug ctx (T a red l v r))) →
  rt = root_of (plug ctx (T a red l v r)) →
  (ctx_root_black ctx ∨ ∃ f rest, ctx = f :: rest ∧ frame_color f = black) →
  fixInsert_loop rotL rotR fuel (Some a) (mkRB h nx rt ln)
  = fixInsert_loop rotateLeft rotateRight fuel (Some a) (mkRB h nx rt ln)
  ∧ outcome (fixInsert_loop rotateLeft rotateRight fuel (Some a) (mkRB h nx rt ln))
      fuel (S (length ctx)) (loop_post nx ln (plug ctx (T a red l v r))).
Proof.
  induction n as [n IH] using lt_wf_ind.
  intros ctx a l v r h nx rt ln fuel Hn Hrep Hnd -> Hc.
  assert (Hdone : ∀ h', rep h' (plug ctx (T a red l v r)) None →
    loop_post nx ln (plug ctx (T a red l v r)) tt
      (mkRB h' nx (root_of (plug ctx (T a red l v r))) ln)).
  { intros h' Hr. exists (plug ctx (T a red l v r)). split_and!; [|done..].
    rewrite root_of_plug. by destruct (last ctx). }
  destruct ctx as [|fp ctx].
  { pose proof (Hdone _ Hrep). open_rep Hrep.
    destruct fuel; unfold outcome; cbn [fixInsert_loop]; mrun; done. }
  destruct (decide (frame_color fp = black)) as [Hb|Hr].
  { pose proof (Hdone _ Hrep).
    destruct fp as [p pc pv pr|p pc pl pv]; simpl in Hb; subst pc; open_rep Hrep;
      destruct fuel; unfold outcome; cbn [fixInsert_loop]; mrun; done. }
  assert (frame_color fp = red) as Hred by (by destruct (frame_color fp)).
  destruct Hc as [Hc|(f & rest & [= <- <-] & ?)]; [|done].
  destruct ctx as [|fg ctx].
  { unfold ctx_root_black in Hc. simpl in Hc. congruence. }
  destruct fuel as [|fuel].
  { clear IH. destruct fp as [p pc pv pr|p pc pl pv]; simpl in Hred; subst pc; open_rep Hrep;
      unfold outcome; cbn [fixInsert_loop]; mrun; (split; [done|simpl; lia]). }
  destruct (fixInsert_body_spec h nx _ ln fp fg ctx a l v r Hrep Hnd eq_refl Hred)
    as [Hbeq Hbody].
  assert (Hloop : ∀ rl rr, fixInsert_loop rl rr (S fuel) (Some a)
      (mkRB h nx (root_of (plug (fp :: fg :: ctx) (T a red l v r))) ln) =
      bind (fixInsert_body rl rr (Some a)) (fixInsert_loop rl rr fuel)
        (mkRB h nx (root_of (plug (fp :: fg :: ctx) (T a red l v r))) ln)).
  { intros rl rr.
    destruct fp as [p pc pv pr|p pc pl pv]; simpl in Hred; subst pc; open_rep Hrep;
      cbn [fixInsert_loop]; mrun; done. }
  rewrite !Hloop, !run_bind, Hbeq.
  destruct (fixInsert_body rotateLeft rotateRight (Some a) _) as [[nd' s']| |]; [|done..].
  destruct Hbody as (ctx' & a' & l' & v' & r' & -> & Hs' & Hrep' & Hin & Hctx').
  rewrite Hs'.
  assert (length ctx' < S (S (length ctx)))%nat as Hlen.
  { destruct Hctx' as [->|(f & -> & _)]; simpl; lia. }
  assert (ctx_root_black ctx' ∨ ∃ f rest, ctx' = f :: rest ∧ frame_color f = black) as Hc'.
  { destruct Hctx' as [->|(f & -> & ?)]; [left|right; eauto].
    by apply ctx_root_black_tail in Hc. }
  destruct (IH (length ctx') ltac:(simpl in Hn; lia) ctx' a' l' v' r' (arena s') nx _ ln fuel
              ltac:(lia) Hrep' (NoDup_addrs_eq _ _ Hin Hnd) eq_refl Hc') as [Heq Hout].
  split; [exact Heq|].
  destruct (fixInsert_loop rotateLeft rotateRight fuel (Some a') _) as [[[] s'']| |];
    simpl in *; [|done|lia].
  destruct Hout as (t' & ? & ? & ? & Hin'). exists t'. split_and!; [done..|congruence].
Qed.
End FixInsertProof.

(** ** Insertion *)

Definition size (t : tree) : nat := length (inorder t).

Lemma run_alloc {B} n (k : ptr → M B) s :
  bind (alloc n) k s =
  k (Some (next s)) (mkRB (<[next s := n]> (arena s)) (Pos.succ (next s)) (root s) (len s)).
Proof. done. Qed.

(** The search path of [Insert]: the context of the empty position at which
    the descent ends. *)
Fixpoint descend (val : Z) (t : tree) (ctx : list frame) : list frame :=
  match t with
  | E => ctx
  | T a c l v r =>
      if val <=? v then descend val l (FL a c v r :: ctx)
      else descend val r (FR a c l v :: ctx)
  end.

Definition frame_ok (val : Z) (f : frame) : Prop :=
  match f with FL _ _ v _ => val ≤ v | FR _ _ _ v => v < val end.

Lemma plug_descend val t ctx : plug (descend val t ctx) E = plug ctx t.
Proof.
  revert ctx. induction t as [|a c l IHl v r IHr]; intros ctx; [done|].
  simpl. destruct (val <=? v); [by rewrite IHl|by rewrite IHr].
Qed.

Lemma descend_ok val t ctx :
  Forall (frame_ok val) ctx → Forall (frame_ok val) (descend val t ctx).
Proof.
  revert ctx. induction t as [|a c l IHl v r IHr]; intros ctx Hctx; [done|].
  simpl. destruct (val <=? v) eqn:Hv.
  - apply IHl. constructor; [|done]. simpl. lia.
  - apply IHr. constructor; [|done]. simpl. lia.
Qed.

Lemma descend_nil val t ctx : descend val t ctx = [] → t = E ∧ ctx = [].
Proof.
  revert ctx. induction t as [|a c l IHl v r IHr]; intros ctx; [done|].
  simpl. destruct (val <=? v); intros H; [apply IHl in H|apply IHr in H]; naive_solver.
Qed.

Lemma insert_descend_spec val t : ∀ ctx h nx rt ln fuel,
  rep h (plug ctx t) None →
  outcome (insert_descend fuel val (root_of t) (ctx_parent ctx) (mkRB h nx rt ln))
    fuel (S (size t))
    (λ p s', p = ctx_parent (descend val t ctx) ∧ s' = mkRB h nx rt ln).
Proof.
  induction t as [|a c l IHl v r IHr]; intros ctx h nx rt ln fuel Hrep.
  { by destruct fuel. }
  destruct fuel as [|fuel]; [simpl; lia|].
  pose proof Hrep as Hrep'. open_rep Hrep'.
  cbn [insert_descend root_of descend]. mrun.
  destruct (val <=? v).
  - mrun. specialize (IHl (FL a c v r :: ctx) h nx rt ln fuel Hrep).
    cbn [ctx_parent frame_addr] in IHl.
    destruct (insert_descend fuel val (root_of l) (Some a) _) as [[]| |]; simpl in *; [done..|].
    unfold size in *. simpl. rewrite length_app. simpl. lia.
  - mrun. specialize (IHr (FR a c l v :: ctx) h nx rt ln fuel Hrep).
    cbn [ctx_parent frame_addr] in IHr.
    destruct (insert_descend fuel val (root_of r) (Some a) _) as [[]| |]; simpl in *; [done..|].
    unfold size in *. simpl. rewrite length_app. simpl. lia.
Qed.

(** Sortedness along the search path. *)
Lemma path_bounds val ctx :
  Forall (frame_ok val) ctx →
  StronglySorted Z.le ((ctx_before ctx).*2 ++ (ctx_after ctx).*2) →
  Forall (λ x, x ≤ val) (ctx_before ctx).*2 ∧ Forall (λ x, val ≤ x) (ctx_after ctx).*2.
Proof.
  induction ctx as [|[a c v r|a c l v] ctx IH]; intros Hok Hs; [done|..];
    apply Forall_cons in Hok as [Hf Hok]; cbn [frame_ok] in Hf;
    cbn [ctx_before ctx_after] in *; rewrite ?fmap_app, ?fmap_cons, ?fmap_app in *; cbn [snd] in *.
  - apply StronglySorted_app in Hs as (H12 & H1 & H2).
    apply StronglySorted_cons in H2 as [Hv H2].
    rewrite Forall_app in Hv. destruct Hv as [Hvr Hva].
    apply StronglySorted_app in H2 as (Hra & Hr & Ha).
    destruct IH as [IH1 IH2]; [done| |].
    { apply StronglySorted_app. split_and!; [|done..].
      intros x1 x2 ? ?. apply H12; [done|]. set_solver. }
    split; [done|]. constructor; [done|].
    rewrite Forall_app. split; [|done].
    eapply Forall_impl; [exact Hvr|]. simpl. intros; lia.
  - rewrite <- !app_assoc in Hs.
    apply StronglySorted_app in Hs as (H12 & H1 & H2).
    apply StronglySorted_app in H2 as (Hlv & Hl & H2).
    apply StronglySorted_app in H2 as (Hva & _ & H2).
    destruct IH as [IH1 IH2]; [done| |].
    { apply StronglySorted_app. split_and!; [|done..].
      intros x1 x2 ? ?. apply H12; [done|]. set_solver. }
    split; [|done]. rewrite !Forall_app. split_and!; [done| |].
    + apply Forall_forall. intros x Hx.
      assert (x ≤ v) by (apply Hlv; set_solver). lia.
    + constructor; [lia|done].
Qed.

Lemma sorted_insert_mid val (L R : list Z) :
  StronglySorted Z.le (L ++ R) →
  Forall (λ x, x ≤ val) L → Forall (λ x, val ≤ x) R →
  StronglySorted Z.le (L ++ val :: R).
Proof.
  intros Hs HL HR. apply StronglySorted_app in Hs as (H12 & H1 & H2).
  apply StronglySorted_app. split_and!; [|done|].
  - intros x1 x2 Hx1 Hx2. apply elem_of_cons in Hx2 as [->|Hx2].
    + by eapply Forall_forall in HL.
    + by apply H12.
  - by constructor.
Qed.

(** The state invariant: the arena holds a tree [t] that is a binary search
    tree with a black root, [len] counts its nodes, and the allocator is
    ahead of every node. *)
Definition Inv (s : RBTree) (t : tree) : Prop :=
  rep (arena s) t None ∧ NoDup (addrs t) ∧ root s = root_of t
  ∧ len s = Z.of_nat (size t)
  ∧ Forall (λ a, (a < next s)%positive) (addrs t)
  ∧ StronglySorted Z.le (values t) ∧ color_of_tree t = black.

Lemma color_of_plug ctx t :
  color_of_tree (plug ctx t) =
  match last ctx with Some f => frame_color f | None => color_of_tree t end.
Proof.
  revert t. induction ctx as [|f ctx IH]; intros t; [done|].
  simpl plug. rewrite IH. destruct ctx as [|f' ctx]; simpl; [by destruct f|].
  destruct (last (f' :: ctx)) eqn:Hl; [done|]. by apply last_None in Hl.
Qed.

Lemma values_plug ctx t :
  values (plug ctx t) = (ctx_before ctx).*2 ++ values t ++ (ctx_after ctx).*2.
Proof. unfold values. by rewrite inorder_plug, !fmap_app. Qed.

Lemma fresh_nin (nx : addr) (l : list addr) :
  Forall (λ a, (a < nx)%positive) l → nx ∉ l.
Proof.
  intros Hf Hin. eapply Forall_forall in Hf; [|exact Hin]. unfold addr in *. lia.
Qed.

Lemma nodup_attach ctx nx c v :
  NoDup (addrs (plug ctx E)) → nx ∉ addrs (plug ctx E) →
  NoDup (addrs (plug ctx (T nx c E v E))).
Proof. intros Hnd Hnx. open_nodup Hnd. open_nodup Hnx. solve_nodup. Qed.

Lemma root_black_ctx ctx t : color_of_tree (plug ctx t) = black → ctx ≠ [] → ctx_root_black ctx.
Proof.
  rewrite color_of_plug. unfold ctx_root_black. intros H Hne.
  destruct (last ctx) eqn:Hl; [done|]. by apply last_None in Hl.
Qed.

Lemma ctx_length_le_size ctx t : (length ctx ≤ size (plug ctx t))%nat.
Proof.
  unfold size. rewrite inorder_plug, !length_app.
  assert (length ctx ≤ length (ctx_before ctx) + length (ctx_after ctx))%nat; [|lia].
  induction ctx as [|[a c v r|a c l v] ctx IH]; simpl; rewrite ?length_app; simpl; lia.
Qed.

Lemma Inv_after_insert h3 nx ctx val t3 :
  NoDup (addrs (plug ctx E)) →
  Forall (λ a, (a < nx)%positive) (addrs (plug ctx E)) →
  StronglySorted Z.le (values (plug ctx E)) →
  Forall (frame_ok val) ctx →
  rep h3 t3 None →
  inorder t3 = inorder (plug ctx (T nx red E val E)) →
  color_of_tree t3 = black →
  Inv (mkRB h3 (Pos.succ nx) (root_of t3) (Z.of_nat (size (plug ctx E)) + 1)) t3
  ∧ values t3 ≡ₚ val :: values (plug ctx E).
Proof.
  intros Hnd Hfresh Hsort Hok Hrep Hin Hblack.
  pose proof (fresh_nin _ _ Hfresh) as Hnx.
  assert (Hv : values t3 = (ctx_before ctx).*2 ++ val :: (ctx_after ctx).*2).
  { unfold values. rewrite Hin, inorder_plug, !fmap_app. done. }
  assert (Ha : addrs t3 = (ctx_before ctx).*1 ++ nx :: (ctx_after ctx).*1).
  { unfold addrs. rewrite Hin, inorder_plug, !fmap_app. done. }
  rewrite values_plug in Hsort. unfold values in Hsort. simpl in Hsort.
  split; [unfold Inv; cbn [arena root len next]; split_and!|]; try done.
  - eapply NoDup_addrs_eq; [exact Hin|]. by apply nodup_attach.
  - unfold size. rewrite Hin, !inorder_plug. cbn [inorder app]. rewrite !length_app. simpl. lia.
  - rewrite Ha. unfold addrs in Hfresh. rewrite inorder_plug, !fmap_app in Hfresh.
    simpl in Hfresh. apply Forall_app in Hfresh as [H1 H2].
    apply Forall_app. split; [|constructor].
    + eapply Forall_impl; [exact H1|]. simpl. intros. unfold addr in *. lia.
    + unfold addr in *. lia.
    + eapply Forall_impl; [exact H2|]. simpl. intros. unfold addr in *. lia.
  - rewrite Hv. destruct (path_bounds val ctx Hok Hsort). by apply sorted_insert_mid.
  - rewrite Hv, values_plug. unfold values. simpl. by rewrite <- Permutation_middle.
Qed.

(** The terminal step of both fixups: [rb.root.clr = black]. *)
Lemma root_black_spec s3 nx ln t0 :
  (∃ t', root_of t' ≠ None ∧ s3 = mkRB (arena s3) nx (root_of t') ln
         ∧ rep (arena s3) t' None ∧ inorder t' = inorder t0) →
  NoDup (addrs t0) →
  ∃ t3 h3,
    (r <- get_root;; assign "rb.root" r (with_clr black)) s3
      = Ok (tt, mkRB h3 nx (root_of t3) ln)
    ∧ rep h3 t3 None ∧ inorder t3 = inorder t0 ∧ color_of_tree t3 = black.
Proof.
  intros (t' & Hne & -> & Hrep & Hin) Hnd. cbn [arena] in *.
  destruct t' as [|ra rc rl rv rr]; [done|].
  apply (NoDup_addrs_eq _ _ Hin) in Hnd. open_nodup Hnd. open_rep Hrep.
  exists (T ra black rl rv rr). eexists. split; [mrun; reflexivity|].
  split_and!; [solve_rep|done|done].
Qed.

Section InsertProof.
Variables rotL rotR : ptr → M unit.
Hypothesis rotL_eq : ∀ h nx rt ln ctx a c l v b cb bl bv br,
  rep h (plug ctx (T a c l v (T b cb bl bv br))) None →
  NoDup (addrs (plug ctx (T a c l v (T b cb bl bv br)))) →
  ctx ≠ [] ∨ cb = black →
  rotL (Some a) (mkRB h nx rt ln) = rotateLeft (Some a) (mkRB h nx rt ln).
Hypothesis rotR_eq : ∀ h nx rt ln ctx a c r v b cb bl bv br,
  rep h (plug ctx (T a c (T b cb bl bv br) v r)) None →
  NoDup (addrs (plug ctx (T a c (T b cb bl bv br) v r))) →
  ctx ≠ [] ∨ cb = black →
  rotR (Some a) (mkRB h nx rt ln) = rotateRight (Some a) (mkRB h nx rt ln).

Lemma Insert_over_spec s t val fuel :
  Inv s t →
  Insert_over rotL rotR fuel val s = Insert fuel val s
  ∧ outcome (Insert fuel val s) fuel (S (size t))
      (λ _ s', ∃ t', Inv s' t' ∧ values t' ≡ₚ val :: values t).
Proof.
  destruct s as [h nx rt ln]. unfold Inv. cbn [arena root len next].
  intros (Hrep & Hnd & -> & -> & Hfresh & Hsort & Hblack).
  unfold Insert, Insert_over. rewrite !run_get_root. cbn [root]. rewrite !run_bind.
  pose proof (insert_descend_spec val t [] h nx (root_of t) (Z.of_nat (size t)) fuel Hrep) as Hd.
  cbn [ctx_parent] in Hd.
  destruct (insert_descend fuel val (root_of t) None _) as [[p s1]| |];
    [|done|by split].
  destruct Hd as [-> ->].
  pose proof (plug_descend val t []) as Hplug. cbn [plug] in Hplug.
  pose proof (descend_ok val t [] (Forall_nil_2 _)) as Hok.
  destruct (descend val t []) as [|f ctx] eqn:Hctx.
  - apply descend_nil in Hctx as [-> _]. cbn [ctx_parent].
    rewrite !run_get_len, !run_set_len, !run_alloc. mrun.
    split; [done|]. cbn [outcome].
    exists (T nx black E val E). split; [|done].
    unfold Inv; cbn [arena root len next]. split_and!.
    + solve_rep.
    + repeat constructor. set_solver.
    + done.
    + done.
    + apply Forall_cons. split; [simpl; unfold addr in *; lia|constructor].
    + repeat constructor.
    + done.
  - rewrite <- Hplug in *. clear Hplug Hctx t.
    pose proof (fresh_nin _ _ Hfresh) as Hnx.
    pose proof (nodup_attach _ _ red val Hnd Hnx) as Hnd2.
    pose proof Hnd2 as Hnd3.
    rewrite !run_get_len, !run_set_len, !run_alloc.
    destruct f as [p pc pv pr|p pc pl pv];
      pose proof Hok as Hok';
      apply Forall_cons in Hok' as [Hf _];
      cbn [frame_ok] in Hf; open_rep Hrep; open_nodup Hnd3; mrun.
    + rewrite (proj2 (Z.leb_le val pv) Hf). unfold fixInsert_over. mrun.
      match goal with
      | |- context [bind (fixInsert_loop rotateLeft rotateRight fuel (Some nx)) _ (mkRB ?H ?NX ?RT ?LN)] =>
          destruct (fixInsert_loop_spec rotL rotR rotL_eq rotR_eq _ (FL p pc pv pr :: ctx)
                      nx E val E H NX RT LN fuel (le_n _)) as [Heq Hout];
            [solve_rep | exact Hnd2 | solve_root
            | left; by eapply root_black_ctx | ]
      end.
      rewrite !run_bind, Heq.
      destruct (fixInsert_loop rotateLeft rotateRight fuel (Some nx) _) as [[[] s3]| |];
        cbn [outcome] in *; [|done|].
      2:{ split; [done|]. pose proof (ctx_length_le_size (FL p pc pv pr :: ctx) E).
          cbn [plug plug1 length] in *. lia. }
      destruct (root_black_spec _ _ _ _ Hout Hnd2) as (t3 & h3 & Hfin & Hrep3 & Hin3 & Hb3).
      unfold with_clr in Hfin. rewrite Hfin. split; [done|]. cbn [outcome].
      exists t3. by apply (Inv_after_insert h3 nx (FL p pc pv pr :: ctx) val t3).
    + rewrite (proj2 (Z.leb_gt val pv) Hf). unfold fixInsert_over. mrun.
      match goal with
      | |- context [bind (fixInsert_loop rotateLeft rotateRight fuel (Some nx)) _ (mkRB ?H ?NX ?RT ?LN)] =>
          destruct (fixInsert_loop_spec rotL rotR rotL_eq rotR_eq _ (FR p pc pl pv :: ctx)
                      nx E val E H NX RT LN fuel (le_n _)) as [Heq Hout];
            [solve_rep | exact Hnd2 | solve_root
            | left; by eapply root_black_ctx | ]
      end.
      rewrite !run_bind, Heq.
      destruct (fixInsert_loop rotateLeft rotateRight fuel (Some nx) _) as [[[] s3]| |];
        cbn [outcome] in *; [|done|].
      2:{ split; [done|]. pose proof (ctx_length_le_size (FR p pc pl pv :: ctx) E).
          cbn [plug plug1 length] in *. lia. }
      destruct (root_black_spec _ _ _ _ Hout Hnd2) as (t3 & h3 & Hfin & Hrep3 & Hin3 & Hb3).
      unfold with_clr in Hfin. rewrite Hfin. split; [done|]. cbn [outcome].
      exists t3. by apply (Inv_after_insert h3 nx (FR p pc pl pv :: ctx) val t3).
Qed.
End InsertProof.

Lemma Insert_spec s t val fuel :
  Inv s t →
  outcome (Insert fuel val s) fuel (S (size t))
    (λ _ s', ∃ t', Inv s' t' ∧ values t' ≡ₚ val :: values t).
Proof.
  intros HI.
  by destruct (Insert_over_spec rotateLeft rotateRight
                 ltac:(done) ltac:(done) s t val fuel HI).
Qed.

Lemma Prev_Insert_eq s t val fuel :
  Inv s t → Prev.Insert fuel val s = Insert fuel val s.
Proof.
  intros HI.
  refine (proj1 (Insert_over_spec Prev.rotateLeft Prev.rotateRight _ _ s t val fuel HI)).
  - intros. by eapply prev_rotateLeft_eq.
  - intros. by eapply prev_rotateRight_eq.
Qed.

(** ** Search *)

Lemma size_T a c l v r : size (T a c l v r) = S (size l + size r).
Proof. unfold size. simpl. rewrite length_app. simpl. lia. Qed.

Lemma values_T a c l v r : values (T a c l v r) = values l ++ v :: values r.
Proof. unfold values. simpl. by rewrite fmap_app. Qed.

Lemma findNode_from_spec val t : ∀ ctx h nx rt ln fuel,
  rep h (plug ctx t) None →
  StronglySorted Z.le (values t) →
  outcome (findNode_from fuel val (root_of t) (mkRB h nx rt ln)) fuel (S (size t))
    (λ nd s', s' = mkRB h nx rt ln ∧
       match nd with
       | None => val ∉ values t
       | Some a => ∃ ctx' c l r, plug ctx t = plug ctx' (T a c l val r)
       end).
Proof.
  induction t as [|a c l IHl v r IHr]; intros ctx h nx rt ln fuel Hrep Hs.
  { destruct fuel; simpl; (split; [done|]); unfold values; simpl; apply not_elem_of_nil. }
  destruct fuel as [|fuel]; [simpl; lia|].
  pose proof Hrep as Hrep'. open_rep Hrep'.
  rewrite values_T in Hs. apply StronglySorted_app in Hs as (Hlr & Hsl & Hsr).
  apply StronglySorted_cons in Hsr as [Hvr Hsr].
  cbn [findNode_from root_of]. mrun.
  destruct (v =? val) eqn:Heq.
  { apply Z.eqb_eq in Heq as ->. mrun. simpl. split; [done|]. by exists ctx, c, l, r. }
  apply Z.eqb_neq in Heq.
  destruct (v <? val) eqn:Hlt; mrun.
  - apply Z.ltb_lt in Hlt.
    specialize (IHr (FR a c l v :: ctx) h nx rt ln fuel Hrep Hsr).
    destruct (findNode_from fuel val (root_of r) _) as [[nd s']| |]; simpl in *;
      [|done|rewrite size_T; lia].
    destruct IHr as [-> Hnd]. split; [done|]. destruct nd as [b|]; [done|].
    rewrite values_T, elem_of_app, elem_of_cons. intros [Hin|[->|Hin]]; [|done..].
    specialize (Hlr val v Hin). assert (val ≤ v); [|lia]. apply Hlr. set_solver.
  - apply Z.ltb_ge in Hlt.
    specialize (IHl (FL a c v r :: ctx) h nx rt ln fuel Hrep Hsl).
    destruct (findNode_from fuel val (root_of l) _) as [[nd s']| |]; simpl in *;
      [|done|rewrite size_T; lia].
    destruct IHl as [-> Hnd]. split; [done|]. destruct nd as [b|]; [done|].
    rewrite values_T, elem_of_app, elem_of_cons. intros [Hin|[->|Hin]]; [done|done|].
    eapply Forall_forall in Hvr; [|exact Hin]. lia.
Qed.

Lemma Exists_spec s t val fuel :
  Inv s t →
  outcome (Exists fuel val s) fuel (S (size t))
    (λ b s', s' = s ∧ (b = true ↔ val ∈ values t)).
Proof.
  destruct s as [h nx rt ln]. intros (Hrep & Hnd & Hrt & Hln & Hfresh & Hsort & Hblack).
  cbn [arena root len next] in *. subst rt.
  unfold Exists, findNode. rewrite run_assoc, run_get_root, run_bind. cbn [root].
  pose proof (findNode_from_spec val t [] h nx (root_of t) ln fuel Hrep Hsort) as Hf.
  destruct (findNode_from fuel val (root_of t) _) as [[nd s']| |]; simpl in *; [|done..].
  destruct Hf as [-> Hnd']. split; [done|]. destruct nd as [a|].
  - destruct Hnd' as (ctx' & c & l & r & ->). split; [|done]. intros _.
    rewrite values_plug, values_T. set_solver.
  - split; [done|]. intros Hin. done.
Qed.

(** ** In-order extraction (Morris traversal)

    While a subtree is being traversed, the [right] link of its last node
    does not hold nil but a backlink [k] to the node visited next.
    [trep h t p k] is [rep h t p] with that one link changed. *)

Fixpoint trep (h : gmap positive node) (t : tree) (p k : ptr) : Prop :=
  match t with
  | E => True
  | T a c l v r =>
      h !! a = Some (mkNode (root_of l) (if r is E then k else root_of r) p c v)
      ∧ rep h l (Some a) ∧ trep h r (Some a) k
  end.

(** The pointer at which the traversal of [t] threaded to [k] starts. *)
Definition entry (t : tree) (k : ptr) : ptr :=
  if t is E then k else root_of t.

(** The last node of a non-empty tree [T a _ _ _ r]. *)
Fixpoint rightmost (a : addr) (r : tree) : addr :=
  match r with
  | E => a
  | T b _ _ _ r' => rightmost b r'
  end.

(** Passes through the outer loop spent on [t]. *)
Fixpoint steps (t : tree) : nat :=
  match t with
  | E => 0
  | T _ _ l _ r => ((if l is E then 1 else 2) + steps l + steps r)%nat
  end.

(** [values[i] = x; i++] for each [x] of [xs]. *)
Fixpoint puts (i : nat) (xs : list Z) (vals : list Z) : list Z :=
  match xs with
  | [] => vals
  | x :: xs' => puts (S i) xs' (<[i := x]> vals)
  end.

Lemma puts_app i xs ys vals :
  puts i (xs ++ ys) vals = puts (i + length xs) ys (puts i xs vals).
Proof.
  revert i vals. induction xs as [|x xs IH]; intros i vals; simpl.
  - by rewrite Nat.add_0_r.
  - rewrite IH. f_equal. lia.
Qed.

Lemma puts_length i xs vals : length (puts i xs vals) = length vals.
Proof.
  revert i vals. induction xs as [|x xs IH]; intros i vals; simpl; [done|].
  by rewrite IH, length_insert.
Qed.

Lemma puts_prefix pre xs junk :
  (length xs ≤ length junk)%nat →
  puts (length pre) xs (pre ++ junk) = pre ++ xs ++ drop (length xs) junk.
Proof.
  revert pre junk. induction xs as [|x xs IH]; intros pre junk Hle; simpl in *.
  - by rewrite drop_0.
  - destruct junk as [|j junk]; simpl in *; [lia|].
    rewrite insert_app_r_alt, Nat.sub_diag by lia. simpl.
    specialize (IH (pre ++ [x]) junk ltac:(lia)).
    rewrite length_app, <- app_assoc in IH. simpl in IH.
    rewrite Nat.add_1_r in IH. rewrite IH. by rewrite <- app_assoc.
Qed.

Lemma puts_all xs vals : length xs = length vals → puts 0 xs vals = xs.
Proof.
  intros Hl. pose proof (puts_prefix [] xs vals ltac:(lia)) as H. simpl in H.
  rewrite H, drop_ge by lia. by rewrite app_nil_r.
Qed.

Lemma trep_rep h t p : trep h t p None ↔ rep h t p.
Proof.
  revert p. induction t as [|a c l IHl v r IHr]; intros p; [done|].
  simpl. rewrite IHr. by destruct r.
Qed.

Lemma trep_T h a c l v r p k :
  trep h (T a c l v r) p k ↔
  h !! a = Some (mkNode (root_of l) (if r is E then k else root_of r) p c v)
  ∧ rep h l (Some a) ∧ trep h r (Some a) k.
Proof. done. Qed.

Lemma trep_insert h t p k x n :
  x ∉ addrs t → trep h t p k → trep (<[x := n]> h) t p k.
Proof.
  revert p. induction t as [|a c l IHl v r IHr]; intros p; [done|].
  rewrite addrs_T, nin_app, nin_cons. intros (Hl & Ha & Hr) (H1 & H2 & H3).
  simpl. split_and!.
  - by rewrite lookup_insert_ne.
  - by apply rep_insert.
  - by apply IHr.
Qed.

Lemma rightmost_in a r : rightmost a r = a ∨ rightmost a r ∈ addrs r.
Proof.
  revert a. induction r as [|b c l IHl v r IHr]; intros a; [by left|].
  right. simpl. rewrite addrs_T, elem_of_app, elem_of_cons.
  destruct (IHr b); auto.
Qed.

(** Threading and unthreading the last node. *)
Lemma rightmost_lookup h a c l v r p k :
  trep h (T a c l v r) p k →
  ∃ n, h !! rightmost a r = Some n ∧ right n = k.
Proof.
  revert a c l v p. induction r as [|b cb bl IHl bv br IHr]; intros a c l v p (H1 & H2 & H3).
  - eexists. split; [exact H1|done].
  - simpl. by eapply IHr.
Qed.

Lemma trep_rethread h a c l v r p k k' n :
  trep h (T a c l v r) p k → NoDup (addrs (T a c l v r)) →
  h !! rightmost a r = Some n →
  trep (<[rightmost a r := with_right k' n]> h) (T a c l v r) p k'.
Proof.
  revert a c l v p. induction r as [|b cb bl IHl bv br IHr];
    intros a c l v p (H1 & H2 & H3) Hnd Hn.
  - simpl in *. open_nodup Hnd. rewrite H1 in Hn. injection Hn as <-.
    split_and!; [by rewrite lookup_insert_eq|by apply rep_insert|done].
  - cbn [rightmost] in *.
    assert (rightmost b br ≠ a ∧ rightmost b br ∉ addrs l) as [Hne Hnl].
    { open_nodup Hnd. destruct (rightmost_in b br) as [Heq|Hin].
      - split; [congruence|]. intros Hl. rewrite Heq in Hl. contradiction.
      - split; [intros <-; contradiction|].
        intros Hl.
        match goal with H : disj (addrs l) (addrs br) |- _ => exact (H _ Hl Hin) end. }
    apply trep_T. split_and!.
    + by rewrite lookup_insert_ne.
    + by apply rep_insert.
    + apply IHr; [done| |done]. open_nodup Hnd. solve_nodup.
Qed.

Lemma find_pre_spec h nx rt ln a k r : ∀ b c l v p inner,
  trep h (T b c l v r) p k → a ∉ addrs (T b c l v r) →
  k = None ∨ k = Some a → (size r ≤ inner)%nat →
  find_pre inner (Some a) (Some b) (mkRB h nx rt ln)
  = Ok (Some (rightmost b r), mkRB h nx rt ln).
Proof.
  induction r as [|b' c' l' IHl v' r' IHr]; intros b c l v p inner (H1 & H2 & H3) Hnin Hk Hin.
  - destruct inner; cbn [find_pre]; mrun;
      (rewrite decide_False by (destruct Hk as [->| ->]; naive_solver)); done.
  - rewrite size_T in Hin. destruct inner as [|inner]; [lia|].
    rewrite addrs_T, nin_app, nin_cons in Hnin. destruct Hnin as (_ & _ & Hnin).
    cbn [find_pre]. mrun.
    rewrite decide_True.
    2:{ split; [done|]. intros [= ->]. rewrite addrs_T, nin_app, nin_cons in Hnin. tauto. }
    cbn [rightmost]. eapply IHr; [exact H3|done|done|lia].
Qed.

Lemma run_put {B} vals i v (k : list Z → M B) s :
  (i < length vals)%nat → bind (put vals i v) k s = k (<[i := v]> vals) s.
Proof. intros Hi. unfold put. by rewrite decide_True. Qed.

Lemma morris_spec t : ∀ p k h nx rt ln inner fuel i vals,
  trep h t p k → NoDup (addrs t) → (∀ a, k = Some a → a ∉ addrs t) →
  (size t ≤ inner)%nat → (i + size t ≤ length vals)%nat →
  morris inner (steps t + fuel) (entry t k) i vals (mkRB h nx rt ln)
  = morris inner fuel k (i + size t) (puts i (values t) vals) (mkRB h nx rt ln).
Proof.
  induction t as [|a c l IHl v r IHr]; intros p k h nx rt ln inner fuel i vals Ht Hnd Hk Hin Hi.
  { simpl. by rewrite Nat.add_0_r. }
  rewrite size_T in Hin, Hi. rewrite values_T, size_T.
  pose proof Ht as (H1 & H2 & H3).
  assert (NoDup (addrs r) ∧ NoDup (addrs l) ∧ a ∉ addrs l ∧ a ∉ addrs r) as (Hndr & Hndl & Hal & Har).
  { open_nodup Hnd. done. }
  assert (Hkr : ∀ x, k = Some x → x ∉ addrs r).
  { intros x Hx. specialize (Hk x Hx). rewrite addrs_T, nin_app, nin_cons in Hk. tauto. }
  destruct l as [|b cb bl bv br].
  - cbn [steps entry root_of Nat.add]. cbn [morris]. mrun.
    rewrite run_put by lia. mrun.
    change (if r is E then k else root_of r) with (entry r k).
    rewrite (IHr (Some a) k h nx rt ln inner fuel (S i) (<[i:=v]> vals)); [|done..|lia|rewrite length_insert; lia].
    f_equal. unfold size, values. simpl. lia.
  - set (l := T b cb bl bv br) in *.
    replace (steps (T a c l v r) + fuel)%nat with (S (steps l + S (steps r + fuel)))%nat
      by (simpl; lia).
    pose proof H2 as H2'. apply trep_rep in H2'.
    subst l. destruct (rightmost_lookup _ _ _ _ _ _ _ _ H2') as (n & Hn & Hnr).
    assert (Hsz : (size br ≤ inner)%nat) by (rewrite size_T in Hin; lia).
    assert (Hma : rightmost b br ≠ a).
    { destruct (rightmost_in b br) as [Heq|Hm]; rewrite addrs_T, nin_app, nin_cons in Hal.
      - rewrite Heq. naive_solver.
      - intros Heq. rewrite Heq in Hm. tauto. }
    cbn [entry root_of morris]. mrun. rewrite run_bind.
    rewrite (find_pre_spec h nx rt ln a None br b cb bl bv (Some a) inner);
      [|done|done|by left|done].
    mrun. rewrite Hnr. mrun.
    set (l := T b cb bl bv br) in *.
    set (h1 := <[rightmost b br := _]> h).
    assert (Ht1 : trep h1 l (Some a) (Some a)).
    { by apply (trep_rethread h b cb bl bv br (Some a) None (Some a) n). }
    change (Some b) with (entry l (Some a)).
    rewrite (IHl (Some a) (Some a) h1 nx rt ln inner (S (steps r + fuel)) i vals);
      [|done|done|by intros ? [= <-]|lia|lia].
    (* second visit of [a] *)
    assert (Ha1 : h1 !! a = Some (mkNode (Some b) (if r is E then k else root_of r) p c v)).
    { subst h1. by rewrite lookup_insert_ne. }
    destruct (rightmost_lookup _ _ _ _ _ _ _ _ Ht1) as (n1 & Hn1 & Hnr1).
    cbn [morris]. mrun. rewrite run_bind.
    rewrite (find_pre_spec h1 nx rt ln a (Some a) br b cb bl bv (Some a) inner);
      [|done|done|by right|done].
    mrun. rewrite Hnr1. mrun.
    rewrite run_put by (rewrite puts_length; lia).
    mrun.
    assert (Hh : <[rightmost b br := with_right None n1]> h1 = h).
    { subst h1. rewrite lookup_insert_eq in Hn1. injection Hn1 as <-.
      rewrite insert_insert_eq. apply insert_id. rewrite Hn. f_equal.
      destruct n; simpl in *; by subst. }
    unfold with_right in Hh. rewrite Hh.
    change (if r is E then k else root_of r) with (entry r k).
    assert (Hvl : length (values l) = size l) by (unfold values, size; by rewrite length_fmap).
    assert (Hvr : length (values r) = size r) by (unfold values, size; by rewrite length_fmap).
    rewrite (IHr (Some a) k h nx rt ln inner fuel (S (i + size l))
               (<[(i + size l)%nat:=v]> (puts i (values l) vals)));
      [|done..|lia|rewrite length_insert, puts_length; lia].
    rewrite puts_app, Hvl. cbn [puts]. f_equal. lia.
Qed.

(** Fuel only decides between a timeout and the result. *)
Definition le_res {A} (r r' : res A) : Prop := r = Timeout ∨ r = r'.

Lemma le_res_refl {A} (r : res A) : le_res r r.
Proof. by right. Qed.

Lemma bind_le {A B} (m m' : M A) (k k' : A → M B) s :
  le_res (m s) (m' s) → (∀ a s', le_res (k a s') (k' a s')) →
  le_res (bind m k s) (bind m' k' s).
Proof.
  unfold bind. intros [->| <-] Hk; [by left|].
  destruct (m s) as [[a s']| |]; [apply Hk|by right|by left].
Qed.

Lemma find_pre_mono f f' nd pre s :
  (f ≤ f')%nat → le_res (find_pre f nd pre s) (find_pre f' nd pre s).
Proof.
  revert f' pre s. induction f as [|f IH]; intros f' pre s Hle.
  - destruct f' as [|f']; [apply le_res_refl|].
    cbn [find_pre]. apply bind_le; [apply le_res_refl|]. intros pr s'.
    case_decide; [by left|apply le_res_refl].
  - destruct f' as [|f']; [lia|].
    cbn [find_pre]. apply bind_le; [apply le_res_refl|]. intros pr s'.
    case_decide; [apply IH; lia|apply le_res_refl].
Qed.

Lemma morris_mono inner inner' f f' nd i vals s :
  (inner ≤ inner')%nat → (f ≤ f')%nat →
  le_res (morris inner f nd i vals s) (morris inner' f' nd i vals s).
Proof.
  intros Hin. revert f' nd i vals s. induction f as [|f IH]; intros f' nd i vals s Hle.
  - destruct f' as [|f'], nd as [a|]; try apply le_res_refl; by left.
  - destruct f' as [|f']; [lia|]. destruct nd as [a|]; [|apply le_res_refl].
    cbn [morris].
    apply bind_le; [apply le_res_refl|]. intros [l|] s1.
    + apply bind_le; [by apply find_pre_mono|]. intros pre s2.
      apply bind_le; [apply le_res_refl|]. intros [pr|] s3.
      * apply bind_le; [apply le_res_refl|]. intros v s4.
        apply bind_le; [apply le_res_refl|]. intros vals' s5.
        apply bind_le; [apply le_res_refl|]. intros r s6.
        apply bind_le; [apply le_res_refl|]. intros _ s7. apply IH. lia.
      * apply bind_le; [apply le_res_refl|]. intros _ s4.
        apply bind_le; [apply le_res_refl|]. intros l' s5. apply IH. lia.
    + apply bind_le; [apply le_res_refl|]. intros v s4.
      apply bind_le; [apply le_res_refl|]. intros vals' s5.
      apply bind_le; [apply le_res_refl|]. intros r s6. apply IH. lia.
Qed.

Lemma steps_le t : (steps t ≤ 2 * size t)%nat.
Proof.
  induction t as [|a c l IHl v r IHr]; [done|]. rewrite size_T. simpl.
  destruct l; simpl in *; lia.
Qed.

(** [GetValues] on a well-formed tree: with enough fuel it returns the
    in-order values and leaves every cell as it was; with less fuel it can
    only time out. *)
Lemma GetValues_spec s t fuel :
  rep (arena s) t None → NoDup (addrs t) → root s = root_of t →
  len s = Z.of_nat (size t) →
  outcome (GetValues fuel s) fuel (2 * size t)
    (λ vs s', s' = s ∧ vs = values t).
Proof.
  destruct s as [h nx rt ln]. cbn [arena root len]. intros Hrep Hnd -> ->.
  assert (Hbig : ∀ f, (2 * size t ≤ f)%nat →
    GetValues f (mkRB h nx (root_of t) (Z.of_nat (size t)))
    = Ok (values t, mkRB h nx (root_of t) (Z.of_nat (size t)))).
  { intros f Hf. unfold GetValues, Len. rewrite run_get_len. cbn [len].
    rewrite decide_False by lia. rewrite run_get_root. cbn [root].
    rewrite Nat2Z.id.
    pose proof (steps_le t).
    assert (entry t None = root_of t) as Hent by (by destruct t).
    pose proof (morris_spec t None None h nx (root_of t) (Z.of_nat (size t)) f (f - steps t) 0
                  (replicate (size t) 0) ltac:(by apply trep_rep) Hnd ltac:(done)
                  ltac:(lia) ltac:(rewrite length_replicate; lia)) as Hm.
    rewrite Hent in Hm. replace (steps t + (f - steps t))%nat with f in Hm by lia.
    rewrite Hm. cbn [Nat.add].
    destruct (f - steps t)%nat; cbn [morris]; rewrite end_ret;
      (rewrite puts_all; [done|]);
      unfold values, size; by rewrite length_fmap, length_replicate. }
  destruct (Nat.le_gt_cases (2 * size t) fuel) as [Hle|Hgt].
  - rewrite Hbig by done. done.
  - specialize (Hbig (2 * size t)%nat ltac:(lia)).
    unfold GetValues, Len in *. rewrite run_get_len in *. cbn [len] in *.
    rewrite decide_False in * by lia. rewrite run_get_root in *. cbn [root] in *.
    destruct (morris_mono fuel (2 * size t) fuel (2 * size t) (root_of t) 0
                (replicate (Z.to_nat (Z.of_nat (size t))) 0)
                (mkRB h nx (root_of t) (Z.of_nat (size t))) ltac:(lia) ltac:(lia)) as [Ht|Ht].
    + rewrite Ht. simpl. lia.
    + rewrite Ht, Hbig. done.
Qed.

(** ** Deletion: splicing a node out *)

Lemma plug_app c1 c2 t : plug (c1 ++ c2) t = plug c2 (plug c1 t).
Proof. revert t. induction c1 as [|f c1 IH]; intros t; [done|]. simpl. apply IH. Qed.

Lemma root_of_plug_ne f ctx t t' : root_of (plug (f :: ctx) t) = root_of (plug (f :: ctx) t').
Proof. apply root_of_plug_cons. Qed.

Lemma st_eq h h' nx rt rt' ln :
  h = h' → rt = rt' → mkRB h nx rt ln = mkRB h' nx rt' ln.
Proof. by intros -> ->. Qed.

Ltac finish_st := apply st_eq; [reflexivity | solve_root].

Lemma replace_child_spec h nx rt ln ctx a c l v r x :
  rep h (plug ctx (T a c l v r)) None →
  NoDup (addrs (plug ctx (T a c l v r))) →
  rt = root_of (plug ctx (T a c l v r)) →
  x = l ∨ x = r →
  ∃ h', replace (Some a) (root_of x) (mkRB h nx rt ln)
        = Ok (tt, mkRB h' nx (root_of (plug ctx x)) ln)
      ∧ rep h' (plug ctx x) None ∧ h' !! a = h !! a.
Proof.
  intros Hrep Hnd -> Hx.
  destruct ctx as [|[pa pc pv pr|pa pc pl pv] ctx];
    (destruct Hx as [-> | ->];
     [destruct l as [|y yc yl yv yr]|destruct r as [|y yc yl yv yr]]);
    open_rep Hrep; open_nodup Hnd; eexists;
    (split; [unfold replace; mrun;
             first [reflexivity | apply ok_eq; [reflexivity|];
                    symmetry; rewrite root_of_plug;
                    etransitivity; [|symmetry; apply root_of_plug]; done ]|]);
    (split; [solve_rep|lookup_tac; reflexivity]).
Qed.

Definition is_FL (f : frame) : Prop :=
  match f with FL _ _ _ _ => True | FR _ _ _ _ => False end.

Lemma getMin_spec h nx rt ln l : ∀ b c v r ctx fuel,
  rep h (plug ctx (T b c l v r)) None →
  outcome (getMin fuel (Some b) (mkRB h nx rt ln)) fuel (S (size l))
    (λ nd s', s' = mkRB h nx rt ln ∧
       ∃ sctx sa sc sv sr, nd = Some sa ∧
         T b c l v r = plug sctx (T sa sc E sv sr) ∧ Forall is_FL sctx).
Proof.
  induction l as [|b2 c2 l2 IHl v2 r2 _]; intros b c v r ctx fuel Hrep.
  - open_rep Hrep. destruct fuel; cbn [getMin]; mrun; simpl;
      (split; [done|]); by exists [], b, c, v, r.
  - pose proof Hrep as Hrep'. open_rep Hrep'.
    destruct fuel as [|fuel]; cbn [getMin]; mrun; [simpl; lia|].
    specialize (IHl b2 c2 v2 r2 (FL b c v r :: ctx) fuel Hrep).
    destruct (getMin fuel (Some b2) _) as [[nd s']| |]; simpl in *;
      [|done|rewrite size_T; lia].
    destruct IHl as (-> & sctx & sa & sc & sv & sr & -> & Heq & Hfl).
    split; [done|]. exists (sctx ++ [FL b c v r]), sa, sc, sv, sr.
    split_and!; [done| |].
    + rewrite plug_app. simpl. by rewrite <- Heq.
    + apply Forall_app. split; [done|]. by repeat constructor.
Qed.

(** What [splice] does to the tree [plug ctx (T a c l val r)] when asked to
    remove [a]: the colour [og] that leaves its position, and the resulting
    tree [t1] as the context [ctx1] of the node to fix around the subtree
    [x] at that node. *)
Inductive spliced (ctx : list frame) (a : addr) (c : color) (l : tree) (r : tree)
  : color → list frame → tree → Prop :=
| sp_left : l = E → spliced ctx a c l r c ctx r
| sp_right : l ≠ E → r = E → spliced ctx a c l r c ctx l
| sp_succ0 sa sc sv sr :
    l ≠ E → r = T sa sc E sv sr →
    spliced ctx a c l r sc (FR sa c l sv :: ctx) sr
| sp_succ f sctx sa sc sv sr :
    l ≠ E → Forall is_FL (f :: sctx) → r = plug (f :: sctx) (T sa sc E sv sr) →
    spliced ctx a c l r sc (f :: sctx ++ FR sa c l sv :: ctx) sr.

Lemma plug_cons_T f ctx t : ∃ a c l v r, plug (f :: ctx) t = T a c l v r.
Proof.
  revert f t. induction ctx as [|g ctx IH]; intros f t.
  - destruct f; simpl; by eexists _, _, _, _, _.
  - simpl. apply (IH g).
Qed.

Lemma nodup_remove_node ctx a c v r :
  NoDup (addrs (plug ctx (T a c E v r))) →
  NoDup (addrs (plug ctx r)) ∧ a ∉ addrs (plug ctx r).
Proof. intros Hnd. open_nodup Hnd. split; solve_nodup. Qed.

Lemma splice_spec h nx rt ln ctx a c l val r fuel :
  rep h (plug ctx (T a c l val r)) None →
  NoDup (addrs (plug ctx (T a c l val r))) →
  rt = root_of (plug ctx (T a c l val r)) →
  outcome (splice fuel (Some a) c (root_of l) (root_of r) (mkRB h nx rt ln))
    fuel (S (size r))
    (λ res s', ∃ og ctx1 x h',
       spliced ctx a c l r og ctx1 x ∧ res = (og, root_of x) ∧
       s' = mkRB h' nx (root_of (plug ctx1 x)) ln ∧ rep h' (plug ctx1 x) None).
Proof.
  intros Hrep Hnd Hrt.
  destruct l as [|la lc ll lv lr].
  { (* no left child *)
    destruct (replace_child_spec h nx rt ln ctx a c E val r r Hrep Hnd Hrt) as (h' & Heq & Hrep' & _);
      [by right|].
    unfold splice. cbn [root_of]. rewrite run_bind, Heq. simpl.
    exists c, ctx, r, h'. split_and!; [by constructor|done..]. }
  destruct r as [|ra rc rl rv rr].
  { (* no right child *)
    destruct (replace_child_spec h nx rt ln ctx a c (T la lc ll lv lr) val E (T la lc ll lv lr)
                Hrep Hnd Hrt) as (h' & Heq & Hrep' & _); [by left|].
    unfold splice. cbn [root_of] in *. rewrite run_bind, Heq. simpl.
    exists c, ctx, (T la lc ll lv lr), h'. split_and!; [by constructor|done..]. }
  (* two children *)
  unfold splice. cbn [root_of]. rewrite run_bind.
  pose proof (getMin_spec h nx rt ln rl ra rc rv rr (FR a c (T la lc ll lv lr) val :: ctx)
                fuel Hrep) as Hmin.
  destruct (getMin fuel (Some ra) _) as [[sub s1]| |]; cbn [outcome] in *;
    [|done|rewrite size_T; lia].
  destruct Hmin as (-> & sctx & sa & sc & sv & sr & -> & Hr & Hfl).
  rewrite Hr in *. clear Hr ra rc rl rv rr.
  destruct sctx as [|f sctx].
  - (* the successor is the right child of [a] *)
    cbn [plug] in *. subst rt.
    destruct ctx as [|[pa pc pv pr|pa pc pl pv] ctx]; destruct sr as [|y yc yl yv yr];
      open_rep Hrep; open_nodup Hnd; unfold replace; mrun; cbn [outcome];
      (eexists sc, _, _, _; split_and!;
       [by eapply sp_succ0 | reflexivity | finish_st | solve_rep]).
  - (* the successor lies deeper: unlink it, then put it in the place of [a] *)
    destruct f as [fa fc fv fr|]; [|by apply Forall_cons in Hfl as [[] _]].
    set (l := T la lc ll lv lr) in *.
    assert (Hz : ∀ b w X, plug ctx (T b c l w (plug (FL fa fc fv fr :: sctx) X))
                 = plug (FL fa fc fv fr :: (sctx ++ FR b c l w :: ctx)) X).
    { intros b w X. by rewrite app_comm_cons, plug_app. }
    rewrite Hz in Hrep, Hnd, Hrt.
    destruct (replace_child_spec h nx rt ln _ sa sc E sv sr sr Hrep Hnd Hrt)
      as (h1 & Heq1 & Hrep1 & Hsa1); [by right|].
    destruct (nodup_remove_node _ _ _ _ _ Hnd) as [Hnd1 Hsa].
    assert (fa ≠ a) as Hfa.
    { clear -Hnd. open_nodup Hnd. done. }
    pose proof Hrep as Hrep0. open_rep Hrep0.
    mrun. rewrite run_bind, Heq1. cbn iota beta.
    rewrite <- Hz in Hrep1, Hnd1, Hsa |- *.
    destruct (plug_cons_T (FL fa fc fv fr) sctx sr) as (ra & rc & rl & rv & rr & Hr').
    rewrite Hr' in Hrep1, Hnd1, Hsa |- *.
    match goal with H : h !! sa = _ |- _ => rewrite H in Hsa1 end.
    clear Hrep. subst l.
    repeat match goal with H : rep h _ _ |- _ => clear H | H : rep_ctx h _ _ |- _ => clear H
                      | H : h !! _ = _ |- _ => clear H end.
    assert (Hpost : ∀ h', rep h' (plug ctx (T sa c (T la lc ll lv lr) sv (T ra rc rl rv rr))) None →
      ∃ og ctx1 x h'0,
        spliced ctx a c (T la lc ll lv lr) (plug (FL fa fc fv fr :: sctx) (T sa sc E sv sr)) og ctx1 x
        ∧ (sc, root_of sr) = (og, root_of x)
        ∧ mkRB h' nx (root_of (plug ctx (T sa c (T la lc ll lv lr) sv (T ra rc rl rv rr)))) ln
          = mkRB h'0 nx (root_of (plug ctx1 x)) ln
        ∧ rep h'0 (plug ctx1 x) None).
    { intros h' Hh'.
      exists sc, (FL fa fc fv fr :: sctx ++ FR sa c (T la lc ll lv lr) sv :: ctx), sr, h'.
      rewrite <- (Hz sa sv sr), Hr'. split_and!; [|done..].
      by apply (sp_succ ctx a c (T la lc ll lv lr) _ (FL fa fc fv fr) sctx sa sc sv sr). }
    clear Hz Hr' Heq1 Hnd Hrt Hfl.
    destruct ctx as [|[pa pc pv pr|pa pc pl pv] ctx];
      open_rep Hrep1; open_nodup Hnd1; open_nodup Hsa; unfold replace; mrun; cbn [outcome];
      match goal with
      | |- ∃ og ctx1 x h', _ ∧ _ ∧ mkRB ?H _ _ _ = _ ∧ _ =>
          destruct (Hpost H) as (og & ctx1 & x & h'0 & Hsp & Hre & Hst & Hrp);
            [ solve_rep
            | exists og, ctx1, x, h'0; split_and!;
              [done | done | rewrite <- Hst; finish_st | done] ]
      end.
Qed.

(** ** Delete-fixup

    The loop may stop with a panic (on trees that are not red-black it
    reads through nil siblings), so its specification is partial: whenever
    a pass returns, the arena still holds a tree with the same in-order
    contents. *)

Definition partial {A} (r : res (A * RBTree)) (P : A → RBTree → Prop) : Prop :=
  match r with Ok (a, s') => P a s' | _ => True end.

Definition del_post (nx : addr) (ln : Z) (t0 : tree) (nd' : ptr) (s' : RBTree) : Prop :=
  ∃ ctx' x',
    nd' = root_of x' ∧ root_of x' ≠ None ∧
    s' = mkRB (arena s') nx (root_of (plug ctx' x')) ln ∧
    rep (arena s') (plug ctx' x') None ∧
    inorder (plug ctx' x') = inorder t0.

Lemma root_of_plug_T_ne ctx a c l v r : root_of (plug ctx (T a c l v r)) ≠ None.
Proof. rewrite root_of_plug. by destruct (last ctx). Qed.

Ltac use_rotL ctx1 a c l v b cb bl bv br h1 Heq Hrep :=
  rewrite run_bind;
  match goal with
  | |- context [rotateLeft (Some a) (mkRB ?H ?nx ?rt ?ln)] =>
      destruct (rotateLeft_spec H nx rt ln ctx1 a c l v b cb bl bv br)
        as (h1 & Heq & Hrep);
      [solve_rep | solve_nodup | solve_root | rewrite Heq; cbn iota beta]
  end.

Ltac use_rotR ctx1 a c r v b cb bl bv br h1 Heq Hrep :=
  rewrite run_bind;
  match goal with
  | |- context [rotateRight (Some a) (mkRB ?H ?nx ?rt ?ln)] =>
      destruct (rotateRight_spec H nx rt ln ctx1 a c r v b cb bl bv br)
        as (h1 & Heq & Hrep);
      [solve_rep | solve_nodup | solve_root | rewrite Heq; cbn iota beta]
  end.

(** After a further case split on a subtree, break the known facts down
    again. *)
Ltac renorm :=
  repeat match goal with
         | H : context [addrs (T _ _ _ _ _)] |- _ => progress (open_nodup H)
         end.

(** Close a pass that ends at the parent ([ctx'], [x']) or at the root. *)
Ltac fin_del ctx' x' Hrep :=
  mrun; cbn [partial];
  exists ctx', x'; cbn [arena];
  split_and!;
  [ first [reflexivity | solve_root]
  | first [discriminate | apply root_of_plug_T_ne]
  | f_equal; solve_root
  | first [exact Hrep | solve_rep]
  | solve_inorder ].

Lemma fixDelete_left_rest_spec h nx rt ln p pc pv w ctx a c l v r :
  rep h (plug (FL p pc pv w :: ctx) (T a c l v r)) None →
  NoDup (addrs (plug (FL p pc pv w :: ctx) (T a c l v r))) →
  rt = root_of (plug (FL p pc pv w :: ctx) (T a c l v r)) →
  partial (fixDelete_left_rest (Some a) (root_of w) (mkRB h nx rt ln))
    (del_post nx ln (plug (FL p pc pv w :: ctx) (T a c l v r))).
Proof.
  intros Hrep Hnd ->.
  destruct w as [|s sc wl sv wr]; [done|].
  destruct wl as [|la [] ll lv lr]; destruct wr as [|ra [] rl rv rr];
    open_rep Hrep; open_nodup Hnd; unfold fixDelete_left_rest; mrun.
  - fin_del ctx (T p pc (T a c l v r) pv (T s red E sv E)) I.
  - fin_del ctx (T p pc (T a c l v r) pv (T s red E sv (T ra black rl rv rr))) I.
  - use_rotL ctx p black (T a c l v r) pv s pc E sv (T ra black rl rv rr) h1 Heq1 Hrep1.
    fin_del (@nil frame) (plug ctx (T s pc (T p black (T a c l v r) pv E) sv (T ra black rl rv rr))) Hrep1.
  - fin_del ctx (T p pc (T a c l v r) pv (T s red (T la black ll lv lr) sv E)) I.
  - fin_del ctx (T p pc (T a c l v r) pv (T s red (T la black ll lv lr) sv (T ra black rl rv rr))) I.
  - use_rotL ctx p black (T a c l v r) pv s pc (T la black ll lv lr) sv (T ra black rl rv rr) h1 Heq1 Hrep1.
    fin_del (@nil frame) (plug ctx (T s pc (T p black (T a c l v r) pv (T la black ll lv lr)) sv (T ra black rl rv rr))) Hrep1.
  - use_rotR (FR p pc (T a c l v r) pv :: ctx) s red E sv la black ll lv lr h1 Heq1 Hrep1.
    open_rep Hrep1. mrun.
    use_rotL ctx p black (T a c l v r) pv la pc ll lv (T s black lr sv E) h2 Heq2 Hrep2.
    fin_del (@nil frame) (plug ctx (T la pc (T p black (T a c l v r) pv ll) lv (T s black lr sv E))) Hrep2.
  - use_rotR (FR p pc (T a c l v r) pv :: ctx) s red (T ra black rl rv rr) sv la black ll lv lr h1 Heq1 Hrep1.
    open_rep Hrep1. mrun.
    use_rotL ctx p black (T a c l v r) pv la pc ll lv (T s black lr sv (T ra black rl rv rr)) h2 Heq2 Hrep2.
    fin_del (@nil frame) (plug ctx (T la pc (T p black (T a c l v r) pv ll) lv (T s black lr sv (T ra black rl rv rr)))) Hrep2.
  - use_rotL ctx p black (T a c l v r) pv s pc (T la red ll lv lr) sv (T ra black rl rv rr) h1 Heq1 Hrep1.
    fin_del (@nil frame) (plug ctx (T s pc (T p black (T a c l v r) pv (T la red ll lv lr)) sv (T ra black rl rv rr))) Hrep1.
Qed.

Lemma fixDelete_right_rest_spec h nx rt ln p pc pv w ctx a c l v r :
  rep h (plug (FR p pc w pv :: ctx) (T a c l v r)) None →
  NoDup (addrs (plug (FR p pc w pv :: ctx) (T a c l v r))) →
  rt = root_of (plug (FR p pc w pv :: ctx) (T a c l v r)) →
  partial (fixDelete_right_rest (Some a) (root_of w) (mkRB h nx rt ln))
    (del_post nx ln (plug (FR p pc w pv :: ctx) (T a c l v r))).
Proof.
  intros Hrep Hnd ->.
  destruct w as [|s sc wl sv wr]; [done|].
  destruct wl as [|la [] ll lv lr]; destruct wr as [|ra [] rl rv rr];
    open_rep Hrep; open_nodup Hnd; unfold fixDelete_right_rest; mrun.
  - fin_del ctx (T p pc (T s red E sv E) pv (T a c l v r)) I.
  - fin_del ctx (T p pc (T s red E sv (T ra black rl rv rr)) pv (T a c l v r)) I.
  - (* left child nil, right child red: the right rotation of [sib] does nothing *)
    unfold rotateRight. mrun. done.
  - fin_del ctx (T p pc (T s red (T la black ll lv lr) sv E) pv (T a c l v r)) I.
  - fin_del ctx (T p pc (T s red (T la black ll lv lr) sv (T ra black rl rv rr)) pv (T a c l v r)) I.
  - use_rotR (FL p pc pv (T a c l v r) :: ctx) s red (T ra black rl rv rr) sv la black ll lv lr h1 Heq1 Hrep1.
    destruct ll as [|lla llc lll llv llr]; renorm; open_rep Hrep1; mrun; [done|].
    use_rotR ctx p black (T a c l v r) pv la pc (T lla black lll llv llr) lv
      (T s red lr sv (T ra black rl rv rr)) h2 Heq2 Hrep2.
    fin_del (@nil frame)
      (plug ctx (T la pc (T lla black lll llv llr) lv
                   (T p black (T s red lr sv (T ra black rl rv rr)) pv (T a c l v r)))) Hrep2.
  - use_rotR ctx p black (T a c l v r) pv s pc (T la black ll lv lr) sv E h1 Heq1 Hrep1.
    fin_del (@nil frame) (plug ctx (T s pc (T la black ll lv lr) sv (T p black E pv (T a c l v r)))) Hrep1.
  - use_rotR ctx p black (T a c l v r) pv s pc (T la black ll lv lr) sv (T ra black rl rv rr) h1 Heq1 Hrep1.
    fin_del (@nil frame) (plug ctx (T s pc (T la black ll lv lr) sv (T p black (T ra black rl rv rr) pv (T a c l v r)))) Hrep1.
  - use_rotR ctx p black (T a c l v r) pv s pc (T la black ll lv lr) sv (T ra red rl rv rr) h1 Heq1 Hrep1.
    fin_del (@nil frame) (plug ctx (T s pc (T la black ll lv lr) sv (T p black (T ra red rl rv rr) pv (T a c l v r)))) Hrep1.
Qed.

Lemma partial_impl {A} (r : res (A * RBTree)) (P Q : A → RBTree → Prop) :
  partial r P → (∀ a s, P a s → Q a s) → partial r Q.
Proof. destruct r as [[a s]| |]; simpl; auto. Qed.

Lemma del_post_eq nx ln t0 t1 nd' s' :
  inorder t0 = inorder t1 → del_post nx ln t0 nd' s' → del_post nx ln t1 nd' s'.
Proof.
  intros Heq (ctx' & x' & ? & ? & ? & ? & Hin). exists ctx', x'.
  split_and!; [done..|congruence].
Qed.

Lemma fixDelete_left_spec h nx rt ln p pc pv w ctx a c l v r :
  rep h (plug (FL p pc pv w :: ctx) (T a c l v r)) None →
  NoDup (addrs (plug (FL p pc pv w :: ctx) (T a c l v r))) →
  rt = root_of (plug (FL p pc pv w :: ctx) (T a c l v r)) →
  partial (fixDelete_left (Some a) (mkRB h nx rt ln))
    (del_post nx ln (plug (FL p pc pv w :: ctx) (T a c l v r))).
Proof.
  intros Hrep Hnd Hrt.
  destruct w as [|s [] wl sv wr].
  - subst rt. open_rep Hrep. unfold fixDelete_left. mrun. done.
  - pose proof (fixDelete_left_rest_spec _ nx rt ln _ _ _ _ _ _ _ _ _ _ Hrep Hnd Hrt) as Hrest.
    subst rt. open_rep Hrep. unfold fixDelete_left. mrun. exact Hrest.
  - subst rt. pose proof Hnd as Hnd'. open_rep Hrep. open_nodup Hnd'.
    unfold fixDelete_left. mrun.
    use_rotL ctx p red (T a c l v r) pv s black wl sv wr h1 Heq1 Hrep1.
    pose proof (fixDelete_left_rest_spec h1 nx _ ln p red pv wl (FL s black sv wr :: ctx)
                  a c l v r Hrep1 ltac:(solve_nodup) eq_refl) as Hrest.
    open_rep Hrep1. mrun.
    eapply partial_impl; [exact Hrest|]. intros nd' s'. apply del_post_eq. solve_inorder.
Qed.

Lemma fixDelete_right_spec h nx rt ln p pc pv w ctx a c l v r :
  rep h (plug (FR p pc w pv :: ctx) (T a c l v r)) None →
  NoDup (addrs (plug (FR p pc w pv :: ctx) (T a c l v r))) →
  rt = root_of (plug (FR p pc w pv :: ctx) (T a c l v r)) →
  partial (fixDelete_right (Some a) (mkRB h nx rt ln))
    (del_post nx ln (plug (FR p pc w pv :: ctx) (T a c l v r))).
Proof.
  intros Hrep Hnd Hrt.
  destruct w as [|s [] wl sv wr].
  - subst rt. open_rep Hrep. unfold fixDelete_right. mrun. done.
  - pose proof (fixDelete_right_rest_spec _ nx rt ln _ _ _ _ _ _ _ _ _ _ Hrep Hnd Hrt) as Hrest.
    subst rt. open_rep Hrep. unfold fixDelete_right. mrun. exact Hrest.
  - subst rt. pose proof Hnd as Hnd'. open_rep Hrep. open_nodup Hnd'.
    unfold fixDelete_right. mrun.
    use_rotR ctx p red (T a c l v r) pv s black wl sv wr h1 Heq1 Hrep1.
    pose proof (fixDelete_right_rest_spec h1 nx _ ln p red pv wr (FR s black wl sv :: ctx)
                  a c l v r Hrep1 ltac:(solve_nodup) eq_refl) as Hrest.
    open_rep Hrep1. mrun.
    eapply partial_impl; [exact Hrest|]. intros nd' s'. apply del_post_eq. solve_inorder.
Qed.

Lemma fixDelete_body_spec h nx rt ln f ctx a c l v r :
  rep h (plug (f :: ctx) (T a c l v r)) None →
  NoDup (addrs (plug (f :: ctx) (T a c l v r))) →
  rt = root_of (plug (f :: ctx) (T a c l v r)) →
  partial (fixDelete_body (Some a) (mkRB h nx rt ln))
    (del_post nx ln (plug (f :: ctx) (T a c l v r))).
Proof.
  intros Hrep Hnd Hrt. destruct f as [p pc pv w|p pc w pv].
  - pose proof (fixDelete_left_spec h nx rt ln p pc pv w ctx a c l v r Hrep Hnd Hrt) as Hl.
    subst rt. open_rep Hrep. unfold fixDelete_body. mrun. exact Hl.
  - pose proof (fixDelete_right_spec h nx rt ln p pc pv w ctx a c l v r Hrep Hnd Hrt) as Hr.
    subst rt. open_rep Hrep. open_nodup Hnd. unfold fixDelete_body. mrun. exact Hr.
Qed.


Lemma frame_addr_in f ctx : f ∈ ctx → frame_addr f ∈ ctx_l ctx ++ ctx_r ctx.
Proof.
  induction ctx as [|g ctx IH]; [by intros ?%elem_of_nil|].
  intros [->|Hin]%elem_of_cons.
  - destruct g; rewrite ?ctx_l_FL, ?ctx_l_FR, ?ctx_r_FL, ?ctx_r_FR; simpl; set_solver.
  - specialize (IH Hin).
    destruct g; rewrite ?ctx_l_FL, ?ctx_l_FR, ?ctx_r_FL, ?ctx_r_FR; set_solver.
Qed.

Lemma root_ne_inner f ctx a c l v r :
  NoDup (addrs (plug (f :: ctx) (T a c l v r))) →
  Some a ≠ root_of (plug (f :: ctx) (T a c l v r)).
Proof.
  intros Hnd. rewrite root_of_plug.
  destruct (last (f :: ctx)) as [g|] eqn:Hl; [|by apply last_None in Hl].
  intros [= ->]. apply last_Some in Hl as [ctx' Hl].
  assert (g ∈ f :: ctx) as Hin by (rewrite Hl; set_solver).
  apply frame_addr_in in Hin.
  rewrite addrs_plug, addrs_T in Hnd. nodup_open Hnd.
  apply elem_of_app in Hin as [Hin|Hin]; contradiction.
Qed.

Lemma fixDelete_loop_spec fuel : ∀ ctx a c l v r h nx rt ln,
  rep h (plug ctx (T a c l v r)) None →
  NoDup (addrs (plug ctx (T a c l v r))) →
  rt = root_of (plug ctx (T a c l v r)) →
  partial (fixDelete_loop fuel (Some a) (mkRB h nx rt ln))
    (loop_post nx ln (plug ctx (T a c l v r))).
Proof.
  induction fuel as [|fuel IH]; intros ctx a c l v r h nx rt ln Hrep Hnd ->.
  all: assert (Hdone : loop_post nx ln (plug ctx (T a c l v r)) tt
                (mkRB h nx (root_of (plug ctx (T a c l v r))) ln)) by
    (exists (plug ctx (T a c l v r)); split_and!; [apply root_of_plug_T_ne|done..]).
  all: destruct ctx as [|f ctx];
    [ cbn [fixDelete_loop]; mrun; exact Hdone | ].
  all: pose proof (root_ne_inner _ _ _ _ _ _ _ Hnd) as Hne.
  all: pose proof Hrep as Hrep'; open_rep Hrep'.
  all: cbn [fixDelete_loop]; rewrite run_get_root; cbn [root];
    rewrite (decide_False _ _ Hne); mrun.
  all: destruct c; [|rewrite decide_False by (intros [_ [=]]); exact Hdone].
  all: rewrite decide_True by done.
  - done.
  - rewrite run_bind.
    pose proof (fixDelete_body_spec h nx _ ln f ctx a black l v r Hrep Hnd eq_refl) as Hb.
    destruct (fixDelete_body (Some a) _) as [[nd' s1]| |]; [|done..].
    destruct Hb as (ctx' & x' & -> & Hx' & Hs1 & Hrep1 & Hin1).
    destruct x' as [|a' c' l' v' r']; [done|]. rewrite Hs1.
    eapply partial_impl.
    + apply (IH ctx' a' c' l' v' r'); [done| |done].
      by eapply NoDup_addrs_eq.
    + intros [] s' (t' & ? & ? & ? & Hin'). exists t'. split_and!; [done..|].
      etransitivity; [exact Hin'|exact Hin1].
Qed.

(** [fixDelete] on a present node: if it returns, the tree is intact and its
    root black. *)
Lemma fixDelete_spec fuel ctx a c l v r h nx rt ln :
  rep h (plug ctx (T a c l v r)) None →
  NoDup (addrs (plug ctx (T a c l v r))) →
  rt = root_of (plug ctx (T a c l v r)) →
  partial (fixDelete fuel (Some a) (mkRB h nx rt ln))
    (λ _ s', ∃ t3, s' = mkRB (arena s') nx (root_of t3) ln ∧ rep (arena s') t3 None
                   ∧ inorder t3 = inorder (plug ctx (T a c l v r))
                   ∧ color_of_tree t3 = black).
Proof.
  intros Hrep Hnd Hrt. unfold fixDelete. rewrite run_bind.
  pose proof (fixDelete_loop_spec fuel ctx a c l v r h nx rt ln Hrep Hnd Hrt) as Hl.
  destruct (fixDelete_loop fuel (Some a) _) as [[[] s1]| |]; [|done..].
  cbn [partial] in Hl.
  destruct (root_black_spec _ _ _ _ Hl Hnd) as (t3 & h3 & Hfin & Hrep3 & Hin3 & Hb3).
  rewrite Hfin. simpl. by exists t3.
Qed.

(** [fixDelete] on nil never returns: it reads [nd.parent] through nil, or
    [rb.root.clr] when the tree has become empty. *)
Lemma fixDelete_nil fuel s :
  match fixDelete fuel None s with
  | Ok _ => False
  | Panic f => f = NilDeref "nd" ∨ f = NilDeref "rb.root"
  | Timeout => fuel = O
  end.
Proof.
  destruct s as [h nx rt ln]. unfold fixDelete.
  destruct rt as [b|].
  - destruct fuel; cbn [fixDelete_loop]; rewrite run_assoc, run_get_root; cbn [root];
      mrun; rewrite ?decide_True by done; [done|].
    unfold fixDelete_body. mrun. by left.
  - destruct fuel; cbn [fixDelete_loop]; rewrite run_assoc, run_get_root; cbn [root];
      mrun; rewrite ?decide_False by (by intros [? _]); mrun; by right.
Qed.

(** ** What unlinking a node does to the in-order sequence and the root *)

Lemma inorder_plug_min F sa sc sv sr :
  Forall is_FL F →
  inorder (plug F (T sa sc E sv sr)) = (sa, sv) :: inorder (plug F sr).
Proof.
  intros HF. rewrite !inorder_plug. cbn [inorder app].
  assert (ctx_before F = []) as ->; [|done].
  induction HF as [|[?|?] F Hf _ IH]; simpl; done.
Qed.

Lemma spliced_inorder ctx a c l r og ctx1 x val :
  spliced ctx a c l r og ctx1 x →
  ∃ L R, inorder (plug ctx (T a c l val r)) = L ++ (a, val) :: R
         ∧ inorder (plug ctx1 x) = L ++ R.
Proof.
  intros Hs. exists (ctx_before ctx ++ inorder l), (inorder r ++ ctx_after ctx).
  rewrite (inorder_plug ctx). cbn [inorder]. split; [by rewrite <- !app_assoc|].
  destruct Hs as [-> | Hl -> | sa sc sv sr Hl -> | f sctx sa sc sv sr Hl HF ->].
  - rewrite inorder_plug. simpl. by rewrite app_nil_r.
  - rewrite inorder_plug. simpl. by rewrite <- !app_assoc.
  - rewrite inorder_plug. cbn [ctx_before ctx_after inorder app].
    by rewrite <- !app_assoc.
  - rewrite inorder_plug_min by done.
    change (f :: sctx ++ FR sa c l sv :: ctx) with ((f :: sctx) ++ FR sa c l sv :: ctx).
    rewrite plug_app, (inorder_plug (_ :: ctx)). cbn [ctx_before ctx_after].
    by rewrite <- !app_assoc.
Qed.

Lemma spliced_root_black ctx a c l r og ctx1 x val :
  spliced ctx a c l r og ctx1 x →
  color_of_tree (plug ctx (T a c l val r)) = black →
  og = red →
  color_of_tree (plug ctx1 x) = black.
Proof.
  intros Hs. rewrite !color_of_plug.
  destruct Hs as [-> | Hl -> | sa sc sv sr Hl -> | f sctx sa sc sv sr Hl HF ->].
  - simpl. destruct (last ctx); [done|]. by intros -> [=].
  - simpl. destruct (last ctx); [done|]. by intros -> [=].
  - intros Hb _. rewrite last_cons. by destruct (last ctx).
  - intros Hb _. rewrite last_cons, last_app, last_cons. by destruct (last ctx).
Qed.

Lemma NoDup_fst_remove (L R : list (addr * Z)) x :
  NoDup (L ++ x :: R).*1 → NoDup (L ++ R).*1.
Proof.
  rewrite !fmap_app, fmap_cons. intros Hnd.
  apply NoDup_app in Hnd as (HL & Hd & HR). apply NoDup_cons in HR as [Hx HR].
  apply NoDup_app. split_and!; [done| |done].
  intros y Hy HyR. apply (Hd y Hy). by right.
Qed.

Lemma sorted_remove (L R : list Z) x :
  StronglySorted Z.le (L ++ x :: R) → StronglySorted Z.le (L ++ R).
Proof.
  induction L as [|y L IH]; simpl.
  - by intros [_ ?]%StronglySorted_cons.
  - intros [HL Hs]%StronglySorted_cons. constructor; [by apply IH|].
    apply Forall_app in HL as [H1 H2]. apply Forall_cons in H2 as [_ H2].
    by apply Forall_app.
Qed.

(** The invariant after a node has left the tree. *)
Lemma Inv_after_delete h nx rt ln t h' t' L R a val :
  Inv (mkRB h nx rt ln) t →
  inorder t = L ++ (a, val) :: R →
  inorder t' = L ++ R →
  rep h' t' None →
  color_of_tree t' = black →
  Inv (mkRB h' nx (root_of t') (ln - 1)) t' ∧ values t ≡ₚ val :: values t'.
Proof.
  intros (Hrep & Hnd & Hrt & Hln & Hfresh & Hsort & Hblack) Hin Hin' Hrep' Hb'.
  cbn [arena root len next] in *.
  unfold addrs, values, size in *. rewrite Hin in *. rewrite Hin'.
  split; [unfold Inv; cbn [arena root len next]; unfold addrs, values, size;
          rewrite Hin'; split_and!|]; try done.
  - by eapply NoDup_fst_remove.
  - rewrite length_app in *. simpl in Hln. lia.
  - rewrite fmap_app, fmap_cons in Hfresh. rewrite fmap_app.
    apply Forall_app in Hfresh as [H1 H2]. apply Forall_cons in H2 as [_ H2].
    by apply Forall_app.
  - rewrite fmap_app, fmap_cons in Hsort. rewrite fmap_app. by eapply sorted_remove.
  - rewrite !fmap_app, fmap_cons. simpl. by rewrite <- Permutation_middle.
Qed.

(** ** Deletion up to the fix-up *)

Lemma size_plug_ge ctx t : (size t ≤ size (plug ctx t))%nat.
Proof. unfold size. rewrite inorder_plug, !length_app. lia. Qed.

(** [Delete] either reports an absent value and changes nothing, or unlinks
    one node holding the value, decrements [len] and hands over to the
    fix-up. *)
Lemma Delete_reduce s t val fuel :
  Inv s t →
  (Delete fuel val s = Timeout ∧ (fuel < S (size t))%nat)
  ∨ (Delete fuel val s = Ok (Some ErrValueDoesNotExist, s) ∧ val ∉ values t)
  ∨ (∃ ctx a c l r og ctx1 x h',
       t = plug ctx (T a c l val r) ∧ spliced ctx a c l r og ctx1 x
       ∧ rep h' (plug ctx1 x) None
       ∧ Delete fuel val s =
           (exec (if decide (og = black) then fixDelete fuel (root_of x) else ret tt);;
            ret None) (mkRB h' (next s) (root_of (plug ctx1 x)) (len s - 1))).
Proof.
  destruct s as [h nx rt ln]. intros (Hrep & Hnd & Hrt & Hln & Hfresh & Hsort & Hblack).
  cbn [arena root len next] in *. subst rt.
  unfold Delete, findNode. rewrite run_assoc, run_get_root, run_bind. cbn [root].
  pose proof (findNode_from_spec val t [] h nx (root_of t) ln fuel Hrep Hsort) as Hf.
  destruct (findNode_from fuel val (root_of t) _) as [[nd s']| |]; simpl in Hf;
    [|done|by left].
  destruct Hf as [-> Hf]. destruct nd as [a|]; [|right; left; by split].
  destruct Hf as (ctx & c & l & r & ->). simpl plug at 1.
  pose proof Hrep as Hrep'. open_rep Hrep'.
  mrun. rewrite run_bind.
  pose proof (splice_spec h nx _ (ln - 1) ctx a c l val r fuel Hrep Hnd eq_refl) as Hs.
  destruct (splice fuel (Some a) c (root_of l) (root_of r) _) as [[res s']| |];
    simpl in Hs; [|done|].
  - destruct Hs as (og & ctx1 & x & h' & Hsp & -> & -> & Hrep1).
    right; right. by exists ctx, a, c, l, r, og, ctx1, x, h'.
  - left. split; [done|]. pose proof (size_plug_ge ctx (T a c l val r)) as Hle.
    rewrite size_T in Hle. lia.
Qed.

(** Whenever [Delete] returns: without a node holding [val] it reports
    the error and leaves the tree alone; otherwise it returns nil, the
    tree has lost one occurrence of [val] and satisfies the invariant. *)
Lemma Delete_spec s t val fuel :
  Inv s t →
  partial (Delete fuel val s)
    (λ e s', match e with
             | Some _ => s' = s ∧ val ∉ values t
             | None => val ∈ values t ∧ len s' = len s - 1
                       ∧ ∃ t', Inv s' t' ∧ values t ≡ₚ val :: values t'
             end).
Proof.
  intros HI.
  destruct (Delete_reduce s t val fuel HI)
    as [[-> _] | [[-> Hni] | (ctx & a & c & l & r & og & ctx1 & x & h' & -> & Hsp & Hrep1 & ->)]];
    [done|done|].
  destruct s as [h nx rt ln]. cbn [next len] in *.
  destruct (spliced_inorder ctx a c l r og ctx1 x val Hsp) as (L & R & Hin & Hin1).
  assert (Hnd1 : NoDup (addrs (plug ctx1 x))).
  { unfold addrs. rewrite Hin1. apply (NoDup_fst_remove L R (a, val)).
    rewrite <- Hin. apply HI. }
  assert (Hval : val ∈ values (plug ctx (T a c l val r))).
  { rewrite values_plug, values_T. set_solver. }
  rewrite run_bind. destruct og.
  - rewrite decide_True by done.
    destruct x as [|xa xc xl xv xr].
    { pose proof (fixDelete_nil fuel (mkRB h' nx (root_of (plug ctx1 E)) (ln - 1))) as Hn.
      cbn [root_of]. by destruct (fixDelete fuel None _) as [[]| |]. }
    pose proof (fixDelete_spec fuel ctx1 xa xc xl xv xr h' nx _ (ln - 1) Hrep1 Hnd1 eq_refl) as Hfx.
    cbn [root_of]. destruct (fixDelete fuel (Some xa) _) as [[[] s3]| |]; [|done..].
    simpl in Hfx. destruct Hfx as (t3 & Hs3 & Hrep3 & Hin3 & Hb3). simpl.
    rewrite Hs3. cbn [len]. split_and!; [done..|]. exists t3.
    eapply Inv_after_delete; [exact HI|exact Hin|congruence|done|done].
  - rewrite decide_False by done. simpl. split_and!; [done..|].
    exists (plug ctx1 x).
    eapply Inv_after_delete; [exact HI|exact Hin|done|done|].
    eapply spliced_root_black; [exact Hsp| |done]. apply HI.
Qed.

(** ** The red-black properties

    On the tree a state represents: the root is black, no red node has a
    red child, and all paths from a node down to an absent position hold
    the same number of black nodes ([black_height] is then that number). *)

Fixpoint black_height (t : tree) : option nat :=
  match t with
  | E => Some O
  | T _ c l _ r =>
      match black_height l, black_height r with
      | Some n, Some m =>
          if decide (n = m) then Some (if c is black then S n else n) else None
      | _, _ => None
      end
  end.

Fixpoint no_red_red (t : tree) : bool :=
  match t with
  | E => true
  | T _ c l _ r =>
      (if c is red
       then bool_decide (color_of_tree l = black) && bool_decide (color_of_tree r = black)
       else true)
      && no_red_red l && no_red_red r
  end.

Definition valid_rb (t : tree) : bool :=
  bool_decide (color_of_tree t = black) && no_red_red t
  && bool_decide (is_Some (black_height t)).

(** The other child of the parent of the hole of a context. *)
Definition sibling (ctx : list frame) : tree :=
  match ctx with
  | [] => E
  | FL _ _ _ r :: _ => r
  | FR _ _ l _ :: _ => l
  end.

Lemma valid_rb_bh t : valid_rb t = true → is_Some (black_height t).
Proof.
  unfold valid_rb. rewrite !andb_true_iff. intros [_ H]. by apply bool_decide_eq_true in H.
Qed.

Lemma bh_plug1 f t : is_Some (black_height (plug1 f t)) → is_Some (black_height t).
Proof.
  destruct f; simpl; destruct (black_height t); try done;
    intros [? [=]]; by destruct (black_height _).
Qed.

Lemma bh_plug ctx t : is_Some (black_height (plug ctx t)) → is_Some (black_height t).
Proof.
  revert t. induction ctx as [|f ctx IH]; intros t; [done|].
  simpl. intros H. by apply (bh_plug1 f), IH.
Qed.

Lemma bh_zero x : black_height x = Some O → x = E ∨ color_of_tree x = red.
Proof.
  destruct x as [|a [] l v r]; [by left| |by right].
  simpl. destruct (black_height l), (black_height r); try done. by case_decide.
Qed.

Lemma bh_no_left a c v r :
  is_Some (black_height (T a c E v r)) → black_height r = Some O.
Proof.
  simpl. destruct (black_height r) as [m|]; [|by intros [? [=]]].
  case_decide; [by subst|by intros [? [=]]].
Qed.

Lemma bh_no_right a c l v :
  is_Some (black_height (T a c l v E)) → black_height l = Some O.
Proof.
  simpl. destruct (black_height l) as [m|]; [|by intros [? [=]]].
  case_decide; [by subst|by intros [? [=]]].
Qed.

(** Below a node of a valid tree that is unlinked, the node handed to the
    fix-up is absent or red. *)
Lemma spliced_fix_red ctx a c l r og ctx1 x val :
  is_Some (black_height (plug ctx (T a c l val r))) →
  spliced ctx a c l r og ctx1 x →
  x = E ∨ color_of_tree x = red.
Proof.
  intros Hbh%bh_plug Hs. apply bh_zero.
  destruct Hs as [-> | Hl -> | sa sc sv sr Hl -> | f sctx sa sc sv sr Hl HF ->].
  - by eapply bh_no_left.
  - by eapply bh_no_right.
  - eapply bh_no_left. eapply (bh_plug [FR a c l val]). exact Hbh.
  - eapply bh_no_left. eapply (bh_plug ((f :: sctx) ++ [FR a c l val])).
    rewrite plug_app. exact Hbh.
Qed.

Lemma bh_sibling f a v :
  is_Some (black_height (plug1 f (T a black E v E))) → sibling [f] ≠ E.
Proof.
  destruct f as [p pc pv pr|p pc pl pv]; simpl.
  - destruct pr; [|done]. simpl. by intros [? [=]].
  - destruct pl; [|done]. simpl. by intros [? [=]].
Qed.

(** Where unlinking a black node of a valid tree leaves an absent position
    that is not the root, the sibling of that position is present. *)
Lemma spliced_sibling ctx a c l r ctx1 val :
  is_Some (black_height (plug ctx (T a c l val r))) →
  spliced ctx a c l r black ctx1 E →
  ctx1 ≠ [] → sibling ctx1 ≠ E.
Proof.
  intros Hbh Hs Hne. remember black as og eqn:Hog. remember E as x eqn:Hx.
  destruct Hs as [-> | Hl -> | sa sc sv sr Hl -> | f sctx sa sc sv sr Hl HF ->]; subst.
  - destruct ctx as [|f ctx]; [done|]. simpl in Hbh. apply bh_plug in Hbh.
    apply (bh_sibling f a val) in Hbh. by destruct f.
  - done.
  - done.
  - apply bh_plug in Hbh.
    apply (bh_plug [FR a c l val]) in Hbh. simpl in Hbh. apply bh_plug in Hbh.
    apply (bh_sibling f sa sv) in Hbh. by destruct f.
Qed.

(** On a red node the loop of [fixDelete] does not run: the fix-up blackens
    the root and returns. *)
Lemma fixDelete_red fuel ctx a l v r h nx ln :
  rep h (plug ctx (T a red l v r)) None →
  NoDup (addrs (plug ctx (T a red l v r))) →
  ∃ s', fixDelete fuel (Some a) (mkRB h nx (root_of (plug ctx (T a red l v r))) ln)
        = Ok (tt, s').
Proof.
  intros Hrep Hnd. unfold fixDelete. rewrite run_bind.
  assert (Hloop : fixDelete_loop fuel (Some a)
            (mkRB h nx (root_of (plug ctx (T a red l v r))) ln)
          = Ok (tt, mkRB h nx (root_of (plug ctx (T a red l v r))) ln)).
  { destruct ctx as [|f ctx].
    - destruct fuel; cbn [fixDelete_loop]; mrun; done.
    - pose proof (root_ne_inner _ _ _ _ _ _ _ Hnd) as Hne.
      pose proof Hrep as Hrep'; open_rep Hrep'.
      destruct fuel; cbn [fixDelete_loop]; rewrite run_get_root; cbn [root];
        rewrite (decide_False _ _ Hne); mrun;
        rewrite decide_False by (intros [_ [=]]); done. }
  rewrite Hloop.
  destruct (root_black_spec (mkRB h nx (root_of (plug ctx (T a red l v r))) ln) nx ln
              (plug ctx (T a red l v r))) as (t3 & h3 & Heq & _); [|done|].
  - exists (plug ctx (T a red l v r)). split_and!; [apply root_of_plug_T_ne|done..].
  - rewrite Heq. by eexists.
Qed.

(** ** Reachable trees

    [reach s vs]: the state [s] is what a sequence of calls of [Insert] and
    [Delete] that all returned has made of the empty tree, and [vs] are the
    values that sequence has stored: those inserted and not deleted since. *)

Fixpoint remove_one (v : Z) (vs : list Z) : list Z :=
  match vs with
  | [] => []
  | x :: vs' => if decide (x = v) then vs' else x :: remove_one v vs'
  end.

Inductive reach : RBTree → list Z → Prop :=
| reach_new : reach NewRBTree []
| reach_Insert s vs fuel v s' :
    reach s vs → Insert fuel v s = Ok (tt, s') → reach s' (v :: vs)
| reach_Delete s vs fuel v e s' :
    reach s vs → Delete fuel v s = Ok (e, s') →
    reach s' (if e is None then remove_one v vs else vs).

Lemma remove_one_perm v vs : v ∈ vs → vs ≡ₚ v :: remove_one v vs.
Proof.
  induction vs as [|x vs IH]; [by intros ?%elem_of_nil|].
  simpl. case_decide as Hx; [by subst|].
  intros [?|Hin]%elem_of_cons; [by subst|].
  rewrite (IH Hin) at 1. apply perm_swap.
Qed.

Lemma Inv_new : Inv NewRBTree E.
Proof.
  unfold Inv, NewRBTree; simpl. split_and!; try done; constructor.
Qed.

Lemma reach_Inv s vs : reach s vs → ∃ t, Inv s t ∧ values t ≡ₚ vs.
Proof.
  induction 1 as [|s vs fuel v s' _ (t & HI & Hp) Hrun|s vs fuel v e s' _ (t & HI & Hp) Hrun].
  - exists E. split; [apply Inv_new|done].
  - pose proof (Insert_spec s t v fuel HI) as Hs. rewrite Hrun in Hs.
    destruct Hs as (t' & HI' & Hp'). exists t'. split; [done|]. by rewrite Hp', Hp.
  - pose proof (Delete_spec s t v fuel HI) as Hs. rewrite Hrun in Hs. simpl in Hs.
    destruct e as [e|].
    + destruct Hs as [-> _]. by exists t.
    + destruct Hs as (Hin & _ & t' & HI' & Hp'). exists t'. split; [done|].
      rewrite Hp in Hin, Hp'. rewrite (remove_one_perm v vs Hin) in Hp'.
      by apply Permutation_cons_inv in Hp'.
Qed.

Lemma reach_size s vs t : reach s vs → Inv s t → size t = length vs.
Proof.
  intros (t' & HI' & Hp)%reach_Inv HI.
  assert (Z.of_nat (size t) = Z.of_nat (size t')) as Heq.
  { destruct HI as (_ & _ & _ & <- & _), HI' as (_ & _ & _ & <- & _). done. }
  apply Nat2Z.inj in Heq. rewrite Heq. unfold size, values in *.
  by rewrite <- Hp, length_fmap.
Qed.

(** Searching reads the arena and changes nothing. *)
Lemma findNode_from_frame fuel val : ∀ nd s r s',
  findNode_from fuel val nd s = Ok (r, s') → s' = s.
Proof.
  induction fuel as [|fuel IH]; intros [a|] s r s'; simpl; try done;
    try (by intros [= _ ->]).
  unfold field, load, ret, bind. destruct (arena s !! a) as [n|] eqn:Ha; [|done].
  destruct (value n =? val); [by intros [= _ ->]|].
  destruct (value n <? val); rewrite Ha; apply IH.
Qed.

(** A state represents at most one tree. *)
Lemma rep_inj h t : ∀ t' p p',
  rep h t p → rep h t' p' → root_of t = root_of t' → t = t'.
Proof.
  induction t as [|a c l IHl v r IHr]; intros [|a' c' l' v' r'] p p'; simpl; try done.
  intros (Ha & Hl & Hr) (Ha' & Hl' & Hr') [= <-].
  rewrite Ha in Ha'. injection Ha' as Hrl Hrr _ <- <-.
  by rewrite (IHl l' _ _ Hl Hl' Hrl), (IHr r' _ _ Hr Hr' Hrr).
Qed.

(** * The claims *)

(** ** Sample trees *)

Definition state_of (r : res (unit * RBTree)) : RBTree :=
  match r with Ok (_, s) => s | _ => NewRBTree end.

(** The trees made by inserting 1; 1, 2; and 1, 2, 3, 4 in that order. *)
Definition tree_1 : RBTree := state_of (inserts Insert 1 [1] NewRBTree).
Definition tree_12 : RBTree := state_of (inserts Insert 2 [1; 2] NewRBTree).
Definition tree_1234 : RBTree := state_of (inserts Insert 4 [1; 2; 3; 4] NewRBTree).

Lemma reach_inserts fuel vs : ∀ s ws s',
  reach s ws → inserts Insert fuel vs s = Ok (tt, s') → reach s' (rev vs ++ ws).
Proof.
  induction vs as [|v vs IH]; intros s ws s' Hr; simpl.
  - by intros [= <-].
  - rewrite run_bind. destruct (Insert fuel v s) as [[[] s1]| |] eqn:Hi; [|done..].
    intros Hrest. rewrite <- app_assoc. simpl.
    eapply IH; [|exact Hrest]. by eapply reach_Insert.
Qed.

Lemma reach_tree_1 : reach tree_1 [1].
Proof. apply (reach_inserts 1 [1] NewRBTree [] tree_1 reach_new). vm_compute. reflexivity. Qed.

Lemma reach_tree_12 : reach tree_12 [2; 1].
Proof. apply (reach_inserts 2 [1; 2] NewRBTree [] tree_12 reach_new). vm_compute. reflexivity. Qed.

Lemma reach_tree_1234 : reach tree_1234 [4; 3; 2; 1].
Proof. apply (reach_inserts 4 [1; 2; 3; 4] NewRBTree [] tree_1234 reach_new). vm_compute. reflexivity. Qed.

(** ** C6 to C10: extraction, search and insertion *)

(** C6: on every reachable tree, holding the stored values [vs],
    [GetValues] returns a sequence whose length is the result of [Len],
    which is in non-decreasing order and holds exactly the values [vs]
    (as a multiset); it does so whenever the traversal is given at least
    two steps per stored value. *)
Theorem C6_GetValues_sorted_stored s vs fuel :
  reach s vs → (2 * length vs ≤ fuel)%nat →
  ∃ out, GetValues fuel s = Ok (out, s)
         ∧ Len s = Ok (Z.of_nat (length out), s)
         ∧ StronglySorted Z.le out
         ∧ out ≡ₚ vs.
Proof.
  intros Hr Hfuel. destruct (reach_Inv s vs Hr) as (t & HI & Hp).
  pose proof (reach_size s vs t Hr HI) as Hsz.
  pose proof HI as (Hrep & Hnd & Hrt & Hln & _ & Hsort & _).
  pose proof (GetValues_spec s t fuel Hrep Hnd Hrt Hln) as Hg.
  destruct (GetValues fuel s) as [[out s']| |]; simpl in Hg; [|done|lia].
  destruct Hg as [-> ->]. exists (values t). split_and!; [done| |done|done].
  unfold Len, get_len. rewrite Hln. unfold values, size. by rewrite length_fmap.
Qed.

Lemma C6_witness :
  ∃ out, GetValues 4 tree_12 = Ok (out, tree_12)
         ∧ Len tree_12 = Ok (Z.of_nat (length out), tree_12)
         ∧ StronglySorted Z.le out
         ∧ out ≡ₚ [2; 1].
Proof.
  apply (C6_GetValues_sorted_stored tree_12 [2; 1] 4); [exact reach_tree_12|simpl; lia].
Defined.

(** C7: [GetValues] on a reachable tree never panics, and when it returns
    the whole state (every link, colour and parent pointer of the arena, the
    root and the length) is what it was before the call: each backlink the
    traversal wrote has been taken out again. *)
Theorem C7_GetValues_restores s vs fuel :
  reach s vs →
  match GetValues fuel s with
  | Ok (_, s') => s' = s
  | Panic _ => False
  | Timeout => (fuel < 2 * length vs)%nat
  end.
Proof.
  intros Hr. destruct (reach_Inv s vs Hr) as (t & HI & Hp).
  pose proof (reach_size s vs t Hr HI) as Hsz.
  pose proof HI as (Hrep & Hnd & Hrt & Hln & _ & Hsort & _).
  pose proof (GetValues_spec s t fuel Hrep Hnd Hrt Hln) as Hg.
  destruct (GetValues fuel s) as [[out s']| |]; simpl in Hg; [|done|lia].
  by destruct Hg.
Qed.

Lemma C7_witness :
  match GetValues 8 tree_1234 with
  | Ok (_, s') => s' = tree_1234
  | Panic _ => False
  | Timeout => (8 < 2 * length [4; 3; 2; 1])%nat
  end.
Proof. apply (C7_GetValues_restores tree_1234 [4; 3; 2; 1] 8). exact reach_tree_1234. Defined.

(** C8: on every tree on which [Exists v] returns false, [Delete v]
    returns [ErrValueDoesNotExist] and leaves the state as it was, so that
    [Len] and [GetValues] give afterwards what they gave before. *)
Theorem C8_Delete_absent s s' fuel v :
  Exists fuel v s = Ok (false, s') →
  ∃ s1, Delete fuel v s = Ok (Some ErrValueDoesNotExist, s1)
        ∧ s1 = s
        ∧ Len s1 = Len s
        ∧ ∀ f, GetValues f s1 = GetValues f s.
Proof.
  unfold Exists, Delete. rewrite !run_bind.
  destruct (findNode fuel v s) as [[nd s2]| |] eqn:Hf; [|done..].
  destruct nd as [a|]; [done|]. intros _.
  assert (s2 = s) as ->.
  { unfold findNode in Hf. rewrite run_get_root in Hf.
    by apply findNode_from_frame in Hf. }
  by exists s.
Qed.

Lemma C8_witness :
  ∃ s1, Delete 5 7 tree_1234 = Ok (Some ErrValueDoesNotExist, s1)
        ∧ s1 = tree_1234
        ∧ Len s1 = Len tree_1234
        ∧ ∀ f, GetValues f s1 = GetValues f tree_1234.
Proof. apply (C8_Delete_absent tree_1234 tree_1234 5 7). vm_compute. reflexivity. Defined.

(** C9: on every reachable tree [Insert v] returns once it is given more
    steps than there are stored values, and [Exists v] on the tree it leaves
    returns true (given one step more). *)
Theorem C9_Exists_after_Insert s vs v fuel fuel' :
  reach s vs → (length vs < fuel)%nat → (fuel < fuel')%nat →
  ∃ s', Insert fuel v s = Ok (tt, s') ∧ Exists fuel' v s' = Ok (true, s').
Proof.
  intros Hr Hfuel Hfuel'. destruct (reach_Inv s vs Hr) as (t & HI & Hp).
  pose proof (reach_size s vs t Hr HI) as Hsz.
  pose proof (Insert_spec s t v fuel HI) as Hi.
  destruct (Insert fuel v s) as [[[] s']| |]; simpl in Hi; [|done|lia].
  destruct Hi as (t' & HI' & Hp'). exists s'. split; [done|].
  pose proof (Exists_spec s' t' v fuel' HI') as He.
  assert (size t' = S (size t)) as Hsz'.
  { unfold size, values in *. apply Permutation_length in Hp'.
    rewrite !length_fmap in Hp'. simpl in Hp'. by rewrite length_fmap in Hp'. }
  destruct (Exists fuel' v s') as [[b s2]| |]; simpl in He; [|done|lia].
  destruct He as [-> Hb]. f_equal. f_equal. apply Hb. rewrite Hp'. set_solver.
Qed.

Lemma C9_witness :
  ∃ s', Insert 5 3 tree_1234 = Ok (tt, s') ∧ Exists 6 3 s' = Ok (true, s').
Proof.
  apply (C9_Exists_after_Insert tree_1234 [4; 3; 2; 1] 3 5 6);
    [exact reach_tree_1234|simpl; lia|lia].
Defined.

Lemma inserts_cons ins fuel v vs s :
  inserts ins fuel (v :: vs) s
  = match ins fuel v s with
    | Ok (_, s') => inserts ins fuel vs s'
    | Panic f => Panic f
    | Timeout => Timeout
    end.
Proof. reflexivity. Qed.

Lemma inserts_nil ins fuel s : inserts ins fuel [] s = Ok (tt, s).
Proof. reflexivity. Qed.

Lemma inserts_agree fuel vs : ∀ s t,
  Inv s t → inserts Prev.Insert fuel vs s = inserts Insert fuel vs s.
Proof.
  induction vs as [|v vs IH]; intros s t HI; [by rewrite !inserts_nil|].
  rewrite !inserts_cons, (Prev_Insert_eq s t v fuel HI).
  pose proof (Insert_spec s t v fuel HI) as Hi.
  destruct (Insert fuel v s) as [[[] s']| |]; cbn [outcome] in Hi; [|done..].
  destruct Hi as (t' & HI' & _). exact (IH s' t' HI').
Qed.

Lemma inserts_return fuel vs : ∀ s t,
  Inv s t → (size t + length vs ≤ fuel)%nat →
  ∃ s', inserts Insert fuel vs s = Ok (tt, s').
Proof.
  induction vs as [|v vs IH]; intros s t HI Hfuel;
    [exists s; apply inserts_nil|].
  rewrite inserts_cons. cbn [length] in Hfuel.
  pose proof (Insert_spec s t v fuel HI) as Hi.
  destruct (Insert fuel v s) as [[[] s']| |]; cbn [outcome] in Hi; [|done|lia].
  destruct Hi as (t' & HI' & Hp'). apply (IH s' t' HI').
  assert (size t' = S (size t)) as ->; [|lia].
  unfold size, values in *. apply Permutation_length in Hp'.
  rewrite !length_fmap in Hp'. cbn [length] in Hp'. by rewrite length_fmap in Hp'.
Qed.

(** C10: for every sequence [vs] of values inserted into the empty tree,
    [Insert] of [src/bst/rb.go] and [Insert] of [src/unnamed/part_000] end
    in the same state: the same arena (shape, values, colours, links), root
    and length; and both return when given as many steps as there are
    values. *)
Theorem C10_Insert_versions_agree vs :
  (∀ fuel, inserts Prev.Insert fuel vs NewRBTree = inserts Insert fuel vs NewRBTree)
  ∧ ∃ s, inserts Insert (length vs) vs NewRBTree = Ok (tt, s)
         ∧ inserts Prev.Insert (length vs) vs NewRBTree = Ok (tt, s).
Proof.
  split.
  - intros fuel. apply (inserts_agree fuel vs NewRBTree E Inv_new).
  - destruct (inserts_return (length vs) vs NewRBTree E Inv_new) as [s Hs];
      [unfold size; simpl; lia|].
    exists s. split; [done|]. by rewrite (inserts_agree _ vs NewRBTree E Inv_new).
Qed.

(** ** C1 to C5: deletion and rotations *)

(** The tree [tree_1234] as a term. *)
Definition shape_1234 : tree :=
  T 2%positive black (T 1%positive black E 1 E) 2
    (T 3%positive black E 3 (T 4%positive red E 4 E)).

(** What [Delete 3] leaves of [tree_1234]. *)
Definition tree_124 : RBTree :=
  match Delete 4 3 tree_1234 with Ok (_, s) => s | _ => NewRBTree end.

Definition shape_124 : tree :=
  T 2%positive black (T 1%positive black E 1 E) 2 (T 4%positive red E 4 E).

Lemma Inv_tree_1234 : Inv tree_1234 shape_1234.
Proof.
  unfold Inv. split_and!.
  - vm_compute. repeat split.
  - apply (bool_decide_unpack _). vm_compute. exact I.
  - vm_compute. reflexivity.
  - vm_compute. reflexivity.
  - apply (bool_decide_unpack _). vm_compute. exact I.
  - apply (bool_decide_unpack _). vm_compute. exact I.
  - done.
Qed.

(** C1: [Delete] does not run to completion on every valid red-black tree.
    [fixDelete] never returns normally when the node to fix is nil, whatever
    the state: it reads [nd.parent] through nil, or [rb.root.clr] through a
    nil root. The tree holding 1, 2, 3, 4 inserted in that order is a valid
    red-black tree in which 1 is a black node without children; [Delete 1]
    splices it out, passes nil to [fixDelete] and panics. *)
Theorem C1_Delete_nil_fixup_panics :
  (∀ fuel s r, fixDelete fuel None s ≠ Ok r)
  ∧ Inv tree_1234 shape_1234
  ∧ valid_rb shape_1234 = true
  ∧ Exists 4 1 tree_1234 = Ok (true, tree_1234)
  ∧ Delete 4 1 tree_1234 = Panic (NilDeref "nd").
Proof.
  split_and!.
  - intros fuel s r Hr. pose proof (fixDelete_nil fuel s) as Hn. by rewrite Hr in Hn.
  - exact Inv_tree_1234.
  - reflexivity.
  - vm_compute. reflexivity.
  - vm_compute. reflexivity.
Qed.

(** C2: the red-black properties do not survive every operation. From the
    valid tree holding 1, 2, 3, 4, [Delete 3] returns nil and leaves the
    black node 2 with the black child 1 and the red child 4: the paths
    below the root differ in their number of black nodes, so no tree that
    the state represents is a valid red-black tree. *)
Theorem C2_Delete_breaks_black_height :
  valid_rb shape_1234 = true
  ∧ ∃ s, Delete 4 3 tree_1234 = Ok (None, s)
         ∧ reach s [4; 2; 1]
         ∧ ∀ t, rep (arena s) t None → root s = root_of t → valid_rb t = false.
Proof.
  split; [reflexivity|].
  assert (Hd : Delete 4 3 tree_1234 = Ok (None, tree_124)) by (vm_compute; reflexivity).
  assert (rep (arena tree_124) shape_124 None) as Hrep1 by (vm_compute; repeat split).
  assert (root tree_124 = root_of shape_124) as Hrt1 by (vm_compute; reflexivity).
  exists tree_124. split_and!; [exact Hd| |].
  - exact (reach_Delete tree_1234 [4; 3; 2; 1] 4 3 None tree_124 reach_tree_1234 Hd).
  - intros t Hrep Hrt.
    rewrite (rep_inj (arena tree_124) t shape_124 None None Hrep Hrep1) by congruence.
    reflexivity.
Qed.

(** C3: [Delete] of a present value does not always return nil. On the
    tree holding the single value 1, [Exists 1] is true and [Delete 1]
    empties the tree, calls [fixDelete] with nil and panics on
    [rb.root.clr]. *)
Theorem C3_Delete_present_panics :
  reach tree_1 [1]
  ∧ Exists 2 1 tree_1 = Ok (true, tree_1)
  ∧ Delete 2 1 tree_1 = Panic (NilDeref "rb.root").
Proof.
  split_and!; [exact reach_tree_1|vm_compute; reflexivity..].
Qed.

(** X20: one [Delete] of a stored value on a valid red-black tree either
    returns nil or stops on the nil node to fix ([nd.parent]) or on the nil
    root ([rb.root.clr]); on such a tree it does not get as far as reading a
    sibling. Where it unlinks a black node and leaves an absent position
    below a parent, the other child of that parent is present in the
    tree. *)
Theorem X20_Delete_valid_tree_outcomes s t val fuel :
  Inv s t → valid_rb t = true → val ∈ values t →
  (∀ ctx a c l r ctx1,
     t = plug ctx (T a c l val r) → spliced ctx a c l r black ctx1 E →
     ctx1 ≠ [] → sibling ctx1 ≠ E)
  ∧ match Delete fuel val s with
    | Ok (e, _) => e = None
    | Panic f => f = NilDeref "nd" ∨ f = NilDeref "rb.root"
    | Timeout => (fuel ≤ size t)%nat
    end.
Proof.
  intros HI Hv%valid_rb_bh Hin. split.
  { intros ctx a c l r ctx1 -> Hsp Hne. by eapply spliced_sibling. }
  destruct (Delete_reduce s t val fuel HI)
    as [[-> Hlt] | [[-> Hni] | (ctx & a & c & l & r & og & ctx1 & x & h' & -> & Hsp & Hrep1 & ->)]];
    [lia|done|].
  destruct (spliced_inorder ctx a c l r og ctx1 x val Hsp) as (L & R & Hi & Hi1).
  assert (Hnd1 : NoDup (addrs (plug ctx1 x))).
  { unfold addrs. rewrite Hi1. apply (NoDup_fst_remove L R (a, val)).
    rewrite <- Hi. apply HI. }
  rewrite run_bind. destruct og; [|by rewrite decide_False].
  rewrite decide_True by done.
  destruct (spliced_fix_red ctx a c l r black ctx1 x val Hv Hsp) as [-> | Hred].
  - pose proof (fixDelete_nil fuel (mkRB h' (next s) (root_of (plug ctx1 E)) (len s - 1))) as Hn.
    cbn [root_of]. destruct (fixDelete fuel None _) as [[]| |]; [done|done|lia].
  - destruct x as [|xa [] xl xv xr]; [done..|].
    destruct (fixDelete_red fuel ctx1 xa xl xv xr h' (next s) (len s - 1) Hrep1 Hnd1)
      as [s3 Hs3].
    cbn [root_of]. by rewrite Hs3.
Qed.

Lemma X20_witness :
  (∀ ctx a c l r ctx1,
     shape_1234 = plug ctx (T a c l 3 r) → spliced ctx a c l r black ctx1 E →
     ctx1 ≠ [] → sibling ctx1 ≠ E)
  ∧ match Delete 4 3 tree_1234 with
    | Ok (e, _) => e = None
    | Panic f => f = NilDeref "nd" ∨ f = NilDeref "rb.root"
    | Timeout => (4 ≤ size shape_1234)%nat
    end.
Proof.
  apply (X20_Delete_valid_tree_outcomes tree_1234 shape_1234 3 4);
    [exact Inv_tree_1234|reflexivity|].
  vm_compute. set_solver.
Defined.

(** The rotations of the earlier version at the root: the promoted child
    becomes the root and is coloured black. *)
Lemma prev_rotateLeft_root h nx ln a c l v b cb bl bv br :
  rep h (T a c l v (T b cb bl bv br)) None →
  NoDup (addrs (T a c l v (T b cb bl bv br))) →
  ∃ h', Prev.rotateLeft (Some a) (mkRB h nx (Some a) ln)
        = Ok (tt, mkRB h' nx (Some b) ln)
      ∧ rep h' (T b black (T a c l v bl) bv br) None.
Proof.
  intros Hrep Hnd.
  change (rep h (plug [] (T a c l v (T b cb bl bv br))) None) in Hrep.
  change (NoDup (addrs (plug [] (T a c l v (T b cb bl bv br))))) in Hnd.
  destruct bl as [|x xc xl xv xr];
  open_rep Hrep; open_nodup Hnd; eexists;
  (split; [unfold Prev.rotateLeft; mrun; reflexivity|
           change (T b black ?l bv br) with (plug [] (T b black l bv br)); solve_rep]).
Qed.

Lemma prev_rotateRight_root h nx ln a c r v b cb bl bv br :
  rep h (T a c (T b cb bl bv br) v r) None →
  NoDup (addrs (T a c (T b cb bl bv br) v r)) →
  ∃ h', Prev.rotateRight (Some a) (mkRB h nx (Some a) ln)
        = Ok (tt, mkRB h' nx (Some b) ln)
      ∧ rep h' (T b black bl bv (T a c br v r)) None.
Proof.
  intros Hrep Hnd.
  change (rep h (plug [] (T a c (T b cb bl bv br) v r)) None) in Hrep.
  change (NoDup (addrs (plug [] (T a c (T b cb bl bv br) v r)))) in Hnd.
  destruct br as [|x xc xl xv xr];
  open_rep Hrep; open_nodup Hnd; eexists;
  (split; [unfold Prev.rotateRight; mrun; reflexivity|
           change (T b black bl bv ?r) with (plug [] (T b black bl bv r)); solve_rep]).
Qed.

(** C5 (as amended): when the rotated node [a] has no parent, both versions
    make the promoted child [b] the root. The rotations of
    [src/unnamed/part_000] colour it black; those of [src/bst/rb.go] relink
    through [replace] and leave every colour as it was, so [b] keeps its
    colour [cb]. *)
Theorem C5_rotation_root_colour :
  (∀ h nx ln a c l v b cb bl bv br,
     rep h (T a c l v (T b cb bl bv br)) None →
     NoDup (addrs (T a c l v (T b cb bl bv br))) →
     ∃ h1 h2,
       Prev.rotateLeft (Some a) (mkRB h nx (Some a) ln) = Ok (tt, mkRB h1 nx (Some b) ln)
       ∧ rep h1 (T b black (T a c l v bl) bv br) None
       ∧ rotateLeft (Some a) (mkRB h nx (Some a) ln) = Ok (tt, mkRB h2 nx (Some b) ln)
       ∧ rep h2 (T b cb (T a c l v bl) bv br) None)
  ∧ (∀ h nx ln a c r v b cb bl bv br,
     rep h (T a c (T b cb bl bv br) v r) None →
     NoDup (addrs (T a c (T b cb bl bv br) v r)) →
     ∃ h1 h2,
       Prev.rotateRight (Some a) (mkRB h nx (Some a) ln) = Ok (tt, mkRB h1 nx (Some b) ln)
       ∧ rep h1 (T b black bl bv (T a c br v r)) None
       ∧ rotateRight (Some a) (mkRB h nx (Some a) ln) = Ok (tt, mkRB h2 nx (Some b) ln)
       ∧ rep h2 (T b cb bl bv (T a c br v r)) None).
Proof.
  split.
  - intros h nx ln a c l v b cb bl bv br Hrep Hnd.
    destruct (prev_rotateLeft_root h nx ln a c l v b cb bl bv br Hrep Hnd) as (h1 & E1 & R1).
    destruct (rotateLeft_spec h nx (Some a) ln [] a c l v b cb bl bv br Hrep Hnd eq_refl)
      as (h2 & E2 & R2).
    by exists h1, h2.
  - intros h nx ln a c r v b cb bl bv br Hrep Hnd.
    destruct (prev_rotateRight_root h nx ln a c r v b cb bl bv br Hrep Hnd) as (h1 & E1 & R1).
    destruct (rotateRight_spec h nx (Some a) ln [] a c r v b cb bl bv br Hrep Hnd eq_refl)
      as (h2 & E2 & R2).
    by exists h1, h2.
Qed.

Lemma C5_witness :
  ∃ h1 h2,
    Prev.rotateLeft (Some 1%positive) (mkRB (arena tree_12) 3%positive (Some 1%positive) 2)
      = Ok (tt, mkRB h1 3%positive (Some 2%positive) 2)
    ∧ rep h1 (T 2%positive black (T 1%positive black E 1 E) 2 E) None
    ∧ rotateLeft (Some 1%positive) (mkRB (arena tree_12) 3%positive (Some 1%positive) 2)
      = Ok (tt, mkRB h2 3%positive (Some 2%positive) 2)
    ∧ rep h2 (T 2%positive red (T 1%positive black E 1 E) 2 E) None.
Proof.
  apply (proj1 C5_rotation_root_colour (arena tree_12) 3%positive 2
           1%positive black E 1 2%positive red E 2 E).
  - vm_compute. repeat split.
  - apply (bool_decide_unpack _). vm_compute. exact I.
Defined.

(** C5 as stated fails for [src/bst/rb.go]: in the tree holding 1 and 2 the
    root has no parent and a red right child; [rotateLeft] on the root makes
    that child the root and leaves it red. *)
Lemma C5_counterexample :
  ∃ s' b n,
    field "nd" (root tree_12) parent tree_12 = Ok (None, tree_12)
    ∧ rotateLeft (root tree_12) tree_12 = Ok (tt, s')
    ∧ root s' = Some b ∧ root s' ≠ root tree_12
    ∧ arena s' !! b = Some n ∧ clr n = red.
Proof.
  exists (state_of (rotateLeft (root tree_12) tree_12)), 2%positive.
  eexists. split_and!; [vm_compute; reflexivity..| |vm_compute; reflexivity|reflexivity].
  vm_compute. discriminate.
Qed.

(** * Further properties of the code *)

Lemma GetValues_Inv s t fuel :
  Inv s t → (2 * size t ≤ fuel)%nat → GetValues fuel s = Ok (values t, s).
Proof.
  intros (Hrep & Hnd & Hrt & Hln & _) Hfuel.
  pose proof (GetValues_spec s t fuel Hrep Hnd Hrt Hln) as Hg.
  destruct (GetValues fuel s) as [[out s']| |]; simpl in Hg; [|done|lia].
  by destruct Hg as [-> ->].
Qed.

Lemma size_values t : size t = length (values t).
Proof. unfold size, values. by rewrite length_fmap. Qed.

Lemma Inv_size_len s t : Inv s t → len s = Z.of_nat (length (values t)).
Proof. intros (_ & _ & _ & -> & _). unfold size, values. by rewrite length_fmap. Qed.

(** X1: [Insert] on a reachable tree returns once it has more steps than
    there are stored values; it adds one to the length and one occurrence of
    the value to the contents, whether or not the value was there already:
    [GetValues] afterwards returns the old values and the new one, in
    order. *)
Theorem X1_Insert_adds_one s vs v fuel :
  reach s vs → (length vs < fuel)%nat →
  ∃ s', Insert fuel v s = Ok (tt, s')
        ∧ len s' = len s + 1
        ∧ ∃ out, GetValues (2 * S (length vs)) s' = Ok (out, s')
                 ∧ StronglySorted Z.le out ∧ out ≡ₚ v :: vs.
Proof.
  intros Hr Hfuel. destruct (reach_Inv s vs Hr) as (t & HI & Hp).
  pose proof (reach_size s vs t Hr HI) as Hsz.
  pose proof (Insert_spec s t v fuel HI) as Hi.
  destruct (Insert fuel v s) as [[[] s']| |]; simpl in Hi; [|done|lia].
  destruct Hi as (t' & HI' & Hp'). exists s'. split; [done|].
  pose proof (Permutation_length Hp') as Hlen. simpl in Hlen.
  split.
  - rewrite (Inv_size_len s t HI), (Inv_size_len s' t' HI'), Hlen. lia.
  - exists (values t'). split_and!.
    + apply GetValues_Inv; [done|]. rewrite size_values in *. lia.
    + apply HI'.
    + by rewrite Hp', Hp.
Qed.

Lemma X1_witness :
  ∃ s', Insert 5 2 tree_1234 = Ok (tt, s')
        ∧ len s' = len tree_1234 + 1
        ∧ ∃ out, GetValues (2 * S (length [4; 3; 2; 1])) s' = Ok (out, s')
                 ∧ StronglySorted Z.le out ∧ out ≡ₚ 2 :: [4; 3; 2; 1].
Proof.
  apply (X1_Insert_adds_one tree_1234 [4; 3; 2; 1] 2 5); [exact reach_tree_1234|simpl; lia].
Defined.

(** X2: whenever [Delete] returns nil on a reachable tree, the value was
    stored, the length has dropped by one, and the tree is still in order
    and holds the former values less one occurrence of the deleted one. *)
Theorem X2_Delete_removes_one s vs v fuel s' :
  reach s vs → Delete fuel v s = Ok (None, s') →
  v ∈ vs ∧ len s' = len s - 1
  ∧ ∃ out, GetValues (2 * length vs) s' = Ok (out, s')
           ∧ StronglySorted Z.le out ∧ out ≡ₚ remove_one v vs.
Proof.
  intros Hr Hd. destruct (reach_Inv s vs Hr) as (t & HI & Hp).
  pose proof (reach_size s vs t Hr HI) as Hsz.
  pose proof (Delete_spec s t v fuel HI) as Hs. rewrite Hd in Hs. simpl in Hs.
  destruct Hs as (Hin & Hlen & t' & HI' & Hp'). rewrite Hp in Hin.
  split_and!; [done..|]. exists (values t'). split_and!.
  - apply GetValues_Inv; [done|]. pose proof (Permutation_length Hp') as Hl.
    rewrite size_values in *. simpl in Hl. lia.
  - apply HI'.
  - rewrite Hp, (remove_one_perm v vs Hin) in Hp'. by apply Permutation_cons_inv in Hp'.
Qed.

Lemma X2_witness :
  3 ∈ [4; 3; 2; 1] ∧ len tree_124 = len tree_1234 - 1
  ∧ ∃ out, GetValues (2 * length [4; 3; 2; 1]) tree_124 = Ok (out, tree_124)
           ∧ StronglySorted Z.le out ∧ out ≡ₚ remove_one 3 [4; 3; 2; 1].
Proof.
  apply (X2_Delete_removes_one tree_1234 [4; 3; 2; 1] 3 4 tree_124);
    [exact reach_tree_1234|vm_compute; reflexivity].
Defined.

(** X3: on a reachable tree [Delete] returns its error only for a value
    that is not stored, and then leaves the state untouched. *)
Theorem X3_Delete_error_only_if_absent s vs v fuel e s' :
  reach s vs → Delete fuel v s = Ok (Some e, s') → v ∉ vs ∧ s' = s.
Proof.
  intros Hr Hd. destruct (reach_Inv s vs Hr) as (t & HI & Hp).
  pose proof (Delete_spec s t v fuel HI) as Hs. rewrite Hd in Hs. simpl in Hs.
  destruct Hs as [-> Hni]. by rewrite <- Hp.
Qed.

Lemma X3_witness : 7 ∉ [4; 3; 2; 1] ∧ tree_1234 = tree_1234.
Proof.
  apply (X3_Delete_error_only_if_absent tree_1234 [4; 3; 2; 1] 7 4
           ErrValueDoesNotExist tree_1234);
    [exact reach_tree_1234|vm_compute; reflexivity].
Defined.

(** X4: on a reachable tree [Exists] answers whether the value is among
    the stored ones, changes nothing, and needs no more steps than one more
    than the number of stored values. *)
Theorem X4_Exists_iff_stored s vs v fuel :
  reach s vs → (length vs < fuel)%nat →
  Exists fuel v s = Ok (bool_decide (v ∈ vs), s).
Proof.
  intros Hr Hfuel. destruct (reach_Inv s vs Hr) as (t & HI & Hp).
  pose proof (reach_size s vs t Hr HI) as Hsz.
  pose proof (Exists_spec s t v fuel HI) as He.
  destruct (Exists fuel v s) as [[b s']| |]; simpl in He; [|done|lia].
  destruct He as [-> Hb]. f_equal. f_equal. rewrite Hp in Hb.
  destruct b; symmetry.
  - apply bool_decide_eq_true. by apply Hb.
  - apply bool_decide_eq_false. intros Hin. by apply Hb in Hin.
Qed.

Lemma X4_witness : Exists 5 3 tree_1234 = Ok (bool_decide (3 ∈ [4; 3; 2; 1]), tree_1234).
Proof.
  apply (X4_Exists_iff_stored tree_1234 [4; 3; 2; 1] 3 5); [exact reach_tree_1234|simpl; lia].
Defined.

(** X5: on a reachable tree [Len] is the number of stored values: each
    [Insert] that returned has added one and each [Delete] that returned nil
    has taken one away. *)
Theorem X5_Len_counts_stored s vs :
  reach s vs → Len s = Ok (Z.of_nat (length vs), s).
Proof.
  intros Hr. destruct (reach_Inv s vs Hr) as (t & HI & Hp).
  unfold Len, get_len. by rewrite (Inv_size_len s t HI), Hp.
Qed.

Lemma X5_witness : Len tree_1234 = Ok (Z.of_nat (length [4; 3; 2; 1]), tree_1234).
Proof. apply (X5_Len_counts_stored tree_1234 [4; 3; 2; 1]). exact reach_tree_1234. Defined.

Lemma findNode_from_value fuel val : ∀ nd s a s',
  findNode_from fuel val nd s = Ok (Some a, s') →
  ∃ n, arena s !! a = Some n ∧ value n = val.
Proof.
  induction fuel as [|fuel IH]; intros [b|] s a s'; simpl; try done.
  unfold field, load, ret, bind. destruct (arena s !! b) as [n|] eqn:Hb; [|done].
  destruct (value n =? val) eqn:Hv.
  - intros [= <- _]. apply Z.eqb_eq in Hv. by exists n.
  - destruct (value n <? val); rewrite Hb; apply IH.
Qed.

(** X6: in any state whatever, a node that [findNode] returns is a node of
    the arena holding the value searched for, and the search has changed
    nothing. *)
Theorem X6_findNode_holds_value fuel v s a s' :
  findNode fuel v s = Ok (Some a, s') →
  s' = s ∧ ∃ n, arena s !! a = Some n ∧ value n = v.
Proof.
  unfold findNode. rewrite run_get_root. intros Hf. split.
  - by apply findNode_from_frame in Hf.
  - by apply findNode_from_value in Hf.
Qed.

Lemma X6_witness :
  tree_1234 = tree_1234 ∧ ∃ n, arena tree_1234 !! 3%positive = Some n ∧ value n = 3.
Proof.
  apply (X6_findNode_holds_value 4 3 tree_1234 3%positive tree_1234).
  vm_compute. reflexivity.
Defined.

Lemma prev_Exists_from_eq fuel val : ∀ nd s,
  Prev.Exists_from fuel val nd s
  = bind (findNode_from fuel val nd) (λ r, ret (if r is Some _ then true else false)) s.
Proof.
  induction fuel as [|fuel IH]; intros [b|] s; simpl; try done.
  unfold field, load, ret, bind. destruct (arena s !! b) as [n|] eqn:Hb; [|done].
  rewrite (Z.eqb_sym val), Z.gtb_ltb.
  destruct (value n =? val); [done|].
  destruct (value n <? val); rewrite Hb; rewrite IH; done.
Qed.

(** X7: the search loop that [Exists] of [src/unnamed/part_000] carries
    itself and the [findNode] that [Exists] of [src/bst/rb.go] calls give
    the same answer, panic or timeout in every state. *)
Theorem X7_Exists_versions_agree fuel v s :
  Prev.Exists fuel v s = Exists fuel v s.
Proof.
  unfold Prev.Exists, Exists, findNode.
  rewrite run_assoc, !run_get_root. apply prev_Exists_from_eq.
Qed.

Lemma rotate_round_trip h nx ln ctx a c l v b cb bl bv br :
  rep h (plug ctx (T a c l v (T b cb bl bv br))) None →
  NoDup (addrs (plug ctx (T a c l v (T b cb bl bv br)))) →
  (exec rotateLeft (Some a);; rotateRight (Some b))
    (mkRB h nx (root_of (plug ctx (T a c l v (T b cb bl bv br)))) ln)
  = Ok (tt, mkRB h nx (root_of (plug ctx (T a c l v (T b cb bl bv br)))) ln).
Proof.
  intros Hrep Hnd.
  destruct ctx as [|[pa pc pv pr|pa pc pl pv] ctx]; destruct bl as [|x xc xl xv xr];
  open_rep Hrep; open_nodup Hnd.
  all: unfold rotateLeft, rotateRight, replace; mrun.
  all: apply ok_eq; [|first [reflexivity | solve_root]].
  all: apply map_eq; intros i; rewrite !lookup_insert; repeat case_decide; subst;
    first [congruence | symmetry; assumption].
Qed.

(** X8: [rotateLeft] on a node [a] with right child [b], anywhere in a
    tree, returns with [b] in the place of [a], [a] as left child of [b] and
    the former left subtree of [b] as right subtree of [a]; colours and
    values stay with their nodes and the in-order sequence of the tree is
    what it was. *)
Theorem X8_rotateLeft_keeps_order h nx ln ctx a c l v b cb bl bv br :
  rep h (plug ctx (T a c l v (T b cb bl bv br))) None →
  NoDup (addrs (plug ctx (T a c l v (T b cb bl bv br)))) →
  ∃ h', rotateLeft (Some a) (mkRB h nx (root_of (plug ctx (T a c l v (T b cb bl bv br)))) ln)
        = Ok (tt, mkRB h' nx (root_of (plug ctx (T b cb (T a c l v bl) bv br))) ln)
      ∧ rep h' (plug ctx (T b cb (T a c l v bl) bv br)) None
      ∧ inorder (plug ctx (T b cb (T a c l v bl) bv br))
        = inorder (plug ctx (T a c l v (T b cb bl bv br))).
Proof.
  intros Hrep Hnd.
  destruct (rotateLeft_spec h nx _ ln ctx a c l v b cb bl bv br Hrep Hnd eq_refl)
    as (h' & Heq & Hrep').
  exists h'. split_and!; [done..|]. apply inorder_rot.
Qed.

Lemma X8_witness :
  ∃ h', rotateLeft (Some 2%positive)
          (mkRB (arena tree_1234) 5%positive
             (root_of (plug [] (T 2%positive black (T 1%positive black E 1 E) 2
                                  (T 3%positive black E 3 (T 4%positive red E 4 E))))) 4)
        = Ok (tt, mkRB h' 5%positive
                    (root_of (plug [] (T 3%positive black
                                         (T 2%positive black (T 1%positive black E 1 E) 2 E)
                                         3 (T 4%positive red E 4 E)))) 4)
      ∧ rep h' (plug [] (T 3%positive black
                           (T 2%positive black (T 1%positive black E 1 E) 2 E)
                           3 (T 4%positive red E 4 E))) None
      ∧ inorder (plug [] (T 3%positive black
                            (T 2%positive black (T 1%positive black E 1 E) 2 E)
                            3 (T 4%positive red E 4 E)))
        = inorder (plug [] (T 2%positive black (T 1%positive black E 1 E) 2
                              (T 3%positive black E 3 (T 4%positive red E 4 E)))).
Proof.
  apply (X8_rotateLeft_keeps_order (arena tree_1234) 5%positive 4 []
           2%positive black (T 1%positive black E 1 E) 2
           3%positive black E 3 (T 4%positive red E 4 E)).
  - vm_compute. repeat split.
  - apply (bool_decide_unpack _). vm_compute. exact I.
Defined.

(** X9: [rotateRight] on a node [a] with left child [b], anywhere in a
    tree, returns with [b] in the place of [a], [a] as right child of [b]
    and the former right subtree of [b] as left subtree of [a]; the in-order
    sequence of the tree is what it was. *)
Theorem X9_rotateRight_keeps_order h nx ln ctx a c r v b cb bl bv br :
  rep h (plug ctx (T a c (T b cb bl bv br) v r)) None →
  NoDup (addrs (plug ctx (T a c (T b cb bl bv br) v r))) →
  ∃ h', rotateRight (Some a) (mkRB h nx (root_of (plug ctx (T a c (T b cb bl bv br) v r))) ln)
        = Ok (tt, mkRB h' nx (root_of (plug ctx (T b cb bl bv (T a c br v r)))) ln)
      ∧ rep h' (plug ctx (T b cb bl bv (T a c br v r))) None
      ∧ inorder (plug ctx (T b cb bl bv (T a c br v r)))
        = inorder (plug ctx (T a c (T b cb bl bv br) v r)).
Proof.
  intros Hrep Hnd.
  destruct (rotateRight_spec h nx _ ln ctx a c r v b cb bl bv br Hrep Hnd eq_refl)
    as (h' & Heq & Hrep').
  exists h'. split_and!; [done..|]. apply inorder_rot_right.
Qed.

Lemma X9_witness :
  ∃ h', rotateRight (Some 2%positive)
          (mkRB (arena tree_1234) 5%positive
             (root_of (plug [] (T 2%positive black (T 1%positive black E 1 E) 2
                                  (T 3%positive black E 3 (T 4%positive red E 4 E))))) 4)
        = Ok (tt, mkRB h' 5%positive
                    (root_of (plug [] (T 1%positive black E 1
                                         (T 2%positive black E 2
                                            (T 3%positive black E 3 (T 4%positive red E 4 E)))))) 4)
      ∧ rep h' (plug [] (T 1%positive black E 1
                           (T 2%positive black E 2
                              (T 3%positive black E 3 (T 4%positive red E 4 E))))) None
      ∧ inorder (plug [] (T 1%positive black E 1
                            (T 2%positive black E 2
                               (T 3%positive black E 3 (T 4%positive red E 4 E)))))
        = inorder (plug [] (T 2%positive black (T 1%positive black E 1 E) 2
                              (T 3%positive black E 3 (T 4%positive red E 4 E)))).
Proof.
  apply (X9_rotateRight_keeps_order (arena tree_1234) 5%positive 4 []
           2%positive black (T 3%positive black E 3 (T 4%positive red E 4 E)) 2
           1%positive black E 1 E).
  - vm_compute. repeat split.
  - apply (bool_decide_unpack _). vm_compute. exact I.
Defined.

(** X10: [rotateRight] on the promoted child undoes [rotateLeft]: after
    [rotateLeft(a)] and then [rotateRight(b)], [b] the former right child of
    [a], the state is exactly the state before, cell by cell. *)
Theorem X10_rotateLeft_rotateRight_round_trip h nx ln ctx a c l v b cb bl bv br :
  rep h (plug ctx (T a c l v (T b cb bl bv br))) None →
  NoDup (addrs (plug ctx (T a c l v (T b cb bl bv br)))) →
  (exec rotateLeft (Some a);; rotateRight (Some b))
    (mkRB h nx (root_of (plug ctx (T a c l v (T b cb bl bv br)))) ln)
  = Ok (tt, mkRB h nx (root_of (plug ctx (T a c l v (T b cb bl bv br)))) ln).
Proof. apply rotate_round_trip. Qed.

Lemma X10_witness :
  (exec rotateLeft (Some 2%positive);; rotateRight (Some 3%positive))
    (mkRB (arena tree_1234) 5%positive
       (root_of (plug [] (T 2%positive black (T 1%positive black E 1 E) 2
                            (T 3%positive black E 3 (T 4%positive red E 4 E))))) 4)
  = Ok (tt, mkRB (arena tree_1234) 5%positive
              (root_of (plug [] (T 2%positive black (T 1%positive black E 1 E) 2
                                   (T 3%positive black E 3 (T 4%positive red E 4 E))))) 4).
Proof.
  apply (X10_rotateLeft_rotateRight_round_trip (arena tree_1234) 5%positive 4 []
           2%positive black (T 1%positive black E 1 E) 2
           3%positive black E 3 (T 4%positive red E 4 E)).
  - vm_compute. repeat split.
  - apply (bool_decide_unpack _). vm_compute. exact I.
Defined.

(** X11: [replace(nd, sub)] with [sub] a child of [nd] (or nil for an
    absent child) puts that child in the place of [nd]: the parent of [nd],
    or the root when there is none, now points to it, and it points back.
    The cell of [nd] itself is left as it was. *)
Theorem X11_replace_by_child h nx ln ctx a c l v r x :
  rep h (plug ctx (T a c l v r)) None →
  NoDup (addrs (plug ctx (T a c l v r))) →
  x = l ∨ x = r →
  ∃ h', replace (Some a) (root_of x) (mkRB h nx (root_of (plug ctx (T a c l v r))) ln)
        = Ok (tt, mkRB h' nx (root_of (plug ctx x)) ln)
      ∧ rep h' (plug ctx x) None ∧ h' !! a = h !! a.
Proof. intros Hrep Hnd Hx. by apply (replace_child_spec h nx _ ln ctx a c l v r x). Qed.

Lemma X11_witness :
  ∃ h', replace (Some 3%positive) (root_of (T 4%positive red E 4 E))
          (mkRB (arena tree_1234) 5%positive
             (root_of (plug [FR 2%positive black (T 1%positive black E 1 E) 2]
                         (T 3%positive black E 3 (T 4%positive red E 4 E)))) 4)
        = Ok (tt, mkRB h' 5%positive
                    (root_of (plug [FR 2%positive black (T 1%positive black E 1 E) 2]
                                (T 4%positive red E 4 E))) 4)
      ∧ rep h' (plug [FR 2%positive black (T 1%positive black E 1 E) 2]
                  (T 4%positive red E 4 E)) None
      ∧ h' !! 3%positive = arena tree_1234 !! 3%positive.
Proof.
  apply (X11_replace_by_child (arena tree_1234) 5%positive 4
           [FR 2%positive black (T 1%positive black E 1 E) 2]
           3%positive black E 3 (T 4%positive red E 4 E) (T 4%positive red E 4 E)).
  - vm_compute. repeat split.
  - apply (bool_decide_unpack _). vm_compute. exact I.
  - by right.
Defined.

(** X12: [getMin] on a node returns the first node of its subtree in
    in-order (the end of the chain of left links) and changes nothing; in a
    subtree whose values are in order no value is below the one it holds.
    It needs one step per left link. *)
Theorem X12_getMin_first_in_order h nx rt ln ctx b c l v r fuel :
  rep h (plug ctx (T b c l v r)) None → (size l < fuel)%nat →
  ∃ sa sv rest,
    getMin fuel (Some b) (mkRB h nx rt ln) = Ok (Some sa, mkRB h nx rt ln)
    ∧ inorder (T b c l v r) = (sa, sv) :: rest
    ∧ (StronglySorted Z.le (values (T b c l v r)) →
       Forall (Z.le sv) (values (T b c l v r))).
Proof.
  intros Hrep Hfuel.
  pose proof (getMin_spec h nx rt ln l b c v r ctx fuel Hrep) as Hg.
  destruct (getMin fuel (Some b) _) as [[nd s']| |]; simpl in Hg; [|done|lia].
  destruct Hg as (-> & sctx & sa & sc & sv & sr & -> & Heq & HF).
  exists sa, sv, (inorder (plug sctx sr)). split; [done|].
  rewrite Heq. unfold values. rewrite inorder_plug_min by done. split; [done|].
  rewrite fmap_cons. intros [Hs Hall]%StronglySorted_cons.
  constructor; [simpl; lia|done].
Qed.

Lemma X12_witness :
  ∃ sa sv rest,
    getMin 3 (Some 2%positive) (mkRB (arena tree_1234) 5%positive (Some 2%positive) 4)
      = Ok (Some sa, mkRB (arena tree_1234) 5%positive (Some 2%positive) 4)
    ∧ inorder (T 2%positive black (T 1%positive black E 1 E) 2
                 (T 3%positive black E 3 (T 4%positive red E 4 E))) = (sa, sv) :: rest
    ∧ (StronglySorted Z.le (values (T 2%positive black (T 1%positive black E 1 E) 2
                                      (T 3%positive black E 3 (T 4%positive red E 4 E)))) →
       Forall (Z.le sv) (values (T 2%positive black (T 1%positive black E 1 E) 2
                                   (T 3%positive black E 3 (T 4%positive red E 4 E))))).
Proof.
  apply (X12_getMin_first_in_order (arena tree_1234) 5%positive (Some 2%positive) 4 []
           2%positive black (T 1%positive black E 1 E) 2
           (T 3%positive black E 3 (T 4%positive red E 4 E)) 3).
  - vm_compute. repeat split.
  - vm_compute. lia.
Defined.

(** X13: whenever [fixDelete] returns from a call on a node of a tree, of
    whatever shape and colouring, the state still represents a tree with
    the same nodes and values in the same in-order sequence, its root is
    black, and [len] is untouched: recolouring and rotating lose and
    duplicate nothing. *)
Theorem X13_fixDelete_keeps_contents fuel ctx a c l v r s s' :
  rep (arena s) (plug ctx (T a c l v r)) None →
  NoDup (addrs (plug ctx (T a c l v r))) →
  root s = root_of (plug ctx (T a c l v r)) →
  fixDelete fuel (Some a) s = Ok (tt, s') →
  ∃ t', rep (arena s') t' None ∧ root s' = root_of t'
        ∧ inorder t' = inorder (plug ctx (T a c l v r))
        ∧ color_of_tree t' = black
        ∧ len s' = len s ∧ next s' = next s.
Proof.
  destruct s as [h nx rt ln]. cbn [arena root len next]. intros Hrep Hnd Hrt Hrun.
  pose proof (fixDelete_spec fuel ctx a c l v r h nx rt ln Hrep Hnd Hrt) as Hs.
  rewrite Hrun in Hs. simpl in Hs. destruct Hs as (t3 & Hs' & Hrep3 & Hin3 & Hb3).
  exists t3. rewrite Hs'. cbn [arena root len next]. by split_and!.
Qed.

Lemma X13_witness :
  ∃ t', rep (arena (state_of (fixDelete 4 (Some 1%positive) tree_1234))) t' None
        ∧ root (state_of (fixDelete 4 (Some 1%positive) tree_1234)) = root_of t'
        ∧ inorder t' = inorder (plug [FL 2%positive black 2
                                        (T 3%positive black E 3 (T 4%positive red E 4 E))]
                                  (T 1%positive black E 1 E))
        ∧ color_of_tree t' = black
        ∧ len (state_of (fixDelete 4 (Some 1%positive) tree_1234)) = len tree_1234
        ∧ next (state_of (fixDelete 4 (Some 1%positive) tree_1234)) = next tree_1234.
Proof.
  apply (X13_fixDelete_keeps_contents 4
           [FL 2%positive black 2 (T 3%positive black E 3 (T 4%positive red E 4 E))]
           1%positive black E 1 E tree_1234).
  - vm_compute. repeat split.
  - apply (bool_decide_unpack _). vm_compute. exact I.
  - vm_compute. reflexivity.
  - vm_compute. reflexivity.
Defined.

(** ** Insertion keeps the red-black properties

    One pass through the loop of [fixInsert], on trees: the node [nd] is
    red and so is its parent [fp]; [fg] is the grandparent. The result is
    the new node to look at with the frames that replace [fp] and [fg]. *)

Definition blacken (t : tree) : tree :=
  match t with E => E | T a _ l v r => T a black l v r end.

Definition fix_step (fp fg : frame) (nd : tree) : list frame * tree :=
  match nd with
  | E => ([fp; fg], E)
  | T a _ l v r =>
      match fg, fp with
      | FL g _ gv u, FL p _ pv pr =>
          if color_of_tree u is red
          then ([], T g red (T p black (T a red l v r) pv pr) gv (blacken u))
          else ([FL p black pv (T g red pr gv u)], T a red l v r)
      | FL g _ gv u, FR p _ pl pv =>
          if color_of_tree u is red
          then ([], T g red (T p black pl pv (T a red l v r)) gv (blacken u))
          else ([FL a black v (T g red r gv u)], T p red pl pv l)
      | FR g _ u gv, FL p _ pv pr =>
          if color_of_tree u is red
          then ([], T g red (blacken u) gv (T p black (T a red l v r) pv pr))
          else ([FR a black (T g red u gv l) v], T p red r pv pr)
      | FR g _ u gv, FR p _ pl pv =>
          if color_of_tree u is red
          then ([], T g red (blacken u) gv (T p black pl pv (T a red l v r)))
          else ([FR p black (T g red u gv pl) pv], T a red l v r)
      end
  end.

(** The state of the loop: every red node has black children, except that
    the red node at the hole may have a red parent; black heights agree. *)
Definition almost (ctx : list frame) (nd : tree) : Prop :=
  color_of_tree nd = red
  ∧ no_red_red nd = true
  ∧ no_red_red (plug ctx (blacken nd)) = true
  ∧ is_Some (black_height (plug ctx nd)).

Lemma nrr_plug_mono ctx : ∀ t1 t2,
  (color_of_tree t1 = black → color_of_tree t2 = black) →
  (no_red_red t1 = true → no_red_red t2 = true) →
  no_red_red (plug ctx t1) = true → no_red_red (plug ctx t2) = true.
Proof.
  induction ctx as [|f ctx IH]; intros t1 t2 Hc Hn; [done|].
  simpl. apply IH; [by destruct f|].
  destruct f as [a [] v r|a [] l v]; simpl; rewrite ?andb_true_iff, ?bool_decide_eq_true;
    naive_solver.
Qed.

Lemma bh_plug_mono ctx : ∀ t1 t2,
  (∀ n, black_height t1 = Some n → black_height t2 = Some n) →
  ∀ n, black_height (plug ctx t1) = Some n → black_height (plug ctx t2) = Some n.
Proof.
  induction ctx as [|f ctx IH]; intros t1 t2 Hb; [done|].
  simpl. apply IH. intros n.
  destruct f as [a c v r|a c l v]; simpl.
  - destruct (black_height t1) as [m|]; [|done]. by rewrite (Hb m eq_refl).
  - destruct (black_height l); [|done].
    destruct (black_height t1) as [m|]; [|done]. by rewrite (Hb m eq_refl).
Qed.

Lemma bh_blacken t : is_Some (black_height t) → is_Some (black_height (blacken t)).
Proof.
  destruct t as [|a c l v r]; [done|]. simpl.
  destruct (black_height l), (black_height r); try done. by case_decide.
Qed.

Lemma bh_blacken_red t n :
  color_of_tree t = red → black_height t = Some n → black_height (blacken t) = Some (S n).
Proof.
  destruct t as [|a [] l v r]; try done. simpl. intros _.
  destruct (black_height l), (black_height r); try done.
  case_decide; [|done]. by intros [= ->].
Qed.

Lemma nrr_blacken t : no_red_red t = true → no_red_red (blacken t) = true.
Proof.
  destruct t as [|a c l v r]; [done|]. simpl. rewrite !andb_true_iff. naive_solver.
Qed.

Lemma nrr_plug_inv ctx : ∀ t, no_red_red (plug ctx t) = true → no_red_red t = true.
Proof.
  induction ctx as [|f ctx IH]; intros t; [done|].
  simpl. intros H%IH. destruct f; simpl in H; rewrite !andb_true_iff in H; naive_solver.
Qed.

Ltac nrr_norm :=
  repeat match goal with
         | |- context [_ && _ = true] => rewrite andb_true_iff
         | H : context [_ && _ = true] |- _ => rewrite andb_true_iff in H
         | |- context [bool_decide _ = true] => rewrite bool_decide_eq_true
         | H : context [bool_decide _ = true] |- _ => rewrite bool_decide_eq_true in H
         end.

Ltac bh_cases :=
  intros ?; simpl;
  repeat match goal with
         | |- context [black_height ?t] => destruct (black_height t) as [?|]; simpl; try done
         end;
  repeat (case_decide; simpl; try done); subst;
  try (intros [= <-]); try done; try lia.

Lemma fix_step_local fp fg nd pre nd' :
  frame_color fp = red → color_of_tree nd = red → no_red_red nd = true →
  no_red_red (plug1 fg (plug1 fp (blacken nd))) = true →
  fix_step fp fg nd = (pre, nd') →
  color_of_tree nd' = red ∧ no_red_red nd' = true
  ∧ no_red_red (plug pre (blacken nd')) = true
  ∧ color_of_tree (plug pre (blacken nd')) = black
  ∧ (∀ n, black_height (plug1 fg (plug1 fp nd)) = Some n →
          black_height (plug pre nd') = Some n).
Proof.
  intros Hfp Hc Hn Hb Hstep.
  destruct nd as [|a [] l v r]; try done.
  destruct fg as [g gc gv u|g gc u gv], fp as [p pc pv pr|p pc pl pv];
    simpl in Hfp; subst pc;
    destruct u as [|ua [] ul uv ur]; simpl in Hstep; injection Hstep as <- <-;
    destruct gc; simpl in Hb, Hn |- *; nrr_norm;
    try (exfalso; by destruct_and?).
  all: split_and!; try done; try tauto.
  all: bh_cases.
Qed.

Lemma fix_step_almost fp fg ctx nd pre nd' :
  frame_color fp = red → almost (fp :: fg :: ctx) nd →
  fix_step fp fg nd = (pre, nd') → almost (pre ++ ctx) nd'.
Proof.
  intros Hfp (Hc & Hn & Hb & Hh) Hstep. simpl in Hb, Hh.
  destruct (fix_step_local fp fg nd pre nd' Hfp Hc Hn
              (nrr_plug_inv ctx _ Hb) Hstep) as (Hc' & Hn' & Hb' & Hcol & Hh').
  split_and!; [done..| |]; rewrite plug_app.
  - revert Hb. by apply nrr_plug_mono.
  - destruct Hh as [n Hh]. exists n. revert Hh. by apply bh_plug_mono.
Qed.

(** When the loop stops, blackening the root gives a valid tree. *)
Lemma almost_done ctx nd :
  almost ctx nd →
  ctx = [] ∨ (∃ f rest, ctx = f :: rest ∧ frame_color f = black) →
  no_red_red (blacken (plug ctx nd)) = true
  ∧ is_Some (black_height (blacken (plug ctx nd))).
Proof.
  intros (Hc & Hn & Hb & Hh) Hctx. split; [|by apply bh_blacken].
  apply nrr_blacken.
  destruct Hctx as [-> | (f & rest & -> & Hf)]; [done|].
  simpl in *. revert Hb. apply nrr_plug_mono; [by destruct f|].
  destruct nd as [|a c l v r]; [done|]. simpl in Hc. subst c.
  destruct f as [p pc pv pr|p pc pl pv]; simpl in Hf; subst pc; simpl in *; nrr_norm; tauto.
Qed.


Ltac fin_shape Hrep :=
  mrun; eexists; cbn [fix_step color_of_tree blacken fst snd app];
  split; [apply ok_eq; [reflexivity|solve_root] | first [exact Hrep | solve_rep]].

(** The body of the loop of [fixInsert] does to the arena what [fix_step]
    does to the tree. *)
Lemma fixInsert_body_shape h nx ln fp fg ctx a l v r :
  rep h (plug (fp :: fg :: ctx) (T a red l v r)) None →
  NoDup (addrs (plug (fp :: fg :: ctx) (T a red l v r))) →
  frame_color fp = red →
  ∃ h', fixInsert_body rotateLeft rotateRight (Some a)
          (mkRB h nx (root_of (plug (fp :: fg :: ctx) (T a red l v r))) ln)
        = Ok (root_of (fix_step fp fg (T a red l v r)).2,
              mkRB h' nx (root_of (plug ((fix_step fp fg (T a red l v r)).1 ++ ctx)
                                     (fix_step fp fg (T a red l v r)).2)) ln)
      ∧ rep h' (plug ((fix_step fp fg (T a red l v r)).1 ++ ctx)
                  (fix_step fp fg (T a red l v r)).2) None.
Proof.
  intros Hrep Hnd Hred.
  destruct fg as [g gc gv u|g gc u gv];
    destruct fp as [p pc pv pr|p pc pl pv]; simpl in Hred; subst pc;
    destruct u as [|ua [] ul uv ur]; open_nodup Hnd;
    open_rep Hrep; unfold fixInsert_body; mrun.
  (* p left of g, nd left of p *)
  - use_rotR ctx g red E gv p black (T a red l v r) pv pr h1 Heq1 Hrep1.
    fin_shape Hrep1.
  - use_rotR ctx g red (T ua black ul uv ur) gv p black (T a red l v r) pv pr h1 Heq1 Hrep1.
    fin_shape Hrep1.
  - fin_shape I.
  (* p left of g, nd right of p *)
  - use_rotL (FL g gc gv E :: ctx) p red pl pv a red l v r h1 Heq1 Hrep1.
    open_rep Hrep1. mrun.
    use_rotR ctx g red E gv a black (T p red pl pv l) v r h2 Heq2 Hrep2.
    fin_shape Hrep2.
  - use_rotL (FL g gc gv (T ua black ul uv ur) :: ctx) p red pl pv a red l v r h1 Heq1 Hrep1.
    open_rep Hrep1. mrun.
    use_rotR ctx g red (T ua black ul uv ur) gv a black (T p red pl pv l) v r h2 Heq2 Hrep2.
    fin_shape Hrep2.
  - fin_shape I.
  (* p right of g, nd left of p *)
  - use_rotR (FR g gc E gv :: ctx) p red pr pv a red l v r h1 Heq1 Hrep1.
    open_rep Hrep1. mrun.
    use_rotL ctx g red E gv a black l v (T p red r pv pr) h2 Heq2 Hrep2.
    fin_shape Hrep2.
  - use_rotR (FR g gc (T ua black ul uv ur) gv :: ctx) p red pr pv a red l v r h1 Heq1 Hrep1.
    open_rep Hrep1. mrun.
    use_rotL ctx g red (T ua black ul uv ur) gv a black l v (T p red r pv pr) h2 Heq2 Hrep2.
    fin_shape Hrep2.
  - fin_shape I.
  (* p right of g, nd right of p *)
  - use_rotL ctx g red E gv p black pl pv (T a red l v r) h1 Heq1 Hrep1.
    fin_shape Hrep1.
  - use_rotL ctx g red (T ua black ul uv ur) gv p black pl pv (T a red l v r) h1 Heq1 Hrep1.
    fin_shape Hrep1.
  - fin_shape I.
Qed.

Lemma fix_step_pre fp fg nd :
  nd ≠ E →
  (fix_step fp fg nd).1 = [] ∨ ∃ f, (fix_step fp fg nd).1 = [f] ∧ frame_color f = black.
Proof.
  intros Hne. destruct nd as [|a c l v r]; [done|].
  destruct fg as [g gc gv u|g gc u gv], fp as [p pc pv pr|p pc pl pv]; simpl;
    destruct (color_of_tree u); simpl; eauto.
Qed.

Lemma inorder_blacken t : inorder (blacken t) = inorder t.
Proof. by destruct t. Qed.

Lemma fix_step_inorder fp fg ctx nd :
  inorder (plug ((fix_step fp fg nd).1 ++ ctx) (fix_step fp fg nd).2)
  = inorder (plug (fp :: fg :: ctx) nd).
Proof.
  destruct nd as [|a c l v r]; [done|].
  destruct fg as [g gc gv u|g gc u gv], fp as [p pc pv pr|p pc pl pv]; simpl;
    destruct (color_of_tree u); cbn [fst snd app];
    rewrite !inorder_plug; cbn [inorder ctx_before ctx_after]; rewrite ?inorder_blacken;
    repeat (rewrite <- ?app_assoc, ?app_nil_r; cbn [app]); reflexivity.
Qed.

Definition valid_post (nx : addr) (ln : Z) (_ : unit) (s' : RBTree) : Prop :=
  ∃ t', root_of t' ≠ None ∧
    s' = mkRB (arena s') nx (root_of t') ln ∧
    rep (arena s') t' None ∧ NoDup (addrs t') ∧
    no_red_red (blacken t') = true ∧ is_Some (black_height (blacken t')).

Lemma fixInsert_loop_valid n : ∀ ctx a l v r h nx ln fuel,
  (length ctx ≤ n)%nat →
  rep h (plug ctx (T a red l v r)) None →
  NoDup (addrs (plug ctx (T a red l v r))) →
  almost ctx (T a red l v r) →
  (ctx_root_black ctx ∨ ∃ f rest, ctx = f :: rest ∧ frame_color f = black) →
  partial (fixInsert_loop rotateLeft rotateRight fuel (Some a)
             (mkRB h nx (root_of (plug ctx (T a red l v r))) ln))
    (valid_post nx ln).
Proof.
  induction n as [n IH] using lt_wf_ind.
  intros ctx a l v r h nx ln fuel Hn Hrep Hnd Hal Hc.
  assert (Hdone : ctx = [] ∨ (∃ f rest, ctx = f :: rest ∧ frame_color f = black) →
    valid_post nx ln tt (mkRB h nx (root_of (plug ctx (T a red l v r))) ln)).
  { intros Hctx. exists (plug ctx (T a red l v r)).
    destruct (almost_done ctx _ Hal Hctx). split_and!; try done.
    apply root_of_plug_T_ne. }
  destruct ctx as [|fp ctx].
  { specialize (Hdone (or_introl eq_refl)). open_rep Hrep.
    destruct fuel; unfold partial; cbn [fixInsert_loop]; mrun; done. }
  destruct (decide (frame_color fp = black)) as [Hb|Hr].
  { specialize (Hdone (or_intror (ex_intro _ fp (ex_intro _ ctx (conj eq_refl Hb))))).
    destruct fp as [p pc pv pr|p pc pl pv]; simpl in Hb; subst pc; open_rep Hrep;
      destruct fuel; unfold partial; cbn [fixInsert_loop]; mrun; done. }
  clear Hdone.
  assert (frame_color fp = red) as Hred by (by destruct (frame_color fp)).
  destruct Hc as [Hc|(f & rest & [= <- <-] & ?)]; [|done].
  destruct ctx as [|fg ctx].
  { unfold ctx_root_black in Hc. simpl in Hc. congruence. }
  destruct fuel as [|fuel].
  { destruct fp as [p pc pv pr|p pc pl pv]; simpl in Hred; subst pc; open_rep Hrep;
      unfold partial; cbn [fixInsert_loop]; mrun; done. }
  destruct (fixInsert_body_shape h nx ln fp fg ctx a l v r Hrep Hnd Hred)
    as (h' & Hbody & Hrep').
  assert (Hloop : fixInsert_loop rotateLeft rotateRight (S fuel) (Some a)
      (mkRB h nx (root_of (plug (fp :: fg :: ctx) (T a red l v r))) ln) =
      bind (fixInsert_body rotateLeft rotateRight (Some a))
        (fixInsert_loop rotateLeft rotateRight fuel)
        (mkRB h nx (root_of (plug (fp :: fg :: ctx) (T a red l v r))) ln)).
  { destruct fp as [p pc pv pr|p pc pl pv]; simpl in Hred; subst pc; open_rep Hrep;
      cbn [fixInsert_loop]; mrun; done. }
  rewrite Hloop, run_bind, Hbody. clear Hloop Hbody.
  destruct (fix_step fp fg (T a red l v r)) as [pre nd'] eqn:Hstep. cbn [fst snd] in *.
  pose proof (fix_step_almost fp fg ctx _ pre nd' Hred Hal Hstep) as Hal'.
  pose proof (fix_step_pre fp fg (T a red l v r) ltac:(done)) as Hpre.
  rewrite Hstep in Hpre. cbn [fst] in Hpre.
  destruct nd' as [|a' c' l' v' r']; [by destruct Hal' as [[=] _]|].
  assert (c' = red) as -> by (by destruct Hal').
  cbn [root_of].
  assert (Hnd' : NoDup (addrs (plug (pre ++ ctx) (T a' red l' v' r')))).
  { pose proof (fix_step_inorder fp fg ctx (T a red l v r)) as Hin.
    rewrite Hstep in Hin. cbn [fst snd] in Hin. by eapply NoDup_addrs_eq. }
  apply (IH (length (pre ++ ctx))); [| lia | done | done | done |].
  - destruct Hpre as [-> | (f & -> & _)]; simpl in *; lia.
  - destruct Hpre as [-> | (f & -> & Hf)]; simpl.
    + left. by apply ctx_root_black_tail in Hc.
    + right. eauto.
Qed.

Lemma root_black_shape h nx ln t' :
  root_of t' ≠ None → rep h t' None → NoDup (addrs t') →
  ∃ h3, (r <- get_root;; assign "rb.root" r (with_clr black)) (mkRB h nx (root_of t') ln)
        = Ok (tt, mkRB h3 nx (root_of (blacken t')) ln)
      ∧ rep h3 (blacken t') None.
Proof.
  intros Hne Hrep Hnd. destruct t' as [|ra rc rl rv rr]; [done|].
  open_nodup Hnd. open_rep Hrep. eexists. split; [mrun; reflexivity|].
  simpl. split_and!; [solve_rep..].
Qed.

Lemma valid_rb_blacken t :
  no_red_red (blacken t) = true → is_Some (black_height (blacken t)) →
  valid_rb (blacken t) = true.
Proof.
  intros Hn Hb. unfold valid_rb. rewrite Hn, !andb_true_iff, !bool_decide_eq_true.
  split_and!; [by destruct t|done..].
Qed.

Lemma valid_rb_nrr t : valid_rb t = true → no_red_red t = true.
Proof. unfold valid_rb. rewrite !andb_true_iff. tauto. Qed.

(** Attaching a red leaf to a valid tree gives the state in which the loop
    of [fixInsert] starts. *)
Lemma almost_attach ctx nx val :
  valid_rb (plug ctx E) = true → almost ctx (T nx red E val E).
Proof.
  intros Hv. split_and!; [done..| |].
  - generalize (valid_rb_nrr _ Hv). by apply nrr_plug_mono.
  - destruct (valid_rb_bh _ Hv) as [n Hn]. exists n. revert Hn.
    apply bh_plug_mono. by intros m [= <-].
Qed.

(** Whenever [Insert] returns from a call on a valid red-black tree, the
    tree it leaves is a valid red-black tree. *)
Lemma Insert_valid s t val fuel :
  Inv s t → valid_rb t = true →
  partial (Insert fuel val s)
    (λ _ s', ∃ t', rep (arena s') t' None ∧ root s' = root_of t' ∧ valid_rb t' = true).
Proof.
  destruct s as [h nx rt ln]. unfold Inv. cbn [arena root len next].
  intros (Hrep & Hnd & -> & -> & Hfresh & Hsort & Hblack) Hvalid.
  unfold Insert, Insert_over. rewrite !run_get_root. cbn [root]. rewrite !run_bind.
  pose proof (insert_descend_spec val t [] h nx (root_of t) (Z.of_nat (size t)) fuel Hrep) as Hd.
  cbn [ctx_parent] in Hd.
  destruct (insert_descend fuel val (root_of t) None _) as [[p s1]| |]; [|done..].
  destruct Hd as [-> ->].
  pose proof (plug_descend val t []) as Hplug. cbn [plug] in Hplug.
  pose proof (descend_ok val t [] (Forall_nil_2 _)) as Hok.
  destruct (descend val t []) as [|f ctx] eqn:Hctx.
  - apply descend_nil in Hctx as [-> _]. cbn [ctx_parent].
    rewrite !run_get_len, !run_set_len, !run_alloc. mrun. cbn [partial].
    exists (T nx black E val E). cbn [arena root]. split; [solve_rep|by split].
  - rewrite <- Hplug in *. clear Hplug Hctx t.
    pose proof (fresh_nin _ _ Hfresh) as Hnx.
    pose proof (nodup_attach _ _ red val Hnd Hnx) as Hnd2.
    pose proof Hnd2 as Hnd3.
    pose proof (almost_attach (f :: ctx) nx val Hvalid) as Hal.
    pose proof (root_black_ctx (f :: ctx) E Hblack ltac:(done)) as Hrb.
    rewrite !run_get_len, !run_set_len, !run_alloc.
    destruct f as [p pc pv pr|p pc pl pv];
      pose proof Hok as Hok';
      apply Forall_cons in Hok' as [Hf _];
      cbn [frame_ok] in Hf; open_rep Hrep; open_nodup Hnd3; mrun.
    + rewrite (proj2 (Z.leb_le val pv) Hf). unfold fixInsert_over. mrun.
      match goal with
      | |- context [bind (fixInsert_loop rotateLeft rotateRight fuel (Some nx)) _ (mkRB ?H ?NX ?RT ?LN)] =>
          pose proof (fixInsert_loop_valid _ (FL p pc pv pr :: ctx)
                      nx E val E H NX LN fuel (le_n _)) as Hout;
          replace RT with (root_of (plug (FL p pc pv pr :: ctx) (T nx red E val E)))
            by (symmetry; solve_root)
      end.
      rewrite run_bind.
      destruct (fixInsert_loop rotateLeft rotateRight fuel (Some nx) _) as [[[] s3]| |];
        [|done..].
      destruct Hout as (t' & Hne & Hs3 & Hrep3 & Hnd3' & Hnrr3 & Hbh3);
        [solve_rep|exact Hnd2|exact Hal|by left|].
      rewrite Hs3.
      match goal with
      | |- context [mkRB (arena s3) _ _ ?LN] =>
          destruct (root_black_shape (arena s3) (Pos.succ nx) LN t' Hne Hrep3 Hnd3')
            as (h3 & Hfin & Hrepf)
      end.
      unfold with_clr in Hfin. rewrite Hfin. cbn [partial]. exists (blacken t').
      split_and!; [done|done|by apply valid_rb_blacken].
    + rewrite (proj2 (Z.leb_gt val pv) Hf). unfold fixInsert_over. mrun.
      match goal with
      | |- context [bind (fixInsert_loop rotateLeft rotateRight fuel (Some nx)) _ (mkRB ?H ?NX ?RT ?LN)] =>
          pose proof (fixInsert_loop_valid _ (FR p pc pl pv :: ctx)
                      nx E val E H NX LN fuel (le_n _)) as Hout;
          replace RT with (root_of (plug (FR p pc pl pv :: ctx) (T nx red E val E)))
            by (symmetry; solve_root)
      end.
      rewrite run_bind.
      destruct (fixInsert_loop rotateLeft rotateRight fuel (Some nx) _) as [[[] s3]| |];
        [|done..].
      destruct Hout as (t' & Hne & Hs3 & Hrep3 & Hnd3' & Hnrr3 & Hbh3);
        [solve_rep|exact Hnd2|exact Hal|by left|].
      rewrite Hs3.
      match goal with
      | |- context [mkRB (arena s3) _ _ ?LN] =>
          destruct (root_black_shape (arena s3) (Pos.succ nx) LN t' Hne Hrep3 Hnd3')
            as (h3 & Hfin & Hrepf)
      end.
      unfold with_clr in Hfin. rewrite Hfin. cbn [partial]. exists (blacken t').
      split_and!; [done|done|by apply valid_rb_blacken].
Qed.

(** X14: [Insert] on a valid red-black tree returns (given more steps than
    the tree has nodes) and leaves a valid red-black tree: black root, no
    red node with a red child, equal numbers of black nodes on all paths;
    the tree is still in search order and holds the new value besides the
    old ones. *)
Theorem X14_Insert_keeps_red_black s t val fuel :
  Inv s t → valid_rb t = true → (size t < fuel)%nat →
  ∃ s' t', Insert fuel val s = Ok (tt, s') ∧ Inv s' t'
           ∧ valid_rb t' = true ∧ values t' ≡ₚ val :: values t.
Proof.
  intros HI Hv Hfuel.
  pose proof (Insert_spec s t val fuel HI) as Hs.
  pose proof (Insert_valid s t val fuel HI Hv) as Hp.
  destruct (Insert fuel val s) as [[[] s']| |]; simpl in Hs, Hp; [|done|lia].
  destruct Hs as (t1 & HI1 & Hperm). destruct Hp as (t2 & Hrep2 & Hrt2 & Hv2).
  exists s', t1. split_and!; [done..| |done].
  destruct HI1 as (Hrep1 & _ & Hrt1 & _).
  by rewrite (rep_inj (arena s') t1 t2 None None Hrep1 Hrep2) by congruence.
Qed.

Lemma X14_witness :
  ∃ s' t', Insert 5 5 tree_1234 = Ok (tt, s') ∧ Inv s' t'
           ∧ valid_rb t' = true ∧ values t' ≡ₚ 5 :: values shape_1234.
Proof.
  apply (X14_Insert_keeps_red_black tree_1234 shape_1234 5 5);
    [exact Inv_tree_1234|reflexivity|vm_compute; lia].
Defined.

Lemma inserts_valid fuel vs : ∀ s t,
  Inv s t → valid_rb t = true → (size t + length vs ≤ fuel)%nat →
  ∃ s' t', inserts Insert fuel vs s = Ok (tt, s') ∧ Inv s' t'
           ∧ valid_rb t' = true ∧ values t' ≡ₚ vs ++ values t.
Proof.
  induction vs as [|v vs IH]; intros s t HI Hv Hfuel.
  { exists s, t. by rewrite inserts_nil. }
  cbn [length] in Hfuel. rewrite inserts_cons.
  pose proof (Insert_spec s t v fuel HI) as Hs.
  pose proof (Insert_valid s t v fuel HI Hv) as Hp.
  destruct (Insert fuel v s) as [[[] s1]| |]; cbn [outcome partial] in Hs, Hp; [|done|lia].
  destruct Hs as (t1 & HI1 & Hperm). destruct Hp as (t2 & Hrep2 & Hrt2 & Hv2).
  assert (t1 = t2) as <-.
  { destruct HI1 as (Hrep1 & _ & Hrt1 & _).
    apply (rep_inj (arena s1) t1 t2 None None Hrep1 Hrep2). congruence. }
  pose proof (Permutation_length Hperm) as Hlen. cbn [length] in Hlen.
  destruct (IH s1 t1 HI1 Hv2) as (s' & t' & Hrun & HI' & Hv' & Hperm').
  { rewrite size_values in *. lia. }
  exists s', t'. split_and!; [done..|].
  rewrite Hperm', Hperm. cbn [app]. by rewrite Permutation_middle.
Qed.

(** X15: whatever values are inserted into the empty tree, in whatever
    order, every [Insert] returns and the tree that results is a valid
    red-black tree in search order holding exactly those values. *)
Theorem X15_inserts_build_red_black vs :
  ∃ s t, inserts Insert (length vs) vs NewRBTree = Ok (tt, s) ∧ Inv s t
         ∧ valid_rb t = true ∧ values t ≡ₚ vs.
Proof.
  destruct (inserts_valid (length vs) vs NewRBTree E Inv_new eq_refl)
    as (s & t & Hrun & HI & Hv & Hp); [unfold size; simpl; lia|].
  exists s, t. split_and!; [done..|]. by rewrite Hp, app_nil_r.
Qed.

(** ** Logarithmic search *)

Fixpoint height (t : tree) : nat :=
  match t with
  | E => O
  | T _ _ l _ r => S (Nat.max (height l) (height r))
  end.

Lemma bh_size t : ∀ n, black_height t = Some n → (2 ^ n ≤ size t + 1)%nat.
Proof.
  induction t as [|a c l IHl v r IHr]; intros n; simpl.
  - intros [= <-]. simpl. lia.
  - rewrite size_T.
    destruct (black_height l) as [x|]; [|done].
    destruct (black_height r) as [y|]; [|done].
    case_decide; [subst y|done].
    specialize (IHl x eq_refl). specialize (IHr x eq_refl).
    destruct c; intros [= <-]; [rewrite Nat.pow_succ_r'|]; lia.
Qed.

Lemma height_bh t : ∀ n,
  black_height t = Some n → no_red_red t = true →
  (height t ≤ 2 * n + (if color_of_tree t is red then 1 else 0))%nat.
Proof.
  induction t as [|a c l IHl v r IHr]; intros n; simpl.
  - intros [= <-] _. lia.
  - destruct (black_height l) as [x|]; [|done].
    destruct (black_height r) as [y|]; [|done].
    case_decide; [subst y|done].
    specialize (IHl x eq_refl). specialize (IHr x eq_refl).
    destruct c; intros [= <-] Hn; nrr_norm; destruct_and?.
    + specialize (IHl ltac:(done)). specialize (IHr ltac:(done)).
      destruct (color_of_tree l), (color_of_tree r); lia.
    + specialize (IHl ltac:(done)). specialize (IHr ltac:(done)).
      repeat match goal with H : color_of_tree _ = black |- _ => rewrite H in * end. lia.
Qed.

(** A valid red-black tree with [n] nodes is at most [2 log2 (n + 1)] deep. *)
Lemma valid_rb_height t : valid_rb t = true → (height t ≤ 2 * Nat.log2 (size t + 1))%nat.
Proof.
  intros Hv. pose proof (valid_rb_nrr t Hv) as Hn.
  destruct (valid_rb_bh t Hv) as [n Hb].
  pose proof (height_bh t n Hb Hn) as Hh. pose proof (bh_size t n Hb) as Hs.
  assert (color_of_tree t = black) as Hc.
  { unfold valid_rb in Hv. rewrite !andb_true_iff, bool_decide_eq_true in Hv. tauto. }
  rewrite Hc in Hh.
  assert (n ≤ Nat.log2 (size t + 1))%nat; [|lia].
  apply Nat.log2_le_pow2; [lia|done].
Qed.

(** The search loop goes down one level per step. *)
Lemma findNode_from_height val t : ∀ ctx h nx rt ln fuel,
  rep h (plug ctx t) None → (height t < fuel)%nat →
  findNode_from fuel val (root_of t) (mkRB h nx rt ln) ≠ Timeout.
Proof.
  induction t as [|a c l IHl v r IHr]; intros ctx h nx rt ln fuel Hrep Hfuel.
  { by destruct fuel. }
  destruct fuel as [|fuel]; [simpl in Hfuel; lia|]. simpl in Hfuel.
  pose proof Hrep as Hrep'. open_rep Hrep'.
  cbn [findNode_from root_of]. mrun.
  destruct (v =? val); [by mrun|].
  destruct (v <? val); mrun.
  - apply (IHr (FR a c l v :: ctx)); [done|lia].
  - apply (IHl (FL a c v r :: ctx)); [done|lia].
Qed.

Lemma Exists_height s t val fuel :
  Inv s t → (height t < fuel)%nat →
  Exists fuel val s = Ok (bool_decide (val ∈ values t), s).
Proof.
  intros HI Hfuel. pose proof (Exists_spec s t val fuel HI) as He.
  assert (Exists fuel val s ≠ Timeout) as Hnt.
  { destruct s as [h nx rt ln]. destruct HI as (Hrep & _ & Hrt & _).
    cbn [arena root] in *. subst rt.
    unfold Exists, findNode. rewrite run_assoc, run_get_root, run_bind. cbn [root].
    pose proof (findNode_from_height val t [] h nx (root_of t) ln fuel Hrep Hfuel) as Hf.
    by destruct (findNode_from fuel val (root_of t) _) as [[]| |]. }
  destruct (Exists fuel val s) as [[b s']| |]; simpl in He; [|done..].
  destruct He as [-> Hb]. f_equal. f_equal.
  destruct b; symmetry.
  - apply bool_decide_eq_true. by apply Hb.
  - apply bool_decide_eq_false. intros Hin. by apply Hb in Hin.
Qed.

(** X16: on the tree built by inserting the values [vs] into the empty
    tree, [Exists] gives its answer within [2 log2 (n + 1) + 1] steps of its
    search loop, [n] the number of values: the depth that the red-black
    properties allow. *)
Theorem X16_Exists_logarithmic vs v fuel :
  (2 * Nat.log2 (length vs + 1) < fuel)%nat →
  ∃ s, inserts Insert (length vs) vs NewRBTree = Ok (tt, s)
       ∧ Exists fuel v s = Ok (bool_decide (v ∈ vs), s).
Proof.
  intros Hfuel.
  destruct (inserts_valid (length vs) vs NewRBTree E Inv_new eq_refl)
    as (s & t & Hrun & HI & Hv & Hp); [unfold size; simpl; lia|].
  rewrite app_nil_r in Hp.
  exists s. split; [done|].
  rewrite (Exists_height s t v fuel HI).
  - f_equal. f_equal. apply bool_decide_ext. by rewrite Hp.
  - pose proof (valid_rb_height t Hv) as Hh.
    rewrite size_values, (Permutation_length Hp) in Hh. lia.
Qed.

Lemma X16_witness :
  ∃ s, inserts Insert (length [1; 2; 3; 4]) [1; 2; 3; 4] NewRBTree = Ok (tt, s)
       ∧ Exists 5 3 s = Ok (bool_decide (3 ∈ [1; 2; 3; 4]), s).
Proof. apply (X16_Exists_logarithmic [1; 2; 3; 4] 3 5). vm_compute. lia. Defined.

(** ** Logarithmic insertion *)

Lemma insert_descend_height val t : ∀ ctx h nx rt ln fuel,
  rep h (plug ctx t) None → (height t < fuel)%nat →
  insert_descend fuel val (root_of t) (ctx_parent ctx) (mkRB h nx rt ln) ≠ Timeout.
Proof.
  induction t as [|a c l IHl v r IHr]; intros ctx h nx rt ln fuel Hrep Hfuel.
  { by destruct fuel. }
  destruct fuel as [|fuel]; [simpl in Hfuel; lia|]. simpl in Hfuel.
  pose proof Hrep as Hrep'. open_rep Hrep'.
  cbn [insert_descend root_of]. mrun.
  destruct (val <=? v); mrun.
  - apply (IHl (FL a c v r :: ctx)); [done|lia].
  - apply (IHr (FR a c l v :: ctx)); [done|lia].
Qed.

Lemma descend_length val t : ∀ ctx,
  (length (descend val t ctx) ≤ height t + length ctx)%nat.
Proof.
  induction t as [|a c l IHl v r IHr]; intros ctx; simpl; [lia|].
  destruct (val <=? v).
  - specialize (IHl (FL a c v r :: ctx)). simpl in IHl. lia.
  - specialize (IHr (FR a c l v :: ctx)). simpl in IHr. lia.
Qed.

(** [Insert] needs no more steps in either of its loops than the tree is
    deep. *)
Lemma Insert_height s t val fuel :
  Inv s t → (height t < fuel)%nat → Insert fuel val s ≠ Timeout.
Proof.
  destruct s as [h nx rt ln]. unfold Inv. cbn [arena root len next].
  intros (Hrep & Hnd & -> & -> & Hfresh & Hsort & Hblack) Hfuel.
  unfold Insert, Insert_over. rewrite !run_get_root. cbn [root]. rewrite !run_bind.
  pose proof (insert_descend_spec val t [] h nx (root_of t) (Z.of_nat (size t)) fuel Hrep) as Hd.
  pose proof (insert_descend_height val t [] h nx (root_of t) (Z.of_nat (size t)) fuel
                Hrep Hfuel) as Hdh.
  cbn [ctx_parent] in Hd, Hdh.
  destruct (insert_descend fuel val (root_of t) None _) as [[p s1]| |]; [|done..].
  clear Hdh. destruct Hd as [-> ->].
  pose proof (plug_descend val t []) as Hplug. cbn [plug] in Hplug.
  pose proof (descend_ok val t [] (Forall_nil_2 _)) as Hok.
  pose proof (descend_length val t []) as Hlen. cbn [length] in Hlen.
  destruct (descend val t []) as [|f ctx] eqn:Hctx.
  - apply descend_nil in Hctx as [-> _]. cbn [ctx_parent].
    rewrite !run_get_len, !run_set_len, !run_alloc. mrun. done.
  - rewrite <- Hplug in *. clear Hplug Hctx.
    pose proof (fresh_nin _ _ Hfresh) as Hnx.
    pose proof (nodup_attach _ _ red val Hnd Hnx) as Hnd2.
    pose proof Hnd2 as Hnd3.
    pose proof (root_black_ctx (f :: ctx) E Hblack ltac:(done)) as Hrb.
    rewrite !run_get_len, !run_set_len, !run_alloc.
    destruct f as [p pc pv pr|p pc pl pv];
      pose proof Hok as Hok';
      apply Forall_cons in Hok' as [Hf _];
      cbn [frame_ok] in Hf; open_rep Hrep; open_nodup Hnd3; mrun.
    + rewrite (proj2 (Z.leb_le val pv) Hf). unfold fixInsert_over. mrun.
      match goal with
      | |- context [bind (fixInsert_loop rotateLeft rotateRight fuel (Some nx)) _ (mkRB ?H ?NX ?RT ?LN)] =>
          destruct (fixInsert_loop_spec rotateLeft rotateRight ltac:(done) ltac:(done)
                      _ (FL p pc pv pr :: ctx)
                      nx E val E H NX RT LN fuel (le_n _)) as [_ Hout];
            [solve_rep | exact Hnd2 | solve_root | by left | ]
      end.
      rewrite run_bind.
      destruct (fixInsert_loop rotateLeft rotateRight fuel (Some nx) _) as [[[] s3]| |];
        cbn [outcome] in Hout; [|done|cbn [length] in *; lia].
      destruct (root_black_spec _ _ _ _ Hout Hnd2) as (t3 & h3 & Hfin & _).
      unfold with_clr in Hfin. by rewrite Hfin.
    + rewrite (proj2 (Z.leb_gt val pv) Hf). unfold fixInsert_over. mrun.
      match goal with
      | |- context [bind (fixInsert_loop rotateLeft rotateRight fuel (Some nx)) _ (mkRB ?H ?NX ?RT ?LN)] =>
          destruct (fixInsert_loop_spec rotateLeft rotateRight ltac:(done) ltac:(done)
                      _ (FR p pc pl pv :: ctx)
                      nx E val E H NX RT LN fuel (le_n _)) as [_ Hout];
            [solve_rep | exact Hnd2 | solve_root | by left | ]
      end.
      rewrite run_bind.
      destruct (fixInsert_loop rotateLeft rotateRight fuel (Some nx) _) as [[[] s3]| |];
        cbn [outcome] in Hout; [|done|cbn [length] in *; lia].
      destruct (root_black_spec _ _ _ _ Hout Hnd2) as (t3 & h3 & Hfin & _).
      unfold with_clr in Hfin. by rewrite Hfin.
Qed.

Lemma inserts_log fuel n vs : ∀ s t,
  Inv s t → valid_rb t = true → (size t + length vs ≤ n)%nat →
  (2 * Nat.log2 (n + 1) < fuel)%nat →
  ∃ s' t', inserts Insert fuel vs s = Ok (tt, s') ∧ Inv s' t'
           ∧ valid_rb t' = true ∧ values t' ≡ₚ vs ++ values t.
Proof.
  induction vs as [|v vs IH]; intros s t HI Hv Hn Hfuel.
  { exists s, t. by rewrite inserts_nil. }
  cbn [length] in Hn. rewrite inserts_cons.
  pose proof (Insert_spec s t v fuel HI) as Hs.
  pose proof (Insert_valid s t v fuel HI Hv) as Hp.
  assert (Insert fuel v s ≠ Timeout) as Hnt.
  { apply (Insert_height s t v fuel HI).
    pose proof (valid_rb_height t Hv) as Hh.
    assert (Nat.log2 (size t + 1) ≤ Nat.log2 (n + 1))%nat by (apply Nat.log2_le_mono; lia).
    lia. }
  destruct (Insert fuel v s) as [[[] s1]| |]; cbn [outcome partial] in Hs, Hp; [|done..].
  destruct Hs as (t1 & HI1 & Hperm). destruct Hp as (t2 & Hrep2 & Hrt2 & Hv2).
  assert (t1 = t2) as <-.
  { destruct HI1 as (Hrep1 & _ & Hrt1 & _).
    apply (rep_inj (arena s1) t1 t2 None None Hrep1 Hrep2). congruence. }
  pose proof (Permutation_length Hperm) as Hlen. cbn [length] in Hlen.
  destruct (IH s1 t1 HI1 Hv2) as (s' & t' & Hrun & HI' & Hv' & Hperm'); [|done|].
  { rewrite size_values in *. lia. }
  exists s', t'. split_and!; [done..|].
  rewrite Hperm', Hperm. cbn [app]. by rewrite Permutation_middle.
Qed.

(** X17: while [n] values are inserted one after the other into the empty
    tree, no [Insert] runs its descent loop or the loop of [fixInsert] more
    than [2 log2 (n + 1) + 1] times: with that many steps for each loop all
    insertions return, and the result is a valid red-black tree in search
    order holding the values. *)
Theorem X17_Insert_logarithmic vs fuel :
  (2 * Nat.log2 (length vs + 1) < fuel)%nat →
  ∃ s t, inserts Insert fuel vs NewRBTree = Ok (tt, s) ∧ Inv s t
         ∧ valid_rb t = true ∧ values t ≡ₚ vs.
Proof.
  intros Hfuel.
  destruct (inserts_log fuel (length vs) vs NewRBTree E Inv_new eq_refl)
    as (s & t & Hrun & HI & Hv & Hp); [unfold size; simpl; lia|done|].
  exists s, t. split_and!; [done..|]. by rewrite Hp, app_nil_r.
Qed.

Lemma X17_witness :
  ∃ s t, inserts Insert 7 [5; 1; 4; 2; 3; 7; 6; 8] NewRBTree = Ok (tt, s) ∧ Inv s t
         ∧ valid_rb t = true ∧ values t ≡ₚ [5; 1; 4; 2; 3; 7; 6; 8].
Proof. apply (X17_Insert_logarithmic [5; 1; 4; 2; 3; 7; 6; 8] 7). vm_compute. lia. Defined.

(** X18: after [Delete v] has returned nil on a reachable tree, [Exists]
    answers for every value whether it is among the values stored before
    less one occurrence of [v]: [v] itself is still found exactly when it
    was stored more than once, and every other value as before. *)
Theorem X18_Exists_after_Delete s vs v w fuel fuel' s' :
  reach s vs → Delete fuel v s = Ok (None, s') → (length vs ≤ fuel')%nat →
  Exists fuel' w s' = Ok (bool_decide (w ∈ remove_one v vs), s')
  ∧ (w ≠ v → (w ∈ remove_one v vs ↔ w ∈ vs)).
Proof.
  intros Hr Hd Hfuel.
  pose proof (reach_Delete s vs fuel v None s' Hr Hd) as Hr'. cbn in Hr'.
  destruct (reach_Inv s vs Hr) as (t & HI & Hp).
  pose proof (Delete_spec s t v fuel HI) as Hs. rewrite Hd in Hs. simpl in Hs.
  destruct Hs as (Hin & _). rewrite Hp in Hin.
  pose proof (remove_one_perm v vs Hin) as Hperm.
  split.
  - destruct (reach_Inv s' _ Hr') as (t' & HI' & Hp').
    pose proof (reach_size s' _ t' Hr' HI') as Hsz.
    pose proof (Permutation_length Hperm) as Hlen. cbn [length] in Hlen.
    pose proof (Exists_spec s' t' w fuel' HI') as He.
    destruct (Exists fuel' w s') as [[b s2]| |]; simpl in He; [|done|lia].
    destruct He as [-> Hb]. f_equal. f_equal. rewrite Hp' in Hb.
    destruct b; symmetry.
    + apply bool_decide_eq_true. by apply Hb.
    + apply bool_decide_eq_false. intros Hw. by apply Hb in Hw.
  - intros Hne. rewrite Hperm at 2. set_solver.
Qed.

Lemma X18_witness :
  Exists 4 3 tree_124 = Ok (bool_decide (3 ∈ remove_one 3 [4; 3; 2; 1]), tree_124)
  ∧ (3 ≠ 3 → (3 ∈ remove_one 3 [4; 3; 2; 1] ↔ 3 ∈ [4; 3; 2; 1])).
Proof.
  apply (X18_Exists_after_Delete tree_1234 [4; 3; 2; 1] 3 3 4 4 tree_124);
    [exact reach_tree_1234|vm_compute; reflexivity|simpl; lia].
Defined.

(** X19: the rotations of [src/unnamed/part_000], which relink the parent
    themselves, and those of [src/bst/rb.go], which call [replace], end in
    the same state whenever the rotated node has a parent or the promoted
    child is black already; they differ only in the colour given to a red
    child promoted to the root. *)
Theorem X19_rotation_versions_agree :
  (∀ h nx rt ln ctx a c l v b cb bl bv br,
     rep h (plug ctx (T a c l v (T b cb bl bv br))) None →
     NoDup (addrs (plug ctx (T a c l v (T b cb bl bv br)))) →
     ctx ≠ [] ∨ cb = black →
     Prev.rotateLeft (Some a) (mkRB h nx rt ln) = rotateLeft (Some a) (mkRB h nx rt ln))
  ∧ (∀ h nx rt ln ctx a c r v b cb bl bv br,
     rep h (plug ctx (T a c (T b cb bl bv br) v r)) None →
     NoDup (addrs (plug ctx (T a c (T b cb bl bv br) v r))) →
     ctx ≠ [] ∨ cb = black →
     Prev.rotateRight (Some a) (mkRB h nx rt ln) = rotateRight (Some a) (mkRB h nx rt ln)).
Proof.
  split.
  - intros. by eapply prev_rotateLeft_eq.
  - intros. by eapply prev_rotateRight_eq.
Qed.

Lemma X19_witness :
  Prev.rotateLeft (Some 3%positive) (mkRB (arena tree_1234) 5%positive (Some 2%positive) 4)
  = rotateLeft (Some 3%positive) (mkRB (arena tree_1234) 5%positive (Some 2%positive) 4).
Proof.
  apply (proj1 X19_rotation_versions_agree (arena tree_1234) 5%positive (Some 2%positive) 4
           [FR 2%positive black (T 1%positive black E 1 E) 2]
           3%positive black E 3 4%positive red E 4 E).
  - vm_compute. repeat split.
  - apply (bool_decide_unpack _). vm_compute. exact I.
  - by left.
Defined.

(** ** C4: the sibling in the delete fix-up *)

(** [Delete] of each value of [vs] in turn, with the results. *)
Definition deletes (fuel : nat) (vs : list Z) : M (list (option error)) :=
  foldr (fun v k => e <- Delete fuel v;; es <- k;; ret (e :: es)) (ret []) vs.

(** The tree made by inserting 2, 3, 10, 9, 1, 11, 12, 5, 2, 10, 3, 7, and
    what is left of it after deleting 10, 11, 2, 5, 3, 2, 12. *)
Definition tree_12v : RBTree :=
  state_of (inserts Insert 12 [2; 3; 10; 9; 1; 11; 12; 5; 2; 10; 3; 7] NewRBTree).

Definition tree_5v : RBTree :=
  match deletes 5 [10; 11; 2; 5; 3; 2; 12] tree_12v with
  | Ok (_, s) => s
  | _ => NewRBTree
  end.

Lemma valid_tree_12v : ∃ t, Inv tree_12v t ∧ valid_rb t = true.
Proof.
  destruct (inserts_valid 12 [2; 3; 10; 9; 1; 11; 12; 5; 2; 10; 3; 7] NewRBTree E
              Inv_new eq_refl) as (s & t & Hrun & HI & Hv & _).
  { unfold size. simpl. lia. }
  assert (s = tree_12v) as Hs by (unfold tree_12v; rewrite Hrun; reflexivity).
  exists t. split; [rewrite <- Hs; exact HI|exact Hv].
Qed.

(** C4: the loop of [fixDelete] does read a field of an absent sibling.
    The twelve insertions give a valid red-black tree; the seven deletions
    that follow are of stored values and all return nil; the tree they
    leave has the black root 7 with the black left child 3 (whose left
    child is the black 1) and the red right child 9 (without left child).
    [Delete 3] then puts 1 in the place of 3 and calls [fixDelete] on it:
    the sibling 9 is red, so the parent is rotated to the left, the new
    sibling [nd.parent.right] is the absent left child of 9, and
    [sib.left.color()] dereferences nil. *)
Theorem C4_Delete_reads_nil_sibling :
  (∃ t, Inv tree_12v t ∧ valid_rb t = true)
  ∧ inserts Insert 12 [2; 3; 10; 9; 1; 11; 12; 5; 2; 10; 3; 7] NewRBTree
    = Ok (tt, tree_12v)
  ∧ deletes 5 [10; 11; 2; 5; 3; 2; 12] tree_12v = Ok (replicate 7 None, tree_5v)
  ∧ Exists 5 3 tree_5v = Ok (true, tree_5v)
  ∧ Delete 5 3 tree_5v = Panic (NilDeref "sib").
Proof.
  split_and!; [exact valid_tree_12v|vm_compute; reflexivity..].
Qed.
